(** * The IAM-role proxy of the pipelines frontend server

    A shallow embedding of [src/frontend/server/iam-role-proxy.ts]: the
    [MinioClientManager] class, which hands out a minio client built either
    from static keys or from EC2 instance-role credentials, and the
    [getMinioClientProxy] forwarder.

    The code is asynchronous.  It is modelled as an event-driven machine over
    a [World]: the manager's fields, the table of promises the code has
    created, the log of HTTP requests sent and the log of storage methods
    invoked.  An [Event] is either a call made by a user of the manager or
    the completion of an HTTP request; after each event the promise
    callbacks that became runnable are run, as the JavaScript job queue does
    before it takes the next event. *)

From Stdlib Require Import ZArith String Ascii List Bool Lia.
From Stdlib Require Import Decimal DecimalString DecimalNat.
From stdpp Require Import base option list.
Import ListNotations.

Local Open Scope string_scope.
Local Open Scope list_scope.
Local Open Scope Z_scope.
Local Open Scope nat_scope.

(** ** JavaScript values *)

(** A JavaScript number as the code uses it: an integer count of
    milliseconds, or [NaN] (what [new Date(s).getTime()] gives for a string
    that is no date).  Every comparison with [NaN] is false. *)
Inductive JsNum := Num (z : Z) | NaN.

Definition num_lt (a b : JsNum) : bool :=
  match a, b with
  | Num x, Num y => (x <? y)%Z
  | _, _ => false
  end.

Definition num_gt (a b : JsNum) : bool := num_lt b a.

(** [String.prototype.toLowerCase] on the ASCII range: [A]-[Z] map to
    [a]-[z] and every other character is kept.  (No character outside that
    range lower-cases to a letter of the two host names compared below.) *)
Definition lower_ascii (c : ascii) : ascii :=
  let n := nat_of_ascii c in
  if (65 <=? n) && (n <=? 90) then ascii_of_nat (n + 32) else c.

Fixpoint toLowerCase (s : string) : string :=
  match s with
  | EmptyString => EmptyString
  | String c s' => String (lower_ascii c) (toLowerCase s')
  end.

(** ** Data of the module *)

(** [ClientOptions] as redeclared at the top of the file.  The keys are
    optional here because [init] reads them with a default; [transport]
    (typed [any], never read) is left out. *)
Record ClientOptions := {
  endPoint : string;
  accessKey : option string;
  secretKey : option string;
  useSSL : option bool;
  port : option JsNum;
  region : option string;
  sessionToken : option string
}.

(** A minio [Client] object: the options it was constructed with, and the
    rank of its construction, which tells two instances apart. *)
Record Client := {
  instance : nat;
  client_options : ClientOptions
}.

Record MetaDataResult := {
  AccessKeyId : string;
  SecretAccessKey : string;
  Expiration : string;
  Token : string
}.

Inductive Value :=
| VUndefined
| VBool (b : bool)
| VString (s : string)
| VClient (c : Client)
| VOther (n : nat).   (* any other object: a stream, a callback, ... *)

Inductive Error :=
| FetchError (msg : string)    (* network failure or timeout of [fetch] *)
| SyntaxError (msg : string)   (* [resp.json()] on a body that is not JSON *)
| TypeError (msg : string)
| PlainError (msg : string).   (* [new Error(msg)] *)

Inductive Outcome := Return (v : Value) | Throw (e : Error).

(** JavaScript truthiness, as used by [!!x], [!x], [x && y] and [x || y]. *)
Definition truthy (v : Value) : bool :=
  match v with
  | VUndefined => false
  | VBool b => b
  | VString s => negb (String.eqb s "")
  | VClient _ => true
  | VOther _ => true
  end.

(** [!!x] for a field that holds a promise or [undefined]. *)
Definition defined {A : Type} (x : option A) : bool :=
  match x with
  | Some _ => true
  | None => false
  end.

(** String conversion inside a template literal. *)
Definition String_of (v : Value) : string :=
  match v with
  | VUndefined => "undefined"
  | VBool true => "true"
  | VBool false => "false"
  | VString s => s
  | VClient _ => "[object Object]"
  | VOther _ => "[object Object]"
  end.

(** ** HTTP *)

(** The two requests the manager sends, with the URL and the options the
    code passes to [fetch]. *)
Inductive Request :=
| RoleListing
| Credentials (iamRole : string).

Definition metadataUrl : string := "http://169.254.169.254/latest/meta-data".

Definition url (r : Request) : string :=
  match r with
  | RoleListing => (metadataUrl ++ "/iam/security-credentials/")%string
  | Credentials iamRole =>
      (metadataUrl ++ "/iam/security-credentials/" ++ iamRole)%string
  end.

Definition timeout (r : Request) : option Z :=
  match r with
  | RoleListing => Some 500%Z
  | Credentials _ => None
  end.

(** What the code reads of a node-fetch response: [resp.ok], the body given
    by [resp.text()], and the object given by [resp.json()], of the type
    [MetaDataResult] that the code gives it ([None] when the body does not
    parse). *)
Record Response := {
  ok : bool;
  text : string;
  json : option MetaDataResult
}.

(** How a [fetch] ends: a response arrives, or the promise is rejected
    (unreachable host, or the [timeout] elapsed). *)
Inductive FetchOutcome :=
| Arrived (resp : Response)
| Failed (e : Error).

(** ** Promises *)

(** A promise is named by the rank of its creation. *)
Abbreviation PromiseId := nat.

(** The callbacks the code passes to [then]. *)
Inductive Callback :=
| then_getClient
    (* iamRole => iamRole && this.getClientFromEc2MetaData(iamRole) *)
| then_getObject (bucket key : string) (cb : Value)
    (* client => client && client.getObject(bucket, key, cb) *)
| then_apply (sKey : string) (args : list Value)
    (* client => client[sKey].apply(client, args) *)
| then_get (sKey : string).
    (* client => client[sKey] *)

(** The two chains hung on a [fetch]. *)
Inductive Chain :=
| role_text       (* .then(resp => resp.ok && resp.text()) *)
| json_toClient.  (* .then(resp => resp.json()).then(toClient) *)

(** A promise is settled, or it is pending and then the table records what
    it is pending on: an HTTP request in flight, or another promise whose
    value its callback will receive. *)
Inductive Promise :=
| Fetching (k : Chain)
| Waiting (src : PromiseId) (cb : Callback)
| Fulfilled (v : Value)
| Rejected (e : Error).

Definition settled (p : Promise) : bool :=
  match p with
  | Fulfilled _ | Rejected _ => true
  | _ => false
  end.

(** ** The manager and the world around it *)

Record MinioClientManager := {
  options : ClientOptions;
  iamRole : option PromiseId;
  _client : option PromiseId;
  expiration : JsNum
}.

(** One call of a storage method on a client object; [relayed_to] is the
    promise that receives what the method returns. *)
Record Invocation := {
  receiver : Client;
  method : string;
  arguments : list Value;
  relayed_to : PromiseId
}.

Record World := {
  manager : MinioClientManager;
  promises : list Promise;
  requests : list Request;         (* HTTP requests sent, oldest first *)
  invocations : list Invocation;   (* storage methods called, oldest first *)
  clients : nat                    (* number of [Client] objects constructed *)
}.

(** What the module takes from its host: the date parser of the runtime and
    the minio client class. *)
Class Host := {
  (* new Date(s).getTime() *)
  Date_parse : string -> JsNum;
  (* typeof client[key] === "function", for a minio client *)
  isAFunction : string -> bool;
  (* what the [n]-th method call made on a client returns or throws *)
  Client_apply : nat -> Client -> string -> list Value -> Outcome;
  (* v[key].apply(v, args) for a value that is no client *)
  Value_apply : Value -> string -> list Value -> Outcome;
  (* v[key] *)
  Value_get : Value -> string -> Outcome
}.

Definition set_manager (m : MinioClientManager) (w : World) : World :=
  {| manager := m; promises := promises w; requests := requests w;
     invocations := invocations w; clients := clients w |}.

Definition set_promises (ps : list Promise) (w : World) : World :=
  {| manager := manager w; promises := ps; requests := requests w;
     invocations := invocations w; clients := clients w |}.

Definition set_iamRole (r : option PromiseId) (w : World) : World :=
  set_manager {| options := options (manager w); iamRole := r;
                 _client := _client (manager w);
                 expiration := expiration (manager w) |} w.

Definition set__client (c : option PromiseId) (w : World) : World :=
  set_manager {| options := options (manager w); iamRole := iamRole (manager w);
                 _client := c;
                 expiration := expiration (manager w) |} w.

Definition set_expiration (e : JsNum) (w : World) : World :=
  set_manager {| options := options (manager w); iamRole := iamRole (manager w);
                 _client := _client (manager w);
                 expiration := e |} w.

(** A new promise, in the given state; its identifier is its rank. *)
Definition new_promise (p : Promise) (w : World) : PromiseId * World :=
  (length (promises w), set_promises (promises w ++ [p]) w).

(** The promise [q] changes state. *)
Definition settle (q : PromiseId) (p : Promise) (w : World) : World :=
  set_promises (<[q := p]> (promises w)) w.

(** [new Client(opts)], for options that the minio constructor accepts:
    the construction of a client.  The constructor checks its options and
    throws for those it refuses; [init_checked] below is [init] with that
    exception. *)
Definition new_Client (opts : ClientOptions) (w : World) : Client * World :=
  ({| instance := clients w; client_options := opts |},
   {| manager := manager w; promises := promises w; requests := requests w;
      invocations := invocations w; clients := S (clients w) |}).

(** [fetch(url r, ...)] followed by the chain [k]; the promise [q] becomes
    the promise of that chain. *)
Definition fetch (r : Request) (k : Chain) (q : PromiseId) (w : World) : World :=
  settle q (Fetching k)
    {| manager := manager w; promises := promises w;
       requests := requests w ++ [r];
       invocations := invocations w; clients := clients w |}.

Definition invoke (i : Invocation) (w : World) : World :=
  {| manager := manager w; promises := promises w; requests := requests w;
     invocations := invocations w ++ [i]; clients := clients w |}.

(** ** The code *)

(** Whether is an amazon end point. *)
Definition isAmazonEndpoint (endpoint : string) : bool :=
  String.eqb endpoint "s3.amazonaws.com" ||
  String.eqb endpoint "s3.cn-north-1.amazonaws.com.cn".

(** The two statements that end both branches of [init]:
    [this.expiration = -1;
     this._client = Promise.resolve(new Client(this.options));] *)
Definition persistent_client (w : World) : World :=
  let w1 := set_expiration (Num (-1)) w in
  let (c, w2) := new_Client (options (manager w1)) w1 in
  let (p, w3) := new_promise (Fulfilled (VClient c)) w2 in
  set__client (Some p) w3.

(** Initialize a minio client if credentials are provided. *)
Definition init (w : World) : World :=
  let endPoint := endPoint (options (manager w)) in
  let accessKey := default "" (accessKey (options (manager w))) in
  let secretKey := default "" (secretKey (options (manager w))) in
  if isAmazonEndpoint (toLowerCase endPoint) then
    (* no credential provided, fallback to iam-role credentials *)
    if (String.length accessKey =? 0) || (String.length secretKey =? 0) then w
    else persistent_client w
  else persistent_client w.

(** [new MinioClientManager(opts)]: the field initialisers, then [init]. *)
Definition new_MinioClientManager (opts : ClientOptions) : World :=
  init {| manager := {| options := opts; iamRole := None; _client := None;
                        expiration := Num 0 |};
          promises := []; requests := []; invocations := []; clients := 0 |}.

Section Code.
Context {host : Host}.

(** The function [toClient] of [getClientFromEc2MetaData], run for the
    promise [q] of the credentials chain. *)
Definition toClient (q : PromiseId) (m : MetaDataResult) (w : World) : World :=
  let w1 := set_expiration (Date_parse (Expiration m)) w in
  let (c, w2) :=
    new_Client {| endPoint := "s3.amazonaws.com";
                  accessKey := Some (AccessKeyId m);
                  secretKey := Some (SecretAccessKey m);
                  useSSL := None; port := None; region := None;
                  sessionToken := Some (Token m) |} w1 in
  settle q (Fulfilled (VClient c)) w2.

(** [getClientFromEc2MetaData(iamRole)], called from the callback of the
    promise [q]: it throws, which rejects [q], or it returns the promise of
    the credentials chain, which [q] then follows. *)
Definition getClientFromEc2MetaData (q : PromiseId) (iamRole : Value) (w : World)
  : World :=
  if negb (truthy iamRole)
  then settle q (Rejected (PlainError "Unable to find IAM role for EC2 instance.")) w
  else fetch (Credentials (String_of iamRole)) json_toClient q w.

(** Retrieve ec2 iam role credentials and create a new minio Client.
    [now] is what [Date.now()] reads. *)
Definition createClient (now : Z) (w : World) : option PromiseId * World :=
  let m := manager w in
  (* return persistent client *)
  if num_lt (expiration m) (Num 0) then (_client m, w)
  (* return client if it exists and credentials are not expired. *)
  else if defined (_client m) && num_gt (expiration m) (Num now)
  then (_client m, w)
  else
    (* promise to iam-role for ec2 instance *)
    let (r, w1) :=
      match iamRole m with
      | Some r => (r, w)
      | None =>
          let (r, w') := new_promise (Fetching role_text) w in
          (r, fetch RoleListing role_text r w')
      end in
    let w2 := set_iamRole (Some r) w1 in
    (* create new client with IAM credentials *)
    let (q, w3) := new_promise (Waiting r then_getClient) w2 in
    (Some q, set__client (Some q) w3).

(** [client()] *)
Definition client (now : Z) (w : World) : option PromiseId * World :=
  let (c, w1) := createClient now w in
  (c, set__client c w1).

(** [p.then(cb)] on what [client()] returned; calling [then] on [undefined]
    throws at the caller and creates nothing. *)
Definition then_ (p : option PromiseId) (cb : Callback) (w : World)
  : option PromiseId * World :=
  match p with
  | Some p =>
      let (q, w1) := new_promise (Waiting p cb) w in (Some q, w1)
  | None => (None, w)
  end.

(** Proxy for minio getObject function. *)
Definition getObject (now : Z) (bucket key : string) (cb : Value) (w : World)
  : option PromiseId * World :=
  let (c, w1) := client now w in
  then_ c (then_getObject bucket key cb) w1.

(** The [get] trap of the proxy for a function key, with the call of the
    function it returns:
    [(...args) => manager.client().then(client => client[sKey].apply(client, args))] *)
Definition proxy_apply (now : Z) (sKey : string) (args : list Value) (w : World)
  : option PromiseId * World :=
  let (c, w1) := client now w in
  then_ c (then_apply sKey args) w1.

(** The [get] trap of the proxy for any other key:
    [manager.client().then(client => client[sKey])] *)
Definition proxy_read (now : Z) (sKey : string) (w : World)
  : option PromiseId * World :=
  let (c, w1) := client now w in
  then_ c (then_get sKey) w1.

(** [getMinioClientProxy(opts)]: the manager, and the client object that is
    the target of the proxy. *)
Definition getMinioClientProxy (opts : ClientOptions) : World :=
  snd (new_Client opts (new_MinioClientManager opts)).

(** *** Running callbacks *)

Definition of_outcome (o : Outcome) : Promise :=
  match o with
  | Return v => Fulfilled v
  | Throw e => Rejected e
  end.

(** [v[sKey].apply(v, args)] or [v.getObject(...)], its result relayed to
    the promise [q].  A call on a client object is a call of a storage
    method and is logged. *)
Definition call_method (q : PromiseId) (v : Value) (sKey : string)
    (args : list Value) (w : World) : World :=
  match v with
  | VClient c =>
      let w1 := invoke {| receiver := c; method := sKey; arguments := args;
                          relayed_to := q |} w in
      settle q (of_outcome (Client_apply (length (invocations w)) c sKey args)) w1
  | _ => settle q (of_outcome (Value_apply v sKey args)) w
  end.

(** The callback [cb] of the promise [q] receives the value [v]. *)
Definition run_callback (q : PromiseId) (cb : Callback) (v : Value) (w : World)
  : World :=
  match cb with
  | then_getClient =>
      if truthy v then getClientFromEc2MetaData q v w
      else settle q (Fulfilled v) w
  | then_getObject bucket key cb =>
      if truthy v then call_method q v "getObject" [VString bucket; VString key; cb] w
      else settle q (Fulfilled v) w
  | then_apply sKey args => call_method q v sKey args w
  | then_get sKey => settle q (of_outcome (Value_get v sKey)) w
  end.

(** The promise [q], if it waits on a promise that is settled, runs its
    callback on a value and passes a rejection on. *)
Definition fire (w : World) (q : PromiseId) : World :=
  match promises w !! q with
  | Some (Waiting src cb) =>
      match promises w !! src with
      | Some (Fulfilled v) => run_callback q cb v w
      | Some (Rejected e) => settle q (Rejected e) w
      | _ => w
      end
  | _ => w
  end.

(** The job queue is emptied.  A promise is created after the promise it
    waits on, so one pass in the order of creation reaches every callback
    that can run; callbacks hung on one promise run in the order in which
    they were hung, as in JavaScript.  (JavaScript runs the callbacks of a
    promise before those of the promises they settle; the two orders differ
    only for callbacks that pass on a rejection or a falsy value, which
    send no request and call no storage method.) *)
Definition drain (w : World) : World :=
  fold_left fire (seq 0 (length (promises w))) w.

(** The HTTP request behind the promise [p] ends with [out]. *)
Definition deliver (p : PromiseId) (out : FetchOutcome) (w : World) : World :=
  match promises w !! p with
  | Some (Fetching role_text) =>
      match out with
      | Failed e => settle p (Rejected e) w
      | Arrived resp =>
          (* resp.ok && resp.text() *)
          if ok resp then settle p (Fulfilled (VString (text resp))) w
          else settle p (Fulfilled (VBool false)) w
      end
  | Some (Fetching json_toClient) =>
      match out with
      | Failed e => settle p (Rejected e) w
      | Arrived resp =>
          match json resp with
          | Some m => toClient p m w
          | None => settle p (Rejected (SyntaxError "invalid json response body")) w
          end
      end
  | _ => w
  end.

(** *** Events *)

Inductive Event :=
| Call_client (now : Z)
| Call_getObject (now : Z) (bucket key : string) (cb : Value)
| Proxy_call (now : Z) (sKey : string) (args : list Value)
| Proxy_get (now : Z) (sKey : string)
| Fetch_done (p : PromiseId) (out : FetchOutcome).

(** What an event does before the job queue runs. *)
Definition handle (w : World) (ev : Event) : World :=
  match ev with
  | Call_client now => snd (client now w)
  | Call_getObject now bucket key cb => snd (getObject now bucket key cb w)
  | Proxy_call now sKey args =>
      if isAFunction sKey then snd (proxy_apply now sKey args w)
      else snd (proxy_read now sKey w)   (* then calling a promise throws *)
  | Proxy_get now sKey =>
      if isAFunction sKey then w         (* the function is not called *)
      else snd (proxy_read now sKey w)
  | Fetch_done p out => deliver p out w
  end.

Definition step (w : World) (ev : Event) : World := drain (handle w ev).

Definition run (w : World) (evs : list Event) : World := fold_left step evs w.

End Code.

(** ** The exception of the constructor *)

(** The constructor of the minio client is the library's.  It checks the
    options it is given and throws for those it refuses; it also writes
    its defaults into the object it is given, which [init] shares with the
    manager.  [Client_constructor opts] is the error thrown, or the options
    as the constructor leaves them. *)
Class Minio := {
  Client_constructor : ClientOptions -> Error + ClientOptions
}.

Definition set_options (opts : ClientOptions) (w : World) : World :=
  set_manager {| options := opts; iamRole := iamRole (manager w);
                 _client := _client (manager w);
                 expiration := expiration (manager w) |} w.

Section Checked.
Context {minio : Minio}.

(** The two statements that end both branches of [init], the second of
    which throws when the constructor does:
    [this.expiration = -1;
     this._client = Promise.resolve(new Client(this.options));] *)
Definition persistent_client_checked (w : World) : Error + World :=
  let w1 := set_expiration (Num (-1)) w in
  match Client_constructor (options (manager w1)) with
  | inl e => inl e
  | inr opts =>
      let w2 := set_options opts w1 in
      let (c, w3) := new_Client opts w2 in
      let (p, w4) := new_promise (Fulfilled (VClient c)) w3 in
      inr (set__client (Some p) w4)
  end.

(** Initialize a minio client if credentials are provided. *)
Definition init_checked (w : World) : Error + World :=
  let endPoint := endPoint (options (manager w)) in
  let accessKey := default "" (accessKey (options (manager w))) in
  let secretKey := default "" (secretKey (options (manager w))) in
  if isAmazonEndpoint (toLowerCase endPoint) then
    (* no credential provided, fallback to iam-role credentials *)
    if (String.length accessKey =? 0) || (String.length secretKey =? 0)
    then inr w
    else persistent_client_checked w
  else persistent_client_checked w.

(** [new MinioClientManager(opts)]: the field initialisers, then [init];
    an exception of [init] is an exception of [new]. *)
Definition new_MinioClientManager_checked (opts : ClientOptions)
  : Error + World :=
  init_checked
    {| manager := {| options := opts; iamRole := None; _client := None;
                     expiration := Num 0 |};
       promises := []; requests := []; invocations := []; clients := 0 |}.

End Checked.

(** ** The configuration *)

(** The environment variables that [confFromEnv] reads; an unset variable
    is [None]. *)
Record IMinioEnv := {
  MINIO_END_POINT : option string;
  MINIO_PORT : option string;
  MINIO_ACCESS_KEY : option string;
  MINIO_SECRET_KEY : option string;
  MINIO_SECURE : option string;
  MINIO_REGION : option string
}.

(** A JavaScript string is held here as the bytes of its UTF-8 encoding,
    which is how the environment hands it over.  The characters of the
    ASCII range are one byte each; every byte of another character is 128
    or more. *)

(** White space that [parseInt] skips, on the ASCII range: tab, line feed,
    vertical tab, form feed, carriage return and space. *)
Definition is_space (c : ascii) : bool :=
  let n := nat_of_ascii c in
  ((9 <=? n) && (n <=? 13)) || (n =? 32).

(** The first byte of a white space character outside the ASCII range. *)
Definition space_lead (c : ascii) : bool :=
  let n := nat_of_ascii c in
  (n =? 194) || (n =? 225) || (n =? 226) || (n =? 227) || (n =? 239).

(** The no-break space U+00A0, which is two bytes. *)
Definition space2 (c1 c2 : ascii) : bool :=
  (nat_of_ascii c1 =? 194) && (nat_of_ascii c2 =? 160).

(** The white space characters of three bytes: U+1680, U+2000 to U+200A,
    the line and paragraph separators U+2028 and U+2029, U+202F, U+205F,
    U+3000 and the byte order mark U+FEFF. *)
Definition space3 (c1 c2 c3 : ascii) : bool :=
  let a := nat_of_ascii c1 in
  let b := nat_of_ascii c2 in
  let c := nat_of_ascii c3 in
  ((a =? 225) && (b =? 154) && (c =? 128)) ||
  ((a =? 226) && (b =? 128) &&
   (((128 <=? c) && (c <=? 138)) || (c =? 168) || (c =? 169) || (c =? 175))) ||
  ((a =? 226) && (b =? 129) && (c =? 159)) ||
  ((a =? 227) && (b =? 128) && (c =? 128)) ||
  ((a =? 239) && (b =? 187) && (c =? 191)).

(** The string without its leading white space: the characters that
    JavaScript calls white space or line terminators. *)
Fixpoint skip_space (s : string) : string :=
  match s with
  | String c1 s1 =>
      if is_space c1 then skip_space s1
      else if space_lead c1 then
        match s1 with
        | String c2 s2 =>
            if space2 c1 c2 then skip_space s2
            else
              match s2 with
              | String c3 s3 => if space3 c1 c2 c3 then skip_space s3 else s
              | EmptyString => s
              end
        | EmptyString => s
        end
      else s
  | EmptyString => s
  end.

Definition digit (c : ascii) : option Z :=
  let n := nat_of_ascii c in
  if (48 <=? n) && (n <=? 57) then Some (Z.of_nat (n - 48)) else None.

(** The value of the longest prefix of [s] made of digits, [acc] being the
    value of the digits read so far ([None]: no digit yet). *)
Fixpoint digits (acc : option Z) (s : string) : option Z :=
  match s with
  | String c s' =>
      match digit c with
      | Some d => digits (Some (10 * default 0%Z acc + d)%Z) s'
      | None => acc
      end
  | EmptyString => acc
  end.

(** [parseInt(s, 10)]: leading white space is skipped, one sign is read,
    then the digits up to the first character that is no digit; [NaN] when
    there is no digit.  The value is exact up to 2^53, as JavaScript's
    is; above, JavaScript gives the double nearest to the numeral, which
    this definition does not compute: the properties of the port are
    stated up to 2^53. *)
Definition parseInt (s : string) : JsNum :=
  let s1 := skip_space s in
  let (negative, s2) :=
    match s1 with
    | String "-" r => (true, r)
    | String "+" r => (false, r)
    | _ => (false, s1)
    end in
  match digits None s2 with
  | Some z => Num (if negative then - z else z)
  | None => NaN
  end.

(** [a.indexOf(x)] *)
Fixpoint indexOf (a : list string) (x : string) : Z :=
  match a with
  | [] => (-1)%Z
  | y :: a' =>
      if String.eqb y x then 0%Z
      else let i := indexOf a' x in
           if (i <? 0)%Z then (-1)%Z else (i + 1)%Z
  end.

(** The function [asBool] of [confFromEnv]:
    [!!value ? ["true", "1"].indexOf(value.toLowerCase()) >= 0 : false] *)
Definition asBool (value : option string) : bool :=
  match value with
  | Some v =>
      if truthy (VString v)
      then (0 <=? indexOf ["true"; "1"] (toLowerCase v))%Z
      else false
  | None => false
  end.

(** The object that [confFromEnv] returns: a [ClientOptions] of which
    every field but [region] is set (the port to any number, [NaN]
    included). *)
Record Configuration := {
  conf_endPoint : string;
  conf_port : JsNum;
  conf_useSSL : bool;
  conf_accessKey : string;
  conf_secretKey : string;
  conf_region : option string
}.

(** Create a minio ClientOptions from the environment variables.  The
    defaults of the destructuring apply to the variables that are unset,
    not to those set to the empty string. *)
Definition confFromEnv (env : IMinioEnv) : Configuration :=
  let endPoint := default "minio-service.kubeflow" (MINIO_END_POINT env) in
  let port := default "9000" (MINIO_PORT env) in
  let accessKey := default "minio" (MINIO_ACCESS_KEY env) in
  let secretKey := default "minio123" (MINIO_SECRET_KEY env) in
  let useSSL := default "false" (MINIO_SECURE env) in
  let region := MINIO_REGION env in
  {| conf_endPoint := endPoint;
     conf_port := parseInt port;
     conf_useSSL := asBool (Some useSSL);
     conf_accessKey := accessKey;
     conf_secretKey := secretKey;
     conf_region := region |}.

(** The same object, as the [ClientOptions] that the manager is given. *)
Definition as_ClientOptions (c : Configuration) : ClientOptions :=
  {| endPoint := conf_endPoint c;
     accessKey := Some (conf_accessKey c);
     secretKey := Some (conf_secretKey c);
     useSSL := Some (conf_useSSL c);
     port := Some (conf_port c);
     region := conf_region c;
     sessionToken := None |}.

(** The decimal numeral of a natural number, as JavaScript prints it. *)
Definition numeral (n : nat) : string :=
  NilZero.string_of_uint (Nat.to_uint n).

Definition starts_with_digit (s : string) : bool :=
  match s with
  | String c _ => match digit c with Some _ => true | None => false end
  | EmptyString => false
  end.


(** * The vocabulary of the properties *)

Section Vocabulary.
Context {host : Host}.

(** The promise [q] waits on a settled promise. *)
Definition ready (w : World) (q : PromiseId) : bool :=
  match promises w !! q with
  | Some (Waiting src _) =>
      match promises w !! src with
      | Some s => settled s
      | None => false
      end
  | _ => false
  end.

(** What the callback [cb] of the promise [q] makes of the settled state [s]
    of the promise it waits on: the new state of [q], the requests sent and
    the storage methods called ([n] calls were made before). *)
Definition reaction (q : PromiseId) (n : nat) (cb : Callback) (s : Promise)
  : Promise * list Request * list Invocation :=
  match s with
  | Rejected e => (Rejected e, [], [])
  | Fulfilled v =>
      match cb with
      | then_getClient =>
          if truthy v then (Fetching json_toClient, [Credentials (String_of v)], [])
          else (Fulfilled v, [], [])
      | then_getObject bucket key cb =>
          match v with
          | VClient c =>
              let args := [VString bucket; VString key; cb] in
              (of_outcome (Client_apply n c "getObject" args), [],
               [{| receiver := c; method := "getObject"; arguments := args;
                   relayed_to := q |}])
          | _ =>
              if truthy v
              then (of_outcome (Value_apply v "getObject"
                                  [VString bucket; VString key; cb]), [], [])
              else (Fulfilled v, [], [])
          end
      | then_apply sKey args =>
          match v with
          | VClient c =>
              (of_outcome (Client_apply n c sKey args), [],
               [{| receiver := c; method := sKey; arguments := args;
                   relayed_to := q |}])
          | _ => (of_outcome (Value_apply v sKey args), [], [])
          end
      | then_get sKey => (of_outcome (Value_get v sKey), [], [])
      end
  | _ => (Waiting 0 cb, [], [])   (* [s] is not settled: no callback runs *)
  end.

(** The world after the callback of the promise [q] has run. *)
Definition react (w : World) (q : PromiseId)
    (r : Promise * list Request * list Invocation) : World :=
  {| manager := manager w;
     promises := <[q := r.1.1]> (promises w);
     requests := requests w ++ r.1.2;
     invocations := invocations w ++ r.2;
     clients := clients w |}.

(** No callback is waiting to run. *)
Definition quiescent (w : World) : Prop := forall q, ready w q = false.

(** Every promise was created after the one it waits on. *)
Definition ordered (w : World) : Prop :=
  forall q src cb, promises w !! q = Some (Waiting src cb) -> src < q.

(** The test that makes [createClient] return the promise it holds. *)
Definition cached (now : Z) (w : World) : bool :=
  num_lt (expiration (manager w)) (Num 0) ||
  (defined (_client (manager w)) && num_gt (expiration (manager w)) (Num now)).

(** What holds of the promise table whatever the events were. *)
Record sound (w : World) : Prop := {
  sound_iamRole :
    forall r, iamRole (manager w) = Some r -> r < length (promises w);
  sound_client :
    forall p, _client (manager w) = Some p -> p < length (promises w);
  sound_ordered : ordered w;
  sound_relayed :
    forall i, In i (invocations w) -> relayed_to i < length (promises w);
  sound_getClient :
    forall q src, promises w !! q = Some (Waiting src then_getClient) ->
                  iamRole (manager w) = Some src
}.

(** The worlds the code can be in: a manager was constructed, alone or by
    [getMinioClientProxy], and events followed. *)
Inductive reachable : World -> Prop :=
| reach_manager opts : reachable (new_MinioClientManager opts)
| reach_proxy opts : reachable (getMinioClientProxy opts)
| reach_step w ev : reachable w -> reachable (step w ev).

(** What holds for ever once [init] has constructed the persistent client:
    the manager keeps its fields, the first promise holds that client,
    every promise is settled and no request was sent. *)
Record persistent_inv (opts : ClientOptions) (w : World) : Prop := {
  pi_manager :
    manager w = {| options := opts; iamRole := None; _client := Some 0;
                   expiration := Num (-1) |};
  pi_client :
    promises w !! 0 =
      Some (Fulfilled (VClient {| instance := 0; client_options := opts |}));
  pi_settled : Forall (fun p => settled p = true) (promises w);
  pi_requests : requests w = []
}.

(** The promise has a callback that has not run. *)
Definition waiting (p : Promise) : bool :=
  match p with
  | Waiting _ _ => true
  | _ => false
  end.

(** The storage methods called on behalf of the promise [q]. *)
Definition relayed (q : PromiseId) (w : World) : list Invocation :=
  List.filter (fun i => relayed_to i =? q) (invocations w).

(** How the state of one promise can change in a step: not at all, or from
    pending to something that is not waiting. *)
Definition progress (p p' : Promise) : Prop :=
  p' = p \/ (settled p = false /\ waiting p' = false).

(** Before the job queue runs, an event only adds promises, or settles the
    promise of the chain of a request. *)
Definition evolves (ps ps' : list Promise) : Prop :=
  forall q p, ps !! q = Some p ->
    exists p', ps' !! q = Some p' /\
      (p' = p \/ (exists k, p = Fetching k) /\ settled p' = true).

(** [client()] always returns a promise: the field [_client] is empty only
    in the world [init] leaves in Dynamic mode, where the first call
    refreshes. *)
Definition fresh_or_defined (w : World) : Prop :=
  _client (manager w) = None ->
  promises w = [] /\ expiration (manager w) = Num 0.

(** An event that is the end of a request, not a call. *)
Definition is_response (ev : Event) : bool :=
  match ev with
  | Fetch_done _ _ => true
  | _ => false
  end.

(** The requests sent by one callback hung on a promise settled as [s]. *)
Definition creds (s : Promise) : list Request :=
  match s with
  | Fulfilled v => if truthy v then [Credentials (String_of v)] else []
  | _ => []
  end.

(** What [then_getClient] makes of a settled promise. *)
Definition after_role (s : Promise) : Promise :=
  match s with
  | Fulfilled v => if truthy v then Fetching json_toClient else Fulfilled v
  | _ => s
  end.

(** The role listing gave a role. *)
Definition role_ok (w : World) : Prop :=
  exists r v, iamRole (manager w) = Some r /\
              promises w !! r = Some (Fulfilled v) /\ truthy v = true.

(** The states of a promise made by [createClient]. *)
Definition client_promise (w : World) (p : PromiseId) : Prop :=
  match promises w !! p with
  | Some (Waiting _ cb) => cb = then_getClient
  | Some (Fetching k) => k = json_toClient /\ role_ok w
  | Some (Fulfilled v) => truthy v = true -> role_ok w
  | Some (Rejected _) => True
  | None => False
  end.

(** What holds for ever of the promise the manager holds, in the worlds
    that start in Dynamic mode. *)
Definition dynamic_inv (w : World) : Prop :=
  forall p, _client (manager w) = Some p -> client_promise w p.

(** What the role promise becomes when the role listing ends with [out]. *)
Definition role_outcome (out : FetchOutcome) : Promise :=
  match out with
  | Failed e => Rejected e
  | Arrived resp => Fulfilled (if ok resp then VString (text resp) else VBool false)
  end.

(** The world after [N] calls of [client()] on a manager in Dynamic mode,
    the role listing still in flight. *)
Definition calls_world (opts : ClientOptions) (N : nat) : World :=
  {| manager := {| options := opts; iamRole := Some 0; _client := Some N;
                   expiration := Num 0 |};
     promises := Fetching role_text :: replicate N (Waiting 0 then_getClient);
     requests := [RoleListing];
     invocations := [];
     clients := 0 |}.

(** The role listing failed, timed out, or answered without success. *)
Definition listing_failed (out : FetchOutcome) : bool :=
  match out with
  | Failed _ => true
  | Arrived resp => negb (ok resp)
  end.

End Vocabulary.

(** The code stores no mode: [createClient] takes a negative [expiration]
    as the mark of the persistent client. *)
Inductive CredentialMode := Persistent | Dynamic.

Definition mode (w : World) : CredentialMode :=
  if num_lt (expiration (manager w)) (Num 0) then Persistent else Dynamic.

(** A key is empty when it is the empty string, or missing. *)
Definition empty_key (k : option string) : bool :=
  match k with
  | Some s => String.eqb s ""
  | None => true
  end.

Definition upper_ascii (c : ascii) : ascii :=
  let n := nat_of_ascii c in
  if (97 <=? n) && (n <=? 122) then ascii_of_nat (n - 32) else c.

(** [e] spells the host name [t] up to the case of its letters. *)
Fixpoint spelling (t e : string) : Prop :=
  match t, e with
  | EmptyString, EmptyString => True
  | String d t', String c e' => (c = d \/ c = upper_ascii d) /\ spelling t' e'
  | _, _ => False
  end.

(** The log of requests, read off the role promise: empty before the
    first refresh, then the role listing followed by credentials requests
    for the role that the listing gave, if it gave one. *)
Definition requests_inv (w : World) : Prop :=
  match iamRole (manager w) with
  | None => requests w = []
  | Some r =>
      exists s k,
        promises w !! r = Some s /\ waiting s = false /\
        requests w = RoleListing :: concat (replicate k (creds s))
  end.

(** The world [w] with one more promise, in the state [s], and the calls
    [calls] of storage methods added to the log. *)
Definition answered (w : World) (s : Promise) (calls : list Invocation)
  : World :=
  {| manager := manager w;
     promises := promises w ++ [s];
     requests := requests w;
     invocations := invocations w ++ calls;
     clients := clients w |}.

(** The world [w1] differs from [w] only by promises that were pending
    in [w] and are rejected with [e] in [w1]. *)
Definition only_rejects (e : Error) (w w1 : World) : Prop :=
  manager w1 = manager w /\ requests w1 = requests w /\
  invocations w1 = invocations w /\ clients w1 = clients w /\
  forall q,
    promises w1 !! q = promises w !! q \/
    (promises w1 !! q = Some (Rejected e) /\
     exists s, promises w !! q = Some s /\ settled s = false).

(** The world after a forwarder with the callback [cb] was called on [w]
    and made [createClient] request credentials for [role], [r] being the
    role promise: the promise of the credentials chain, and the promise of
    the forwarder hung on it. *)
Definition refreshing (w : World) (r : PromiseId) (role : string)
    (cb : Callback) : World :=
  {| manager := {| options := options (manager w); iamRole := Some r;
                   _client := Some (length (promises w));
                   expiration := expiration (manager w) |};
     promises := promises w ++ [Fetching json_toClient;
                                Waiting (length (promises w)) cb];
     requests := requests w ++ [Credentials role];
     invocations := invocations w;
     clients := clients w |}.

(** A client that [toClient] constructed, behind a proxy: it was
    constructed after the client that is the target of the proxy, which is
    the first one, and for the endpoint that [toClient] gives. *)
Definition from_credentials (c : Client) : Prop :=
  0 < instance c /\ endPoint (client_options c) = "s3.amazonaws.com".

(** The states of a promise that [createClient] made, in Dynamic mode,
    and those of the role promise. *)
Definition client_kind (s : Promise) : Prop :=
  match s with
  | Waiting _ cb => cb = then_getClient
  | Fetching k => k = json_toClient
  | Fulfilled (VClient c) => from_credentials c
  | _ => True
  end.

Definition role_kind (s : Promise) : Prop :=
  match s with
  | Fetching k => k = role_text
  | Waiting _ _ => False
  | Fulfilled (VClient _) => False
  | _ => True
  end.

(** What holds in Dynamic mode of the promises that the manager and the
    forwarders refer to, and of the clients that were called. *)
Record credentials_inv (w : World) : Prop := {
  ci_role :
    forall r, iamRole (manager w) = Some r ->
              exists s, promises w !! r = Some s /\ role_kind s;
  ci_source :
    forall q src cb, promises w !! q = Some (Waiting src cb) ->
                     cb <> then_getClient ->
                     exists s, promises w !! src = Some s /\ client_kind s;
  ci_client :
    forall p, _client (manager w) = Some p ->
              exists s, promises w !! p = Some s /\ client_kind s;
  ci_receiver :
    Forall (fun i => from_credentials (receiver i)) (invocations w);
  ci_clients : 0 < clients w
}.

(** An event that is the answer to a request with a body that parses as
    JSON: the only events at which [toClient] can run and set
    [expiration]. *)
Definition brings_credentials (ev : Event) : bool :=
  match ev with
  | Fetch_done _ (Arrived resp) => defined (json resp)
  | _ => false
  end.

(** ** A host and values to run the code on *)

Definition example_host : Host := {|
  Date_parse := fun s =>
    if String.eqb s "2099-01-01T00:00:00Z" then Num 4070908800000 else NaN;
  isAFunction := fun sKey =>
    String.eqb sKey "getObject" || String.eqb sKey "listObjects";
  Client_apply := fun n _ _ _ => Return (VOther n);
  Value_apply := fun _ _ _ =>
    Throw (TypeError "Cannot read property 'apply' of undefined");
  Value_get := fun v _ =>
    match v with
    | VUndefined => Throw (TypeError "Cannot read property of undefined")
    | _ => Return VUndefined
    end
|}.

(** An Amazon endpoint without keys, and the default configuration. *)
Definition iam_options : ClientOptions :=
  {| endPoint := "S3.amazonaws.com"; accessKey := Some ""; secretKey := Some "";
     useSSL := None; port := None; region := None; sessionToken := None |}.

Definition minio_options : ClientOptions :=
  {| endPoint := "minio-service.kubeflow"; accessKey := Some "minio";
     secretKey := Some "minio123"; useSSL := Some false;
     port := Some (Num 9000);
     region := None; sessionToken := None |}.

Definition worker_role : FetchOutcome :=
  Arrived {| ok := true; text := "worker-role"; json := None |}.

Definition not_found : FetchOutcome :=
  Arrived {| ok := false; text := "Not Found"; json := None |}.

Definition timed_out : FetchOutcome :=
  Failed (FetchError "network timeout").

Definition worker_credentials : MetaDataResult :=
  {| AccessKeyId := "AK1"; SecretAccessKey := "SK1";
     Expiration := "2099-01-01T00:00:00Z"; Token := "TK1" |}.

Definition credentials_body : FetchOutcome :=
  Arrived {| ok := true; text := "{...}"; json := Some worker_credentials |}.

(** The client that [toClient] constructs from [worker_credentials], when
    it is the second client constructed. *)
Definition worker_client : Client :=
  {| instance := 1;
     client_options :=
       {| endPoint := "s3.amazonaws.com"; accessKey := Some "AK1";
          secretKey := Some "SK1"; useSSL := None; port := None;
          region := None; sessionToken := Some "TK1" |} |}.

(** A constructor that does what minio's does with the end point, the
    port and the defaults: [useSSL] defaults to [true] and a missing port
    (or one that is [0] or [NaN]) to [0]; the empty end point and the
    ports outside 1..65535 are refused. *)
Definition example_minio : Minio := {|
  Client_constructor := fun opts =>
    let useSSL := Some (default true (useSSL opts)) in
    let port :=
      match port opts with
      | Some (Num p) => p
      | _ => 0%Z
      end in
    if String.eqb (endPoint opts) "" then
      inl (PlainError "Invalid endPoint")
    else if (port <? 0)%Z || (65535 <? port)%Z then
      inl (PlainError "Invalid port")
    else
      inr {| endPoint := endPoint opts; accessKey := accessKey opts;
             secretKey := secretKey opts; useSSL := useSSL;
             port := Some (Num port); region := region opts;
             sessionToken := sessionToken opts |}
|}.

(** The default configuration, with a port out of range. *)
Definition port_70000 : ClientOptions :=
  {| endPoint := "minio-service.kubeflow"; accessKey := Some "minio";
     secretKey := Some "minio123"; useSSL := Some false;
     port := Some (Num 70000);
     region := None; sessionToken := None |}.




(** Credentials whose expiration time [Date.parse] does not understand. *)
Definition undated_credentials : MetaDataResult :=
  {| AccessKeyId := "AK2"; SecretAccessKey := "SK2"; Expiration := "soon";
     Token := "TK2" |}.

Definition undated_body : Response :=
  {| ok := true; text := "{...}"; json := Some undated_credentials |}.

(** A proxy whose credentials have arrived: they expire in 2099. *)
Definition with_credentials : list Event :=
  [Call_client 5%Z; Fetch_done 0 worker_role; Fetch_done 1 credentials_body].

(** Two calls before the role is known make two credentials requests; the
    first one gives credentials, the second one fails. *)
Definition second_request_failed : list Event :=
  [Call_client 5%Z; Call_client 5%Z; Fetch_done 0 worker_role;
   Fetch_done 1 credentials_body; Fetch_done 2 timed_out].

(** * Properties *)

(** ** The code at work *)

(** The first call on an Amazon endpoint without keys: the role listing is
    requested, and the promise of the client waits on it. *)
Example first_call_requests_the_role :
  step (host := example_host) (new_MinioClientManager iam_options)
    (Call_client 5%Z) =
  {| manager := {| options := iam_options; iamRole := Some 0;
                   _client := Some 1; expiration := Num 0 |};
     promises := [Fetching role_text; Waiting 0 then_getClient];
     requests := [RoleListing];
     invocations := [];
     clients := 0 |}.
Proof. reflexivity. Qed.

Example role_listing_url :
  url RoleListing =
    "http://169.254.169.254/latest/meta-data/iam/security-credentials/" /\
  url (Credentials "worker-role") =
    "http://169.254.169.254/latest/meta-data/iam/security-credentials/worker-role" /\
  timeout RoleListing = Some 500%Z.
Proof. repeat split. Qed.

(** A [getObject] through the proxy, from the first call to the call of the
    storage method on the client made from the credentials.  The proxy's
    target is the client of rank 0, the client of the credentials has
    rank 1. *)
Example proxy_getObject_end_to_end :
  let w := run (host := example_host) (getMinioClientProxy iam_options)
             [Proxy_call 5%Z "getObject" [VString "bucket"; VString "key"];
              Fetch_done 0 worker_role; Fetch_done 1 credentials_body] in
  requests w = [RoleListing; Credentials "worker-role"] /\
  expiration (manager w) = Num 4070908800000 /\
  map method (invocations w) = ["getObject"] /\
  map (fun i => instance (receiver i)) (invocations w) = [1] /\
  promises w !! 2 = Some (Fulfilled (VOther 0)).
Proof. vm_compute. repeat split. Qed.

(** A property that is no function is read from the resolved client. *)
Example proxy_reads_a_property :
  let w := run (host := example_host) (getMinioClientProxy minio_options)
             [Proxy_get 5%Z "region"] in
  promises w = [Fulfilled (VClient {| instance := 0;
                                      client_options := minio_options |});
                Fulfilled VUndefined] /\
  invocations w = [].
Proof. vm_compute. repeat split. Qed.

(** ** How one callback changes the world *)

Section Facts.
Context {host : Host}.

Lemma fire_not_ready (w : World) (q : PromiseId) :
  ready w q = false -> fire w q = w.
Proof.
  unfold ready, fire.
  destruct (promises w !! q) as [[k|src cb|v|e]|]; try reflexivity.
  destruct (promises w !! src) as [[k|src' cb'|v|e]|]; simpl; congruence.
Qed.

Lemma fire_ready (w : World) (q src : PromiseId) (cb : Callback) (s : Promise) :
  promises w !! q = Some (Waiting src cb) ->
  promises w !! src = Some s ->
  settled s = true ->
  fire w q = react w q (reaction q (length (invocations w)) cb s).
Proof.
  intros Hq Hs Hset. unfold fire. rewrite Hq, Hs.
  destruct s as [k|src' cb'|v|e]; simpl in Hset; try discriminate.
  - destruct cb as [|bucket key cb|sKey args|sKey]; simpl.
    + unfold getClientFromEc2MetaData.
      destruct (truthy v) eqn:Hv; simpl.
      * unfold react, fetch, settle, set_promises; simpl.
        now rewrite app_nil_r.
      * unfold react, settle, set_promises; simpl.
        now rewrite !app_nil_r.
    + destruct v as [|b|s|c|n]; simpl;
        try destruct b; try destruct (negb (String.eqb s ""));
        unfold call_method, react, settle, set_promises, invoke; simpl;
        now rewrite ?app_nil_r.
    + destruct v as [|b|s|c|n];
        unfold call_method, react, settle, set_promises, invoke; simpl;
        now rewrite ?app_nil_r.
    + unfold react, settle, set_promises; simpl. now rewrite !app_nil_r.
  - unfold react, settle, set_promises; simpl. now rewrite !app_nil_r.
Qed.

Lemma fire_cases (w : World) (q : PromiseId) :
  fire w q = w \/
  exists src cb s,
    promises w !! q = Some (Waiting src cb) /\
    promises w !! src = Some s /\ settled s = true /\
    fire w q = react w q (reaction q (length (invocations w)) cb s).
Proof.
  destruct (ready w q) eqn:Hr.
  - right. unfold ready in Hr.
    destruct (promises w !! q) as [[k|src cb|v|e]|] eqn:Hq; try discriminate.
    destruct (promises w !! src) as [s|] eqn:Hs; try discriminate.
    exists src, cb, s. repeat split; trivial.
    now apply (fire_ready w q src cb s).
  - left. now apply fire_not_ready.
Qed.

Lemma Callback_eq_getClient (cb : Callback) :
  cb = then_getClient \/ cb <> then_getClient.
Proof. destruct cb; [now left|now right..]. Qed.

Lemma reaction_not_waiting q n cb s :
  settled s = true ->
  forall src' cb', (reaction q n cb s).1.1 <> Waiting src' cb'.
Proof.
  intros Hs src' cb'.
  destruct s as [k|src0 cb0|v|e]; simpl in Hs; try discriminate; simpl.
  destruct cb as [|bucket key cb|sKey args|sKey]; simpl.
  - destruct (truthy v); simpl; discriminate.
  - destruct v as [|b|s|c|n0]; simpl;
      try destruct b; try destruct (negb (String.eqb s ""));
      simpl; try discriminate;
      match goal with |- of_outcome ?o <> _ => destruct o; discriminate end.
  - destruct v as [|b|s|c|n0]; simpl;
      match goal with |- of_outcome ?o <> _ => destruct o; discriminate end.
  - destruct (Value_get v sKey); discriminate.
Qed.

Lemma fire_manager w q : manager (fire w q) = manager w.
Proof.
  destruct (fire_cases w q) as [->|(src & cb & s & _ & _ & _ & ->)]; reflexivity.
Qed.


Lemma fire_length w q : length (promises (fire w q)) = length (promises w).
Proof.
  destruct (fire_cases w q) as [->|(src & cb & s & _ & _ & _ & ->)];
    [reflexivity|]. simpl. apply length_insert.
Qed.

Lemma fire_other w q j :
  j <> q -> promises (fire w q) !! j = promises w !! j.
Proof.
  intros Hne.
  destruct (fire_cases w q) as [->|(src & cb & s & _ & _ & _ & ->)];
    [reflexivity|]. simpl. now apply list_lookup_insert_ne.
Qed.

(** A settled promise stays as it is. *)
Lemma fire_settled w q j s :
  promises w !! j = Some s -> settled s = true ->
  promises (fire w q) !! j = Some s.
Proof.
  intros Hj Hs. destruct (Nat.eq_dec j q) as [->|Hne].
  - rewrite fire_not_ready; [trivial|].
    unfold ready. rewrite Hj. destruct s; simpl in Hs; congruence.
  - now rewrite fire_other.
Qed.

(** No callback makes a promise wait. *)
Lemma fire_waiting w q j src cb :
  promises (fire w q) !! j = Some (Waiting src cb) ->
  promises w !! j = Some (Waiting src cb).
Proof.
  destruct (Nat.eq_dec j q) as [->|Hne]; [|now rewrite fire_other].
  destruct (fire_cases w q) as [->|(src0 & cb0 & s & Hq & _ & Hs & ->)];
    [trivial|]. simpl.
  rewrite list_lookup_insert_eq by (eapply lookup_lt_Some; eauto).
  intros [= Heq]. now apply reaction_not_waiting in Heq.
Qed.

(** ** Emptying the job queue *)

Lemma fold_fire_manager l w : manager (fold_left fire l w) = manager w.
Proof.
  revert w; induction l as [|q l IH]; intros w; simpl; [reflexivity|].
  now rewrite IH, fire_manager.
Qed.


Lemma fold_fire_length l w :
  length (promises (fold_left fire l w)) = length (promises w).
Proof.
  revert w; induction l as [|q l IH]; intros w; simpl; [reflexivity|].
  now rewrite IH, fire_length.
Qed.

Lemma fold_fire_other l w j :
  ~ In j l -> promises (fold_left fire l w) !! j = promises w !! j.
Proof.
  revert w; induction l as [|q l IH]; intros w Hj; simpl; [reflexivity|].
  rewrite IH by (intros Hin; apply Hj; now right).
  apply fire_other. intros ->. apply Hj. now left.
Qed.

Lemma fold_fire_settled l w j s :
  promises w !! j = Some s -> settled s = true ->
  promises (fold_left fire l w) !! j = Some s.
Proof.
  revert w; induction l as [|q l IH]; intros w Hj Hs; simpl; [trivial|].
  apply IH; trivial. now apply fire_settled.
Qed.

Lemma fold_fire_waiting l w j src cb :
  promises (fold_left fire l w) !! j = Some (Waiting src cb) ->
  promises w !! j = Some (Waiting src cb).
Proof.
  revert w; induction l as [|q l IH]; intros w Hj; simpl in *; [trivial|].
  apply IH in Hj. now apply fire_waiting in Hj.
Qed.

Lemma fold_fire_quiescent l w : quiescent w -> fold_left fire l w = w.
Proof.
  intros Hq. induction l as [|q l IH]; simpl; [reflexivity|].
  now rewrite fire_not_ready.
Qed.

Lemma drain_quiescent_id w : quiescent w -> drain w = w.
Proof. apply fold_fire_quiescent. Qed.

Lemma fire_ordered w q : ordered w -> ordered (fire w q).
Proof. intros Ho j src cb Hj. apply fire_waiting in Hj. eauto. Qed.

Lemma fold_fire_ordered l w : ordered w -> ordered (fold_left fire l w).
Proof. intros Ho j src cb Hj. apply fold_fire_waiting in Hj. eauto. Qed.

Lemma ready_after_fire w q : ready (fire w q) q = false.
Proof.
  destruct (fire_cases w q) as [Heq|(src & cb & s & Hq & Hsrc & Hs & Heq)].
  - rewrite Heq. destruct (ready w q) eqn:Hr; [|reflexivity].
    (* a ready promise is changed by [fire] *)
    exfalso. unfold ready in Hr.
    destruct (promises w !! q) as [[k|src cb|v|e]|] eqn:Hq; try discriminate.
    destruct (promises w !! src) as [s|] eqn:Hsrc; try discriminate.
    pose proof (fire_ready w q src cb s Hq Hsrc Hr) as Hf.
    rewrite Heq in Hf.
    assert (Hl : promises w !! q = Some (reaction q (length (invocations w)) cb s).1.1).
    { rewrite Hf at 1. simpl. apply list_lookup_insert_eq.
      eapply lookup_lt_Some; eauto. }
    rewrite Hq in Hl. injection Hl as Hl. symmetry in Hl.
    now apply reaction_not_waiting in Hl.
  - rewrite Heq. unfold ready; simpl.
    rewrite list_lookup_insert_eq by (eapply lookup_lt_Some; eauto).
    pose proof (reaction_not_waiting q (length (invocations w)) cb s Hs) as Hn.
    destruct (reaction q (length (invocations w)) cb s).1.1; trivial.
    now destruct (Hn src0 cb0).
Qed.

Lemma ready_fire_before w k q :
  ordered w -> q < k -> ready (fire w k) q = ready w q.
Proof.
  intros Ho Hlt. unfold ready.
  rewrite fire_other by lia.
  destruct (promises w !! q) as [[c|src cb|v|e]|] eqn:Hq; trivial.
  apply Ho in Hq. now rewrite fire_other by lia.
Qed.

Lemma fold_fire_seq_quiescent w k :
  ordered w ->
  forall q, q < k -> ready (fold_left fire (seq 0 k) w) q = false.
Proof.
  intros Ho. induction k as [|k IH]; intros q Hq; [lia|].
  rewrite seq_S, fold_left_app; simpl.
  destruct (Nat.eq_dec q k) as [->|Hne].
  - apply ready_after_fire.
  - rewrite ready_fire_before; [apply IH; lia|now apply fold_fire_ordered|lia].
Qed.

(** After the job queue has run, no callback is left that could run. *)
Lemma drain_quiescent w : ordered w -> quiescent (drain w).
Proof.
  intros Ho q. unfold drain.
  destruct (Nat.lt_ge_cases q (length (promises w))) as [Hlt|Hge].
  - now apply fold_fire_seq_quiescent.
  - unfold ready. rewrite lookup_ge_None_2; trivial.
    now rewrite fold_fire_length.
Qed.

Lemma fold_fire_not_ready l w :
  (forall q, In q l -> ready w q = false) -> fold_left fire l w = w.
Proof.
  intros Hq. induction l as [|q l IH]; simpl; [reflexivity|].
  rewrite fire_not_ready by (apply Hq; now left).
  apply IH. intros j Hj. apply Hq. now right.
Qed.

(** When only the youngest promise can run, the queue holds its callback
    alone. *)
Lemma drain_youngest w n :
  length (promises w) = S n ->
  (forall q, q < n -> ready w q = false) ->
  drain w = fire w n.
Proof.
  intros Hlen Hq. unfold drain. rewrite Hlen, seq_S, fold_left_app. simpl.
  rewrite fold_fire_not_ready; [reflexivity|].
  intros q Hin. apply in_seq in Hin. apply Hq. lia.
Qed.

(** ** What [client()] does *)

Lemma set__client_same w : set__client (_client (manager w)) w = w.
Proof. destruct w as [[o r c e] ps rs ivs n]; reflexivity. Qed.

Lemma client_cached now w :
  cached now w = true -> client now w = (_client (manager w), w).
Proof.
  unfold cached, client, createClient. intros Hc.
  destruct (num_lt (expiration (manager w)) (Num 0)); simpl in *.
  - now rewrite set__client_same.
  - rewrite Hc. now rewrite set__client_same.
Qed.

Lemma insert_last {A} (l : list A) (x y : A) :
  <[length l := y]> (l ++ [x]) = l ++ [y].
Proof.
  rewrite insert_app_r_alt by lia. now rewrite Nat.sub_diag.
Qed.

(** A refresh when the role promise exists: one new promise, hung on it. *)
Lemma client_refresh now w r :
  cached now w = false ->
  iamRole (manager w) = Some r ->
  client now w =
    (Some (length (promises w)),
     {| manager := {| options := options (manager w); iamRole := Some r;
                      _client := Some (length (promises w));
                      expiration := expiration (manager w) |};
        promises := promises w ++ [Waiting r then_getClient];
        requests := requests w;
        invocations := invocations w;
        clients := clients w |}).
Proof.
  unfold cached, client, createClient. intros Hc Hr.
  apply orb_false_iff in Hc as [-> ->]. rewrite Hr. reflexivity.
Qed.

(** The first refresh: the role listing is requested as well. *)
Lemma client_first now w :
  cached now w = false ->
  iamRole (manager w) = None ->
  client now w =
    (Some (S (length (promises w))),
     {| manager := {| options := options (manager w);
                      iamRole := Some (length (promises w));
                      _client := Some (S (length (promises w)));
                      expiration := expiration (manager w) |};
        promises := promises w ++
                    [Fetching role_text;
                     Waiting (length (promises w)) then_getClient];
        requests := requests w ++ [RoleListing];
        invocations := invocations w;
        clients := clients w |}).
Proof.
  unfold cached, client, createClient. intros Hc Hr.
  apply orb_false_iff in Hc as [-> ->]. rewrite Hr.
  unfold new_promise, fetch, settle, set_iamRole, set__client, set_manager,
    set_promises; simpl.
  rewrite insert_last, length_app; simpl.
  rewrite Nat.add_1_r, <- app_assoc. reflexivity.
Qed.

(** ** Worlds the code can be in *)

Lemma reaction_relayed q n cb s i :
  In i (reaction q n cb s).2 -> relayed_to i = q.
Proof.
  destruct s as [k|src0 cb0|v|e]; simpl; try tauto.
  destruct cb as [|bucket key cb|sKey args|sKey]; simpl.
  - destruct (truthy v); simpl; tauto.
  - destruct v as [|b|s|c|n0]; simpl;
      try destruct b; try destruct (negb (String.eqb s "")); simpl; try tauto.
    intros [<-|[]]; reflexivity.
  - destruct v as [|b|s|c|n0]; simpl; try tauto.
    intros [<-|[]]; reflexivity.
  - tauto.
Qed.

Lemma fire_invocations w q i :
  In i (invocations (fire w q)) ->
  In i (invocations w) \/ (relayed_to i = q /\ q < length (promises w)).
Proof.
  destruct (fire_cases w q) as [->|(src & cb & s & Hq & _ & _ & ->)];
    [now left|]. simpl. intros Hin. apply in_app_or in Hin as [Hin|Hin].
  - now left.
  - right. split; [now apply reaction_relayed in Hin|].
    eapply lookup_lt_Some; eauto.
Qed.

Lemma fire_sound w q : sound w -> sound (fire w q).
Proof.
  intros [H1 H2 H3 H4 H5]. split.
  - intros r. rewrite fire_manager, fire_length. apply H1.
  - intros p0. rewrite fire_manager, fire_length. apply H2.
  - now apply fire_ordered.
  - intros i Hi. rewrite fire_length.
    apply fire_invocations in Hi as [Hi|[-> Hlt]]; auto.
  - intros j src Hj. rewrite fire_manager. apply fire_waiting in Hj. eauto.
Qed.

Lemma fold_fire_sound l w : sound w -> sound (fold_left fire l w).
Proof.
  revert w; induction l as [|q l IH]; intros w Hs; simpl; [trivial|].
  apply IH. now apply fire_sound.
Qed.

Lemma drain_sound w : sound w -> sound (drain w).
Proof. apply fold_fire_sound. Qed.

Ltac literal_lookup H :=
  repeat match type of H with
  | (_ :: _) !! ?k = Some _ => destruct k eqn:?; simpl in H
  | [] !! _ = Some _ => discriminate H
  end.

Lemma client_sound now w :
  sound w ->
  sound (client now w).2 /\
  forall p, (client now w).1 = Some p -> p < length (promises (client now w).2).
Proof.
  intros [H1 H2 H3 H4 H5].
  destruct (cached now w) eqn:Hc.
  { rewrite client_cached by trivial. simpl. split; [now split|apply H2]. }
  destruct (iamRole (manager w)) as [r|] eqn:Hr.
  - rewrite (client_refresh now w r) by trivial. simpl. split; [split; simpl|].
    + intros r0 [= <-]. rewrite length_app; simpl.
      specialize (H1 r eq_refl). lia.
    + intros p0 [= <-]. rewrite length_app; simpl. lia.
    + intros q src cb Hq. simpl in Hq.
      apply lookup_app_Some in Hq as [Hq|[Hge Hq]]; [eauto|].
      literal_lookup Hq. injection Hq as <- <-.
      specialize (H1 r eq_refl). lia.
    + intros i Hi. rewrite length_app; simpl. specialize (H4 i Hi). lia.
    + intros q src Hq.
      apply lookup_app_Some in Hq as [Hq|[Hge Hq]].
      * apply H5 in Hq. simpl. congruence.
      * literal_lookup Hq. now injection Hq as <-.
    + intros p0 [= <-]. rewrite length_app; simpl. lia.
  - rewrite client_first by trivial. simpl. split; [split; simpl|].
    + intros r0 [= <-]. rewrite length_app; simpl. lia.
    + intros p0 [= <-]. rewrite length_app; simpl. lia.
    + intros q src cb Hq. simpl in Hq.
      apply lookup_app_Some in Hq as [Hq|[Hge Hq]]; [eauto|].
      literal_lookup Hq; try discriminate. injection Hq as <- <-. lia.
    + intros i Hi. rewrite length_app; simpl. specialize (H4 i Hi). lia.
    + intros q src Hq.
      apply lookup_app_Some in Hq as [Hq|[Hge Hq]].
      * apply H5 in Hq. congruence.
      * literal_lookup Hq; try discriminate. now injection Hq as <-.
    + intros p0 [= <-]. rewrite length_app; simpl. lia.
Qed.

Lemma then_sound (p : option PromiseId) cb w :
  sound w ->
  (forall p', p = Some p' -> p' < length (promises w)) ->
  cb <> then_getClient ->
  sound (then_ p cb w).2.
Proof.
  intros [H1 H2 H3 H4 H5] Hp Hcb. destruct p as [p'|]; simpl; [|now split].
  specialize (Hp p' eq_refl). split; simpl.
  - intros r Hr. rewrite length_app; simpl. specialize (H1 r Hr). lia.
  - intros p0 Hp0. rewrite length_app; simpl. specialize (H2 p0 Hp0). lia.
  - intros q src cb0 Hq. simpl in Hq.
    apply lookup_app_Some in Hq as [Hq|[Hge Hq]]; [eauto|].
    literal_lookup Hq. injection Hq as <- <-. lia.
  - intros i Hi. rewrite length_app; simpl. specialize (H4 i Hi). lia.
  - intros q src Hq.
    apply lookup_app_Some in Hq as [Hq|[Hge Hq]]; [eauto|].
    literal_lookup Hq. congruence.
Qed.

(** The end of a request settles the promise of its chain, and may set
    [expiration] and construct a client; nothing else changes. *)
Lemma deliver_cases p out w :
  deliver p out w = w \/
  exists k s e c,
    promises w !! p = Some (Fetching k) /\ settled s = true /\
    deliver p out w =
      {| manager := {| options := options (manager w);
                       iamRole := iamRole (manager w);
                       _client := _client (manager w);
                       expiration := e |};
         promises := <[p := s]> (promises w);
         requests := requests w;
         invocations := invocations w;
         clients := c |}.
Proof.
  unfold deliver.
  destruct (promises w !! p) as [[k|src cb|v|e]|] eqn:Hp; try now left.
  right. exists k.
  destruct w as [[o r c e] ps rs ivs n]; simpl in *.
  destruct k, out as [resp|err]; simpl.
  - destruct (ok resp); eexists _, _, _; (split; [reflexivity|]);
      (split; [|reflexivity]); reflexivity.
  - eexists _, _, _; (split; [reflexivity|]); (split; [|reflexivity]); reflexivity.
  - destruct (json resp) as [m|]; eexists _, _, _; (split; [reflexivity|]);
      (split; [|reflexivity]); reflexivity.
  - eexists _, _, _; (split; [reflexivity|]); (split; [|reflexivity]); reflexivity.
Qed.

Lemma deliver_sound p out w : sound w -> sound (deliver p out w).
Proof.
  intros Hs.
  destruct (deliver_cases p out w)
    as [->|(k & s & e & c & Hp & Hset & ->)]; [trivial|].
  destruct Hs as [H1 H2 H3 H4 H5]. split; simpl.
  - intros r. rewrite length_insert. apply H1.
  - intros p0. rewrite length_insert. apply H2.
  - intros q src cb Hq. simpl in Hq.
    destruct (Nat.eq_dec q p) as [->|Hne].
    + rewrite list_lookup_insert_eq in Hq by (eapply lookup_lt_Some; eauto).
      injection Hq as ->. discriminate.
    + rewrite list_lookup_insert_ne in Hq by congruence. eauto.
  - intros i Hi. rewrite length_insert. eauto.
  - intros q src Hq.
    destruct (Nat.eq_dec q p) as [->|Hne].
    + rewrite list_lookup_insert_eq in Hq by (eapply lookup_lt_Some; eauto).
      injection Hq as ->. discriminate.
    + rewrite list_lookup_insert_ne in Hq by congruence. eauto.
Qed.

Lemma handle_sound w ev : sound w -> sound (handle w ev).
Proof.
  intros Hs.
  assert (Hop : forall now cb, cb <> then_getClient ->
            sound (then_ (client now w).1 cb (client now w).2).2).
  { intros now cb Hcb. destruct (client_sound now w Hs) as [Hs1 Hp].
    now apply then_sound. }
  destruct ev as [now|now bucket key cb|now sKey args|now sKey|p out]; simpl.
  - apply client_sound, Hs.
  - unfold getObject. specialize (Hop now (then_getObject bucket key cb)).
    destruct (client now w). now apply Hop.
  - destruct (isAFunction sKey).
    + unfold proxy_apply. specialize (Hop now (then_apply sKey args)).
      destruct (client now w). now apply Hop.
    + unfold proxy_read. specialize (Hop now (then_get sKey)).
      destruct (client now w). now apply Hop.
  - destruct (isAFunction sKey); [trivial|].
    unfold proxy_read. specialize (Hop now (then_get sKey)).
    destruct (client now w). now apply Hop.
  - now apply deliver_sound.
Qed.

Lemma new_MinioClientManager_cases opts :
  new_MinioClientManager opts =
    {| manager := {| options := opts; iamRole := None; _client := None;
                     expiration := Num 0 |};
       promises := []; requests := []; invocations := []; clients := 0 |} \/
  new_MinioClientManager opts =
    {| manager := {| options := opts; iamRole := None; _client := Some 0;
                     expiration := Num (-1) |};
       promises := [Fulfilled (VClient {| instance := 0; client_options := opts |})];
       requests := []; invocations := []; clients := 1 |}.
Proof.
  unfold new_MinioClientManager, init; simpl.
  destruct (isAmazonEndpoint _); [|now right].
  destruct (_ || _); [now left|now right].
Qed.

Lemma new_MinioClientManager_sound opts : sound (new_MinioClientManager opts).
Proof.
  destruct (new_MinioClientManager_cases opts) as [-> | ->];
    split; unfold ordered; simpl; intros;
    try discriminate; try tauto;
    repeat match goal with
    | H : Some _ = Some _ |- _ => injection H as <-
    | H : _ !! ?q = Some _ |- _ => destruct q; simpl in H; try discriminate
    end; lia.
Qed.

Lemma new_MinioClientManager_quiescent opts :
  quiescent (new_MinioClientManager opts).
Proof.
  destruct (new_MinioClientManager_cases opts) as [-> | ->]; intros q;
    unfold ready; simpl; destruct q as [|q]; simpl; trivial.
Qed.

Lemma reachable_sound w : reachable w -> sound w.
Proof.
  induction 1 as [opts|opts|w ev Hr IH].
  - apply new_MinioClientManager_sound.
  - destruct (new_MinioClientManager_sound opts) as [H1 H2 H3 H4 H5].
    split; trivial.
  - unfold step. now apply drain_sound, handle_sound.
Qed.

Lemma reachable_quiescent w : reachable w -> quiescent w.
Proof.
  intros Hr. destruct Hr as [opts|opts|w ev Hr].
  - apply new_MinioClientManager_quiescent.
  - apply (new_MinioClientManager_quiescent opts).
  - unfold step. apply drain_quiescent.
    now apply handle_sound, reachable_sound.
Qed.

Lemma reachable_run w evs : reachable w -> reachable (run w evs).
Proof.
  revert w; induction evs as [|ev evs IH]; intros w Hr; simpl; [trivial|].
  apply IH. now constructor.
Qed.

End Facts.

(** ** Initialization *)

Lemma length_0_eqb (s : string) : (String.length s =? 0) = String.eqb s "".
Proof. destruct s; reflexivity. Qed.

Lemma empty_key_default (k : option string) :
  (String.length (default "" k) =? 0) = empty_key k.
Proof. destruct k as [s|]; [apply length_0_eqb|reflexivity]. Qed.

Lemma init_world (opts : ClientOptions) :
  new_MinioClientManager opts =
    if isAmazonEndpoint (toLowerCase (endPoint opts)) &&
       (empty_key (accessKey opts) || empty_key (secretKey opts))
    then {| manager := {| options := opts; iamRole := None; _client := None;
                          expiration := Num 0 |};
            promises := []; requests := []; invocations := []; clients := 0 |}
    else {| manager := {| options := opts; iamRole := None; _client := Some 0;
                          expiration := Num (-1) |};
            promises := [Fulfilled (VClient {| instance := 0;
                                               client_options := opts |})];
            requests := []; invocations := []; clients := 1 |}.
Proof.
  unfold new_MinioClientManager, init; simpl.
  rewrite !empty_key_default.
  destruct (isAmazonEndpoint _); simpl; [|reflexivity].
  now destruct (empty_key (accessKey opts) || empty_key (secretKey opts)).
Qed.

Lemma init_mode (opts : ClientOptions) :
  mode (new_MinioClientManager opts) =
    if isAmazonEndpoint (toLowerCase (endPoint opts)) &&
       (empty_key (accessKey opts) || empty_key (secretKey opts))
    then Dynamic else Persistent.
Proof.
  rewrite init_world.
  now destruct (isAmazonEndpoint _ && _).
Qed.

Section Initialization.
Context {minio : Minio}.

(** When the constructor accepts the options and leaves them as they are,
    [init] is [init_checked]. *)
Lemma init_checked_accepted (opts : ClientOptions) :
  Client_constructor opts = inr opts ->
  new_MinioClientManager_checked opts = inr (new_MinioClientManager opts).
Proof.
  intros H.
  unfold new_MinioClientManager_checked, new_MinioClientManager,
    init_checked, init, persistent_client_checked, persistent_client.
  simpl. rewrite H.
  destruct (isAmazonEndpoint _); [|reflexivity].
  now destruct (_ || _).
Qed.

(** C4.  Initialization selects Dynamic mode, with [expiration] left at its
    initial value and no promise of a client, exactly when the lower-cased
    endpoint is [s3.amazonaws.com] or [s3.cn-north-1.amazonaws.com.cn] and
    a key is empty: the constructor of the client is not called, and
    nothing is thrown.  In every other case, a recognized endpoint with
    both keys included, the client is constructed at once from the
    options.  When the constructor accepts them, Persistent mode is
    selected: [expiration] is the never-expire mark and the manager holds
    the promise of that client, the options being as the constructor left
    them.  When the constructor refuses them, initialization throws its
    error and there is no manager. *)
Theorem init_selects_mode (opts : ClientOptions) :
  let recognized :=
    String.eqb (toLowerCase (endPoint opts)) "s3.amazonaws.com" ||
    String.eqb (toLowerCase (endPoint opts)) "s3.cn-north-1.amazonaws.com.cn" in
  let dynamic :=
    recognized && (empty_key (accessKey opts) || empty_key (secretKey opts)) in
  new_MinioClientManager_checked opts =
    (if dynamic
     then inr {| manager := {| options := opts; iamRole := None;
                               _client := None; expiration := Num 0 |};
                 promises := []; requests := []; invocations := [];
                 clients := 0 |}
     else match Client_constructor opts with
          | inl e => inl e
          | inr opts' =>
              inr {| manager := {| options := opts'; iamRole := None;
                                   _client := Some 0;
                                   expiration := Num (-1) |};
                     promises := [Fulfilled (VClient {| instance := 0;
                                                        client_options := opts' |})];
                     requests := []; invocations := []; clients := 1 |}
          end) /\
  match new_MinioClientManager_checked opts with
  | inr w => mode w = (if dynamic then Dynamic else Persistent)
  | inl e => dynamic = false /\ Client_constructor opts = inl e
  end.
Proof.
  intros recognized dynamic.
  assert (H : new_MinioClientManager_checked opts =
    (if dynamic
     then inr {| manager := {| options := opts; iamRole := None;
                               _client := None; expiration := Num 0 |};
                 promises := []; requests := []; invocations := [];
                 clients := 0 |}
     else match Client_constructor opts with
          | inl e => inl e
          | inr opts' =>
              inr {| manager := {| options := opts'; iamRole := None;
                                   _client := Some 0;
                                   expiration := Num (-1) |};
                     promises := [Fulfilled (VClient {| instance := 0;
                                                        client_options := opts' |})];
                     requests := []; invocations := []; clients := 1 |}
          end)).
  { unfold dynamic, recognized, new_MinioClientManager_checked, init_checked,
      persistent_client_checked, isAmazonEndpoint.
    simpl. rewrite <- !empty_key_default, !length_0_eqb.
    destruct (_ || _); simpl.
    - destruct (_ || _); simpl; [reflexivity|].
      now destruct (Client_constructor opts).
    - now destruct (Client_constructor opts). }
  split; [exact H|]. rewrite H.
  destruct dynamic; [reflexivity|].
  now destruct (Client_constructor opts).
Qed.

End Initialization.

(** C4 fails on the code as it is stated for every options: with a port
    that the constructor refuses, on an endpoint that is not Amazon's,
    initialization selects no mode and constructs no client: it throws. *)
Lemma init_selects_mode_counterexample :
  isAmazonEndpoint (toLowerCase (endPoint port_70000)) = false /\
  new_MinioClientManager_checked (minio := example_minio) port_70000 =
    inl (PlainError "Invalid port") /\
  forall w, new_MinioClientManager_checked (minio := example_minio) port_70000
            <> inr w.
Proof. vm_compute. repeat split; discriminate. Qed.

Lemma lower_ascii_cases (c : ascii) :
  c = lower_ascii c \/ c = upper_ascii (lower_ascii c).
Proof.
  destruct c as [[] [] [] [] [] [] [] []]; vm_compute; tauto.
Qed.

Lemma lower_upper_ascii (d : ascii) :
  lower_ascii d = d -> lower_ascii (upper_ascii d) = d.
Proof.
  destruct d as [[] [] [] [] [] [] [] []]; vm_compute; congruence.
Qed.

Lemma spelling_toLowerCase (t e : string) :
  toLowerCase t = t -> (spelling t e <-> toLowerCase e = t).
Proof.
  revert e; induction t as [|d t IH]; intros e Ht; destruct e as [|c e]; simpl;
    try (split; [tauto|discriminate]); [tauto|].
  simpl in Ht. injection Ht as Hd Ht. specialize (IH e Ht). split.
  - intros [[->| ->] Hs]; f_equal; try tauto.
    now apply lower_upper_ascii.
  - intros [= Hc He]. split; [|tauto].
    subst d. apply lower_ascii_cases.
Qed.

Lemma isAmazonEndpoint_spec (s : string) :
  isAmazonEndpoint s = true <->
  s = "s3.amazonaws.com" \/ s = "s3.cn-north-1.amazonaws.com.cn".
Proof.
  unfold isAmazonEndpoint. rewrite orb_true_iff, !String.eqb_eq. tauto.
Qed.

(** C10.  The endpoint is recognized whatever the case of its letters: the
    endpoints that [init] takes for Amazon's are exactly the mixed-case
    spellings of the two host names, which are those whose lower-cased form
    equals one of the names exactly; and Dynamic mode is selected for
    exactly those spellings, when a key is empty. *)
Theorem endpoint_case_insensitive (opts : ClientOptions) :
  let e := endPoint opts in
  let recognized :=
    spelling "s3.amazonaws.com" e \/
    spelling "s3.cn-north-1.amazonaws.com.cn" e in
  (isAmazonEndpoint (toLowerCase e) = true <-> recognized) /\
  (isAmazonEndpoint (toLowerCase e) = true <->
   toLowerCase e = "s3.amazonaws.com" \/
   toLowerCase e = "s3.cn-north-1.amazonaws.com.cn") /\
  (mode (new_MinioClientManager opts) = Dynamic <->
   recognized /\
   (empty_key (accessKey opts) = true \/ empty_key (secretKey opts) = true)).
Proof.
  intros e recognized.
  assert (Hrec : isAmazonEndpoint (toLowerCase e) = true <-> recognized).
  { unfold recognized. rewrite isAmazonEndpoint_spec.
    now rewrite !spelling_toLowerCase by reflexivity. }
  split; [exact Hrec|]. split; [apply isAmazonEndpoint_spec|].
  rewrite <- Hrec.
  rewrite init_mode. fold e.
  rewrite <- orb_true_iff.
  destruct (isAmazonEndpoint (toLowerCase e));
    destruct (empty_key (accessKey opts) || empty_key (secretKey opts)); simpl;
    intuition congruence.
Qed.

(** ** The persistent client *)

Section Persistent.
Context {host : Host}.

Lemma reaction_forward_settled q n cb s :
  cb <> then_getClient -> settled s = true ->
  settled (reaction q n cb s).1.1 = true /\ (reaction q n cb s).1.2 = [].
Proof.
  intros Hcb Hs.
  destruct s as [k|src0 cb0|v|e]; simpl in Hs; try discriminate; simpl;
    [|now split].
  destruct cb as [|bucket key cb|sKey args|sKey]; simpl; [congruence| | |].
  - destruct v as [|b|s|c|n0]; simpl;
      try destruct b; try destruct (negb (String.eqb s "")); simpl;
      try (now split);
      match goal with |- settled (of_outcome ?o) = _ /\ _ =>
        now destruct o end.
  - destruct v as [|b|s|c|n0]; simpl;
      match goal with |- settled (of_outcome ?o) = _ /\ _ =>
        now destruct o end.
  - now destruct (Value_get v sKey).
Qed.

Lemma all_settled_not_ready w :
  Forall (fun p => settled p = true) (promises w) -> quiescent w.
Proof.
  intros Hall q. unfold ready.
  destruct (promises w !! q) as [p|] eqn:Hq; [|reflexivity].
  eapply Forall_lookup_1 in Hall; eauto.
  destruct p; simpl in Hall; congruence.
Qed.

Lemma persistent_cached opts now w :
  persistent_inv opts w -> client now w = (Some 0, w).
Proof.
  intros [Hm _ _ _]. rewrite client_cached.
  - now rewrite Hm.
  - unfold cached. now rewrite Hm.
Qed.

Lemma persistent_forward opts now cb w :
  persistent_inv opts w -> cb <> then_getClient ->
  persistent_inv opts (drain (then_ (client now w).1 cb (client now w).2).2).
Proof.
  intros Hinv Hcb. rewrite (persistent_cached opts) by trivial.
  destruct Hinv as [Hm Hc Hall Hreq]. simpl.
  set (w1 := set_promises (promises w ++ [Waiting 0 cb]) w).
  assert (Hlen : length (promises w1) = S (length (promises w))).
  { simpl. rewrite length_app. simpl. lia. }
  assert (Hold : forall q, q < length (promises w) ->
                           promises w1 !! q = promises w !! q).
  { intros q Hq. simpl. now apply lookup_app_l. }
  rewrite (drain_youngest w1 (length (promises w))); trivial.
  2:{ intros q Hq. unfold ready. rewrite Hold by trivial.
      destruct (promises w !! q) as [p|] eqn:Hp; [|reflexivity].
      eapply Forall_lookup_1 in Hall; eauto.
      destruct p; simpl in Hall; congruence. }
  assert (H0 : 0 < length (promises w)) by (eapply lookup_lt_Some; eauto).
  rewrite (fire_ready w1 _ 0 cb
             (Fulfilled (VClient {| instance := 0; client_options := opts |}))).
  2:{ simpl. rewrite lookup_app_r by lia. now rewrite Nat.sub_diag. }
  2:{ rewrite Hold by trivial. exact Hc. }
  2:{ reflexivity. }
  set (r := reaction _ _ _ _).
  destruct (reaction_forward_settled (length (promises w))
              (length (invocations w1)) cb
              (Fulfilled (VClient {| instance := 0; client_options := opts |}))
              Hcb eq_refl) as [Hs Hr].
  fold r in Hs, Hr. split; simpl.
  - exact Hm.
  - rewrite list_lookup_insert_ne by lia. now rewrite lookup_app_l.
  - rewrite insert_last. apply Forall_app. split; [trivial|].
    constructor; [trivial|constructor].
  - now rewrite Hr, Hreq.
Qed.

Lemma persistent_step opts w ev :
  persistent_inv opts w -> persistent_inv opts (step w ev).
Proof.
  intros Hinv. unfold step.
  destruct ev as [now|now bucket key cb|now sKey args|now sKey|p out]; simpl.
  - rewrite (persistent_cached opts) by trivial. simpl.
    rewrite drain_quiescent_id; trivial.
    apply all_settled_not_ready, Hinv.
  - apply (persistent_forward opts now (then_getObject bucket key cb)) in Hinv;
      [|discriminate].
    unfold getObject. now destruct (client now w).
  - destruct (isAFunction sKey).
    + apply (persistent_forward opts now (then_apply sKey args)) in Hinv;
        [|discriminate].
      unfold proxy_apply. now destruct (client now w).
    + apply (persistent_forward opts now (then_get sKey)) in Hinv;
        [|discriminate].
      unfold proxy_read. now destruct (client now w).
  - destruct (isAFunction sKey).
    + rewrite drain_quiescent_id; trivial.
      apply all_settled_not_ready, Hinv.
    + apply (persistent_forward opts now (then_get sKey)) in Hinv;
        [|discriminate].
      unfold proxy_read. now destruct (client now w).
  - assert (Hd : deliver p out w = w).
    { unfold deliver.
      destruct (promises w !! p) as [pr|] eqn:Hp; [|reflexivity].
      destruct Hinv as [_ _ Hall _].
      eapply Forall_lookup_1 in Hall; eauto.
      destruct pr; simpl in Hall; congruence. }
    rewrite Hd, drain_quiescent_id; trivial.
    apply all_settled_not_ready, Hinv.
Qed.

Lemma persistent_run opts w evs :
  persistent_inv opts w -> persistent_inv opts (run w evs).
Proof.
  revert w; induction evs as [|ev evs IH]; intros w Hinv; simpl; [trivial|].
  apply IH. now apply persistent_step.
Qed.

Lemma persistent_init opts :
  mode (new_MinioClientManager opts) = Persistent ->
  persistent_inv opts (new_MinioClientManager opts).
Proof.
  rewrite init_mode, init_world.
  destruct (isAmazonEndpoint _ && _); [discriminate|]. intros _.
  split; simpl; trivial. repeat constructor.
Qed.

(** C5.  A manager that [init] put in Persistent mode hands out the same
    promise at every [client()] call, whatever happened in between; that
    promise is fulfilled with the client constructed by [init], the call
    changes nothing, and no request is ever sent. *)
Theorem persistent_client_forever
    (opts : ClientOptions) (evs : list Event) (now : Z) :
  mode (new_MinioClientManager opts) = Persistent ->
  let w := run (new_MinioClientManager opts) evs in
  client now w = (Some 0, w) /\
  promises w !! 0 =
    Some (Fulfilled (VClient {| instance := 0; client_options := opts |})) /\
  requests w = [] /\
  step w (Call_client now) = w.
Proof.
  intros Hmode w.
  assert (Hinv : persistent_inv opts w)
    by now apply persistent_run, persistent_init.
  split; [now apply (persistent_cached opts)|].
  split; [apply Hinv|]. split; [apply Hinv|].
  unfold step; simpl. rewrite (persistent_cached opts) by trivial. simpl.
  apply drain_quiescent_id, all_settled_not_ready, Hinv.
Qed.

End Persistent.

(** ** From a promise to the promise that waits on it *)

Section Relay.
Context {host : Host}.

Lemma reaction_waiting q n cb s :
  settled s = true -> waiting (reaction q n cb s).1.1 = false.
Proof.
  intros Hs. pose proof (reaction_not_waiting q n cb s Hs) as Hn.
  destruct (reaction q n cb s).1.1; trivial. now destruct (Hn src cb0).
Qed.

Lemma filter_relayed_all q l :
  (forall i, In i l -> relayed_to i = q) ->
  List.filter (fun i => relayed_to i =? q) l = l.
Proof.
  induction l as [|i l IH]; intros Hall; simpl; [reflexivity|].
  rewrite (Hall i) by now left. rewrite Nat.eqb_refl.
  f_equal. apply IH. intros j Hj. apply Hall. now right.
Qed.

Lemma filter_relayed_none q j l :
  j <> q -> (forall i, In i l -> relayed_to i = j) ->
  List.filter (fun i => relayed_to i =? q) l = [].
Proof.
  intros Hne. induction l as [|i l IH]; intros Hall; simpl; [reflexivity|].
  rewrite (Hall i) by now left.
  destruct (Nat.eqb_spec j q); [contradiction|].
  apply IH. intros k Hk. apply Hall. now right.
Qed.

Lemma fire_relayed_other w j q :
  j <> q -> relayed q (fire w j) = relayed q w.
Proof.
  intros Hne.
  destruct (fire_cases w j) as [->|(src & cb & s & _ & _ & _ & ->)];
    [reflexivity|].
  unfold relayed; simpl. rewrite List.filter_app.
  rewrite (filter_relayed_none q j (reaction j (length (invocations w)) cb s).2)
    by (trivial; apply reaction_relayed).
  apply app_nil_r.
Qed.

Lemma fold_fire_relayed_other l w q :
  ~ In q l -> relayed q (fold_left fire l w) = relayed q w.
Proof.
  revert w; induction l as [|j l IH]; intros w Hq; simpl; [reflexivity|].
  rewrite IH by (intros Hin; apply Hq; now right).
  apply fire_relayed_other. intros ->. apply Hq. now left.
Qed.

(** A promise that is not waiting has run its callback, if it had one: no
    further call is made for it. *)
Lemma fold_fire_relayed_done l w q p :
  promises w !! q = Some p -> waiting p = false ->
  relayed q (fold_left fire l w) = relayed q w.
Proof.
  revert w p; induction l as [|j l IH]; intros w p Hq Hp; simpl; [reflexivity|].
  destruct (Nat.eq_dec j q) as [->|Hne].
  - rewrite fire_not_ready; [now apply (IH w p)|].
    unfold ready. rewrite Hq. now destruct p.
  - rewrite (IH (fire w j) p); trivial.
    + now apply fire_relayed_other.
    + now rewrite fire_other by congruence.
Qed.

Lemma fire_progress w j q p :
  promises w !! q = Some p ->
  exists p', promises (fire w j) !! q = Some p' /\ progress p p'.
Proof.
  intros Hq.
  destruct (Nat.eq_dec q j) as [->|Hne].
  - destruct (fire_cases w j) as [->|(src & cb & s & Hj & _ & Hs & ->)].
    + exists p. split; [trivial|now left].
    + simpl. rewrite list_lookup_insert_eq by (eapply lookup_lt_Some; eauto).
      eexists; split; [reflexivity|]. right.
      rewrite Hq in Hj. injection Hj as ->. split; [reflexivity|].
      now apply reaction_waiting.
  - exists p. rewrite fire_other by trivial. split; [trivial|now left].
Qed.

Lemma progress_trans p1 p2 p3 : progress p1 p2 -> progress p2 p3 -> progress p1 p3.
Proof.
  intros [->|[H1 H2]] [->|[H3 H4]].
  - now left.
  - now right.
  - now right.
  - now right.
Qed.

Lemma fold_fire_progress l w q p :
  promises w !! q = Some p ->
  exists p', promises (fold_left fire l w) !! q = Some p' /\ progress p p'.
Proof.
  revert w p; induction l as [|j l IH]; intros w p Hq; simpl.
  - exists p. split; [trivial|now left].
  - destruct (fire_progress w j q p Hq) as (p1 & H1 & Hp1).
    destruct (IH _ _ H1) as (p2 & H2 & Hp2).
    exists p2. split; [trivial|]. eapply progress_trans; eauto.
Qed.

Lemma evolves_app ps extra : evolves ps (ps ++ extra).
Proof.
  intros q p Hq. exists p. split; [|now left].
  now apply lookup_app_l_Some.
Qed.

Lemma evolves_trans ps1 ps2 ps3 :
  evolves ps1 ps2 -> evolves ps2 ps3 -> evolves ps1 ps3.
Proof.
  intros H12 H23 q p Hq.
  destruct (H12 q p Hq) as (p2 & Hq2 & Hp2).
  destruct (H23 q p2 Hq2) as (p3 & Hq3 & Hp3).
  exists p3. split; [trivial|].
  destruct Hp2 as [->|[Hk Hs2]]; [trivial|].
  destruct Hp3 as [->|[[k ->] Hs3]]; [now right|discriminate].
Qed.

Lemma client_evolves now w :
  evolves (promises w) (promises (client now w).2) /\
  invocations (client now w).2 = invocations w.
Proof.
  destruct (cached now w) eqn:Hc.
  { rewrite client_cached by trivial. simpl. split; [|reflexivity].
    rewrite <- (app_nil_r (promises w)) at 2. apply evolves_app. }
  destruct (iamRole (manager w)) as [r|] eqn:Hr.
  - rewrite (client_refresh now w r) by trivial. simpl.
    split; [apply evolves_app|reflexivity].
  - rewrite client_first by trivial. simpl.
    split; [apply evolves_app|reflexivity].
Qed.

Lemma then_evolves (p : option PromiseId) cb w :
  evolves (promises w) (promises (then_ p cb w).2) /\
  invocations (then_ p cb w).2 = invocations w.
Proof.
  destruct p as [p|]; simpl.
  - split; [apply evolves_app|reflexivity].
  - split; [|reflexivity].
    rewrite <- (app_nil_r (promises w)) at 2. apply evolves_app.
Qed.

Lemma forward_evolves now cb w :
  evolves (promises w) (promises (then_ (client now w).1 cb (client now w).2).2) /\
  invocations (then_ (client now w).1 cb (client now w).2).2 = invocations w.
Proof.
  destruct (client_evolves now w) as [H1 H2].
  destruct (then_evolves (client now w).1 cb (client now w).2) as [H3 H4].
  split; [eapply evolves_trans; eauto|congruence].
Qed.

Lemma deliver_evolves p out w :
  evolves (promises w) (promises (deliver p out w)) /\
  invocations (deliver p out w) = invocations w.
Proof.
  destruct (deliver_cases p out w)
    as [->|(k & s & e & c & Hp & Hset & ->)].
  - split; [|reflexivity].
    rewrite <- (app_nil_r (promises w)) at 2. apply evolves_app.
  - simpl. split; [|reflexivity]. intros q p0 Hq.
    destruct (Nat.eq_dec q p) as [->|Hne].
    + exists s. rewrite list_lookup_insert_eq by (eapply lookup_lt_Some; eauto).
      split; [reflexivity|]. right. split; [|trivial]. exists k. congruence.
    + exists p0. rewrite list_lookup_insert_ne by congruence.
      split; [trivial|now left].
Qed.

Lemma handle_evolves w ev :
  evolves (promises w) (promises (handle w ev)) /\
  invocations (handle w ev) = invocations w.
Proof.
  destruct ev as [now|now bucket key cb|now sKey args|now sKey|p out]; simpl.
  - apply client_evolves.
  - unfold getObject.
    pose proof (forward_evolves now (then_getObject bucket key cb) w) as H.
    now destruct (client now w).
  - destruct (isAFunction sKey).
    + unfold proxy_apply.
      pose proof (forward_evolves now (then_apply sKey args) w) as H.
      now destruct (client now w).
    + unfold proxy_read.
      pose proof (forward_evolves now (then_get sKey) w) as H.
      now destruct (client now w).
  - destruct (isAFunction sKey).
    + split; [|reflexivity].
      rewrite <- (app_nil_r (promises w)) at 2. apply evolves_app.
    + unfold proxy_read.
      pose proof (forward_evolves now (then_get sKey) w) as H.
      now destruct (client now w).
  - apply deliver_evolves.
Qed.

Lemma step_sound w ev : sound w -> sound (step w ev).
Proof. intros Hs. now apply drain_sound, handle_sound. Qed.

Lemma progress_settled p p' : progress p p' -> settled p = true -> p' = p.
Proof. intros [->|[Hp _]] Hs; [reflexivity|congruence]. Qed.

Lemma progress_waiting p p' : progress p p' -> waiting p = false -> waiting p' = false.
Proof. intros [->|[_ Hp]] Hw; trivial. Qed.

Lemma step_progress w ev q p :
  promises w !! q = Some p ->
  exists p', promises (step w ev) !! q = Some p' /\ progress p p'.
Proof.
  intros Hq. destruct (handle_evolves w ev) as [He _].
  destruct (He q p Hq) as (p1 & H1 & Hp1).
  destruct (fold_fire_progress (seq 0 (length (promises (handle w ev))))
              (handle w ev) q p1 H1) as (p2 & H2 & Hp2).
  exists p2. split; [exact H2|].
  eapply progress_trans; [|exact Hp2].
  destruct Hp1 as [->|[[k ->] Hs]]; [now left|].
  right. split; [reflexivity|]. now destruct p1.
Qed.

Lemma run_progress w evs q p :
  promises w !! q = Some p ->
  exists p', promises (run w evs) !! q = Some p' /\ progress p p'.
Proof.
  revert w p; induction evs as [|ev evs IH]; intros w p Hq; simpl.
  - exists p. split; [trivial|now left].
  - destruct (step_progress w ev q p Hq) as (p1 & H1 & Hp1).
    destruct (IH _ _ H1) as (p2 & H2 & Hp2).
    exists p2. split; [trivial|]. eapply progress_trans; eauto.
Qed.

(** A settled promise keeps its state for ever. *)
Lemma run_settled w evs q p :
  promises w !! q = Some p -> settled p = true ->
  promises (run w evs) !! q = Some p.
Proof.
  intros Hq Hs. destruct (run_progress w evs q p Hq) as (p' & Hq' & Hp).
  now rewrite (progress_settled _ _ Hp Hs) in Hq'.
Qed.

Lemma step_relayed_done w ev q p :
  promises w !! q = Some p -> waiting p = false ->
  relayed q (step w ev) = relayed q w.
Proof.
  intros Hq Hw. destruct (handle_evolves w ev) as [He Hi].
  destruct (He q p Hq) as (p1 & H1 & Hp1).
  unfold step, drain. rewrite (fold_fire_relayed_done _ _ q p1); trivial.
  - unfold relayed. now rewrite Hi.
  - destruct Hp1 as [->|[_ Hs]]; [trivial|now destruct p1].
Qed.

Lemma run_relayed_done w evs q p :
  promises w !! q = Some p -> waiting p = false ->
  relayed q (run w evs) = relayed q w.
Proof.
  revert w p; induction evs as [|ev evs IH]; intros w p Hq Hw; simpl;
    [reflexivity|].
  destruct (step_progress w ev q p Hq) as (p1 & H1 & Hp1).
  rewrite (IH _ p1); trivial.
  - now apply (step_relayed_done w ev q p).
  - now apply (progress_waiting p).
Qed.

(** The place of the promise [q] in one emptying of the job queue. *)
Lemma drain_at w q src cb :
  ordered w -> promises w !! q = Some (Waiting src cb) ->
  let wa := fold_left fire (seq 0 q) w in
  promises wa !! q = Some (Waiting src cb) /\
  relayed q wa = relayed q w /\
  promises (drain w) !! q = promises (fire wa q) !! q /\
  relayed q (drain w) = relayed q (fire wa q) /\
  promises (drain w) !! src = promises wa !! src.
Proof.
  intros Ho Hq wa.
  assert (Hlt : q < length (promises w)) by (eapply lookup_lt_Some; eauto).
  assert (Hsrc : src < q) by eauto.
  assert (Hnot : ~ In q (seq 0 q)) by (rewrite in_seq; lia).
  set (m := length (promises w) - S q).
  assert (Hd : drain w = fold_left fire (seq (S q) m) (fire wa q)).
  { unfold drain.
    replace (length (promises w)) with (q + S m) by (unfold m; lia).
    rewrite seq_app, fold_left_app. reflexivity. }
  assert (Hrest : ~ In q (seq (S q) m)) by (rewrite in_seq; lia).
  split; [unfold wa; now rewrite fold_fire_other|].
  split; [unfold wa; now rewrite fold_fire_relayed_other|].
  split; [rewrite Hd; now apply fold_fire_other|].
  split; [rewrite Hd; now apply fold_fire_relayed_other|].
  rewrite Hd, fold_fire_other by (rewrite in_seq; lia).
  apply fire_other. lia.
Qed.

(** One step: the promise [q] goes on waiting, or the promise it waits on
    is settled and the callback of [q] has run on it. *)
Lemma step_relay w ev q src cb :
  sound w -> promises w !! q = Some (Waiting src cb) ->
  (promises (step w ev) !! q = Some (Waiting src cb) /\
   relayed q (step w ev) = relayed q w) \/
  (exists s n,
     promises (step w ev) !! src = Some s /\ settled s = true /\
     promises (step w ev) !! q = Some (reaction q n cb s).1.1 /\
     relayed q (step w ev) = relayed q w ++ (reaction q n cb s).2).
Proof.
  intros Hs Hq.
  destruct (handle_evolves w ev) as [He Hi].
  destruct (He q _ Hq) as (p1 & H1 & Hp1).
  assert (p1 = Waiting src cb) as ->.
  { destruct Hp1 as [->|[[k Hk] _]]; [reflexivity|discriminate]. }
  assert (Ho : ordered (handle w ev)) by now apply sound_ordered, handle_sound.
  destruct (drain_at (handle w ev) q src cb Ho H1) as (Ha & Hra & Hdq & Hdr & Hds).
  set (wa := fold_left fire (seq 0 q) (handle w ev)) in *.
  assert (Hrw : relayed q (handle w ev) = relayed q w)
    by (unfold relayed; now rewrite Hi).
  unfold step. destruct (ready wa q) eqn:Hr.
  - right. unfold ready in Hr. rewrite Ha in Hr.
    destruct (promises wa !! src) as [s|] eqn:Hsrc; [|discriminate].
    exists s, (length (invocations wa)).
    rewrite (fire_ready wa q src cb s Ha Hsrc Hr) in Hdq, Hdr.
    split; [now rewrite Hds|]. split; [trivial|]. split.
    + rewrite Hdq. simpl. apply list_lookup_insert_eq.
      eapply lookup_lt_Some; eauto.
    + rewrite Hdr. unfold relayed at 1. simpl. rewrite List.filter_app.
      rewrite (filter_relayed_all q (reaction _ _ _ _).2)
        by apply reaction_relayed.
      fold (relayed q wa). now rewrite Hra, Hrw.
  - left. rewrite fire_not_ready in Hdq, Hdr by trivial.
    split; [now rewrite Hdq|]. now rewrite Hdr, Hra.
Qed.

(** Any number of steps. *)
Lemma relay w evs q src cb :
  sound w -> promises w !! q = Some (Waiting src cb) ->
  (promises (run w evs) !! q = Some (Waiting src cb) /\
   relayed q (run w evs) = relayed q w) \/
  (exists s n p,
     promises (run w evs) !! src = Some s /\ settled s = true /\
     promises (run w evs) !! q = Some p /\
     progress (reaction q n cb s).1.1 p /\
     relayed q (run w evs) = relayed q w ++ (reaction q n cb s).2).
Proof.
  revert w; induction evs as [|ev evs IH]; intros w Hs Hq; simpl.
  - left. now split.
  - destruct (step_relay w ev q src cb Hs Hq)
      as [[Hq1 Hr1]|(s & n & Hsrc & Hset & Hq1 & Hr1)].
    + destruct (IH (step w ev) (step_sound _ _ Hs) Hq1)
        as [[Hq2 Hr2]|(s & n & p & Hsrc & Hset & Hq2 & Hp & Hr2)].
      * left. split; [trivial|congruence].
      * right. exists s, n, p. repeat split; trivial. congruence.
    + right.
      destruct (run_progress (step w ev) evs q _ Hq1) as (p & Hq2 & Hp).
      exists s, n, p. split; [now apply run_settled|].
      split; [trivial|]. split; [trivial|]. split; [trivial|].
      rewrite (run_relayed_done _ _ q _ Hq1); trivial.
      now apply reaction_waiting.
Qed.

(** A storage method is called for [q] only on the client that fulfilled
    the promise [q] was waiting on. *)
Lemma reaction_invokes q n cb s i :
  In i (reaction q n cb s).2 -> s = Fulfilled (VClient (receiver i)).
Proof.
  destruct s as [k|src0 cb0|v|e]; simpl; try tauto.
  destruct cb as [|bucket key cb|sKey args|sKey]; simpl.
  - destruct (truthy v); simpl; tauto.
  - destruct v as [|b|s|c|n0]; simpl;
      try destruct b; try destruct (negb (String.eqb s "")); simpl; try tauto.
    intros [<-|[]]; reflexivity.
  - destruct v as [|b|s|c|n0]; simpl; try tauto.
    intros [<-|[]]; reflexivity.
  - tauto.
Qed.

Lemma drain_as_step w out :
  drain w = step w (Fetch_done (length (promises w)) out).
Proof.
  unfold step; simpl. unfold deliver.
  now rewrite lookup_ge_None_2 by lia.
Qed.

(** From the event that created the waiting promise [q] to any later
    moment [w']. *)
Lemma relay_from_handle w ev evs q src cb :
  reachable w ->
  promises (handle w ev) !! q = Some (Waiting src cb) ->
  let w' := run (step w ev) evs in
  (promises w' !! q = Some (Waiting src cb) /\
   relayed q w' = relayed q (handle w ev) /\
   forall s, promises w' !! src = Some s -> settled s = false) \/
  (exists s n p,
     promises w' !! src = Some s /\ settled s = true /\
     promises w' !! q = Some p /\
     progress (reaction q n cb s).1.1 p /\
     relayed q w' = relayed q (handle w ev) ++ (reaction q n cb s).2).
Proof.
  intros Hr Hq0 w'.
  assert (Hs0 : sound (handle w ev)) by now apply handle_sound, reachable_sound.
  assert (Hw' : w' = run (handle w ev)
                  (Fetch_done (length (promises (handle w ev)))
                     (Failed (FetchError "")) :: evs)).
  { simpl. now rewrite <- drain_as_step. }
  assert (Hreach : reachable w') by now apply reachable_run, reach_step.
  destruct (relay (handle w ev)
              (Fetch_done (length (promises (handle w ev)))
                 (Failed (FetchError "")) :: evs) q src cb Hs0 Hq0)
    as [[Hq1 Hr1]|(s & n & p1 & Hsrc & Hset & Hq1 & Hp1 & Hr1)];
    rewrite <- Hw' in *.
  - left. split; [trivial|]. split; [trivial|].
    intros s Hsp. pose proof (reachable_quiescent w' Hreach q) as Hnr.
    unfold ready in Hnr. now rewrite Hq1, Hsp in Hnr.
  - right. exists s, n, p1. auto.
Qed.

(** A forwarded operation, from the call to any later moment.  [p] is the
    promise that [client()] returned and [q] the promise given to the
    caller: [q] waits as long as [p] is pending, and once [p] is settled
    [q] holds what the callback made of it, the only calls of storage
    methods for [q] being those of that callback. *)
Lemma forwarded w ev now cb p evs :
  reachable w -> cb <> then_getClient ->
  (client now w).1 = Some p ->
  handle w ev = (then_ (client now w).1 cb (client now w).2).2 ->
  let q := length (promises (client now w).2) in
  let w' := run (step w ev) evs in
  p < q /\
  ((promises w' !! q = Some (Waiting p cb) /\ relayed q w' = [] /\
    forall s, promises w' !! p = Some s -> settled s = false) \/
   (exists s n,
      promises w' !! p = Some s /\ settled s = true /\
      promises w' !! q = Some (reaction q n cb s).1.1 /\
      relayed q w' = (reaction q n cb s).2)).
Proof.
  intros Hr Hcb Hp Hh q w'.
  pose proof (reachable_sound w Hr) as Hs.
  destruct (client_sound now w Hs) as [Hsc Hpc].
  specialize (Hpc p Hp). fold q in Hpc. split; [exact Hpc|].
  assert (Hq0 : promises (handle w ev) !! q = Some (Waiting p cb)).
  { rewrite Hh, Hp. simpl. rewrite lookup_app_r by (unfold q; lia).
    unfold q. now rewrite Nat.sub_diag. }
  assert (Hrel0 : relayed q (handle w ev) = []).
  { rewrite Hh, Hp. unfold relayed; simpl.
    clear -Hsc. destruct Hsc as [_ _ _ H4 _].
    induction (invocations (client now w).2) as [|i l IH]; simpl; [reflexivity|].
    destruct (Nat.eqb_spec (relayed_to i) q) as [Heq|Hne].
    - specialize (H4 i (or_introl eq_refl)). unfold q in Heq. lia.
    - apply IH. intros j Hj. apply H4. now right. }
  subst w'.
  destruct (relay_from_handle w ev evs q p cb Hr Hq0)
    as [(Hq1 & Hr1 & Hpend)|(s & n & p1 & Hsrc & Hset & Hq1 & Hp1 & Hr1)].
  - left. split; [trivial|]. split; [congruence|trivial].
  - right. exists s, n. split; [trivial|]. split; [trivial|].
    destruct (reaction_forward_settled q n cb s Hcb Hset) as [Hrs _].
    rewrite (progress_settled _ _ Hp1 Hrs) in Hq1.
    split; [trivial|]. now rewrite Hr1, Hrel0.
Qed.

Lemma client_defined now w :
  fresh_or_defined w ->
  exists p, (client now w).1 = Some p /\
            _client (manager (client now w).2) = Some p.
Proof.
  intros Hf. destruct (cached now w) eqn:Hc.
  - rewrite client_cached by trivial. simpl.
    destruct (_client (manager w)) as [p|] eqn:Hp; [now exists p|].
    destruct (Hf Hp) as [_ He]. unfold cached in Hc.
    rewrite He, Hp in Hc. discriminate.
  - destruct (iamRole (manager w)) as [r|] eqn:Hr.
    + rewrite (client_refresh now w r) by trivial. simpl. eauto.
    + rewrite client_first by trivial. simpl. eauto.
Qed.

Lemma then_manager (p : option PromiseId) cb w :
  manager (then_ p cb w).2 = manager w.
Proof. now destruct p. Qed.

Lemma deliver__client p out w :
  _client (manager (deliver p out w)) = _client (manager w).
Proof.
  destruct (deliver_cases p out w)
    as [->|(k & s & e & c & _ & _ & ->)]; reflexivity.
Qed.

Lemma step_fresh_or_defined w ev :
  fresh_or_defined w -> fresh_or_defined (step w ev).
Proof.
  intros Hf.
  assert (Hop : forall now cb,
            _client (manager (then_ (client now w).1 cb (client now w).2).2)
            <> None).
  { intros now cb. rewrite then_manager.
    destruct (client_defined now w Hf) as (p & _ & ->). discriminate. }
  assert (Hsame : handle w ev = w -> fresh_or_defined (step w ev)).
  { intros Hh Hn. unfold step in *. rewrite Hh in *.
    unfold drain in Hn. rewrite fold_fire_manager in Hn.
    destruct (Hf Hn) as [Hps He]. unfold drain. rewrite Hps. simpl.
    now split. }
  assert (Hdef : _client (manager (handle w ev)) <> None ->
                 fresh_or_defined (step w ev)).
  { intros Hd Hn. unfold step, drain in Hn.
    now rewrite fold_fire_manager in Hn. }
  destruct ev as [now|now bucket key cb|now sKey args|now sKey|p out]; simpl in *.
  - apply Hdef. destruct (client_defined now w Hf) as (p & _ & ->). discriminate.
  - apply Hdef. unfold getObject.
    specialize (Hop now (then_getObject bucket key cb)).
    now destruct (client now w).
  - apply Hdef. destruct (isAFunction sKey).
    + unfold proxy_apply. specialize (Hop now (then_apply sKey args)).
      now destruct (client now w).
    + unfold proxy_read. specialize (Hop now (then_get sKey)).
      now destruct (client now w).
  - destruct (isAFunction sKey); [now apply Hsame|].
    apply Hdef. unfold proxy_read. specialize (Hop now (then_get sKey)).
    now destruct (client now w).
  - destruct (_client (manager w)) as [c|] eqn:Hc.
    + apply Hdef. rewrite deliver__client, Hc. discriminate.
    + apply Hsame. destruct (Hf Hc) as [Hps _].
      unfold deliver. now rewrite Hps.
Qed.

Lemma reachable_client w now :
  reachable w -> exists p, (client now w).1 = Some p.
Proof.
  intros Hr.
  assert (Hf : fresh_or_defined w).
  { induction Hr as [opts|opts|w ev Hr IH].
    - destruct (new_MinioClientManager_cases opts) as [-> | ->]; intros Hn;
        simpl in *; [now split|discriminate].
    - destruct (new_MinioClientManager_cases opts) as [Hw|Hw]; intros Hn;
        unfold getMinioClientProxy in *; rewrite Hw in *; simpl in *;
        [now split|discriminate].
    - now apply step_fresh_or_defined. }
  destruct (client_defined now w Hf) as (p & Hp & _). eauto.
Qed.

End Relay.

(** ** The forwarder *)

Section Forwarder.
Context {host : Host}.

Lemma forwarded_failure (w' : World) (p q : PromiseId) (cb : Callback) :
  ((promises w' !! q = Some (Waiting p cb) /\ relayed q w' = [] /\
    forall s, promises w' !! p = Some s -> settled s = false) \/
   (exists s n,
      promises w' !! p = Some s /\ settled s = true /\
      promises w' !! q = Some (reaction q n cb s).1.1 /\
      relayed q w' = (reaction q n cb s).2)) ->
  (forall e, promises w' !! p = Some (Rejected e) ->
             promises w' !! q = Some (Rejected e) /\ relayed q w' = []) /\
  (forall i, In i (relayed q w') ->
             promises w' !! p = Some (Fulfilled (VClient (receiver i)))).
Proof.
  intros [(Hq & Hr & Hpend)|(s & n & Hp & Hs & Hq & Hr)]; split.
  - intros e He. apply Hpend in He. discriminate.
  - intros i Hi. rewrite Hr in Hi. destruct Hi.
  - intros e He. rewrite Hp in He. injection He as ->.
    now rewrite Hq, Hr.
  - intros i Hi. rewrite Hr in Hi. apply reaction_invokes in Hi. congruence.
Qed.

Lemma responses_make_no_promise w evs :
  forallb is_response evs = true ->
  length (promises (run w evs)) = length (promises w).
Proof.
  revert w; induction evs as [|ev evs IH]; intros w Hall; simpl in *;
    [reflexivity|].
  apply andb_true_iff in Hall as [Hev Hall]. rewrite IH by trivial.
  destruct ev as [| | | |p out]; try discriminate.
  unfold step, drain. rewrite fold_fire_length. simpl.
  destruct (deliver_cases p out w)
    as [->|(k & s & e & c & _ & _ & ->)]; [reflexivity|].
  simpl. apply length_insert.
Qed.

Lemma forwarded_length w ev now cb p :
  (client now w).1 = Some p ->
  handle w ev = (then_ (client now w).1 cb (client now w).2).2 ->
  length (promises (step w ev)) = S (length (promises (client now w).2)).
Proof.
  intros Hp Hh. unfold step, drain. rewrite fold_fire_length, Hh, Hp. simpl.
  rewrite length_app. simpl. lia.
Qed.

(** What the promise [q] of a forwarder holds once the promise it waits
    on is fulfilled. *)
Lemma forwarded_value (w' : World) (p q : PromiseId) (cb : Callback) (v : Value) :
  ((promises w' !! q = Some (Waiting p cb) /\ relayed q w' = [] /\
    forall s, promises w' !! p = Some s -> settled s = false) \/
   (exists s n,
      promises w' !! p = Some s /\ settled s = true /\
      promises w' !! q = Some (reaction q n cb s).1.1 /\
      relayed q w' = (reaction q n cb s).2)) ->
  promises w' !! p = Some (Fulfilled v) ->
  exists n, promises w' !! q = Some (reaction q n cb (Fulfilled v)).1.1 /\
            relayed q w' = (reaction q n cb (Fulfilled v)).2.
Proof.
  intros [(_ & _ & Hpend)|(s & n & Hp & _ & Hq & Hr)] Hv.
  - apply Hpend in Hv. discriminate.
  - rewrite Hp in Hv. injection Hv as ->. eauto.
Qed.

(** C9.  A method called through the forwarder, and [getObject] of the
    manager alike, first take the promise [p] of [client()]; the caller
    receives a promise [q] created after it.  At every later moment: if [p]
    is rejected with an error, [q] is rejected with the same error and no
    storage method was called for [q]; and any storage method called for
    [q] was called on the client that fulfilled [p].  The operation calls
    [client()] once: [q] is the last promise it makes, and as long as only
    requests end and no caller calls, no promise is made.  If [p] is
    fulfilled with a value that is no client (the role was absent), no
    storage method is called for [q] either, but [q] is not rejected with
    a cause of [p], which has none: the [q] of a method called through
    the forwarder holds what calling that method on the value gives, and
    the [q] of [getObject] is fulfilled with that same value. *)
Theorem forwarder_relays_failure
    (w : World) (now : Z) (sKey : string) (args : list Value)
    (bucket key : string) (cb : Value) (evs : list Event) :
  reachable w ->
  isAFunction sKey = true ->
  exists p q,
    (client now w).1 = Some p /\
    (proxy_apply now sKey args w).1 = Some q /\
    (getObject now bucket key cb w).1 = Some q /\
    p < q /\
    (let w' := run (step w (Proxy_call now sKey args)) evs in
     (forall e, promises w' !! p = Some (Rejected e) ->
                promises w' !! q = Some (Rejected e) /\ relayed q w' = []) /\
     (forall i, In i (relayed q w') ->
                promises w' !! p = Some (Fulfilled (VClient (receiver i)))) /\
     (forallb is_response evs = true -> length (promises w') = S q) /\
     (forall v, promises w' !! p = Some (Fulfilled v) ->
                (forall c, v <> VClient c) ->
                promises w' !! q = Some (of_outcome (Value_apply v sKey args)) /\
                relayed q w' = [])) /\
    (let w' := run (step w (Call_getObject now bucket key cb)) evs in
     (forall e, promises w' !! p = Some (Rejected e) ->
                promises w' !! q = Some (Rejected e) /\ relayed q w' = []) /\
     (forall i, In i (relayed q w') ->
                promises w' !! p = Some (Fulfilled (VClient (receiver i)))) /\
     (forallb is_response evs = true -> length (promises w') = S q) /\
     (forall v, promises w' !! p = Some (Fulfilled v) ->
                truthy v = false ->
                promises w' !! q = Some (Fulfilled v) /\ relayed q w' = [])).
Proof.
  intros Hr Hf.
  destruct (reachable_client w now Hr) as [p Hp].
  exists p, (length (promises (client now w).2)).
  split; [exact Hp|].
  split; [unfold proxy_apply; destruct (client now w); simpl in *; now subst|].
  split; [unfold getObject; destruct (client now w); simpl in *; now subst|].
  assert (H1 : handle w (Proxy_call now sKey args) =
               (then_ (client now w).1 (then_apply sKey args) (client now w).2).2).
  { simpl. rewrite Hf. unfold proxy_apply. now destruct (client now w). }
  assert (H2 : handle w (Call_getObject now bucket key cb) =
               (then_ (client now w).1 (then_getObject bucket key cb)
                  (client now w).2).2).
  { simpl. unfold getObject. now destruct (client now w). }
  destruct (forwarded w _ now (then_apply sKey args) p evs Hr
              ltac:(discriminate) Hp H1) as [Hlt Ha].
  destruct (forwarded w _ now (then_getObject bucket key cb) p evs Hr
              ltac:(discriminate) Hp H2) as [_ Hb].
  pose proof (fun v => forwarded_value _ _ _ _ v Ha) as Hav.
  pose proof (fun v => forwarded_value _ _ _ _ v Hb) as Hbv.
  apply forwarded_failure in Ha, Hb. destruct Ha as [Ha1 Ha2], Hb as [Hb1 Hb2].
  split; [exact Hlt|]. split; simpl.
  - split; [exact Ha1|]. split; [exact Ha2|]. split.
    + intros Hall.
      rewrite responses_make_no_promise by trivial.
      now apply (forwarded_length w _ now (then_apply sKey args) p).
    + intros v Hv Hnc. destruct (Hav v Hv) as (n & -> & ->).
      destruct v as [|b|s|c|m]; simpl; try (now split).
      now destruct (Hnc c).
  - split; [exact Hb1|]. split; [exact Hb2|]. split.
    + intros Hall.
      rewrite responses_make_no_promise by trivial.
      now apply (forwarded_length w _ now (then_getObject bucket key cb) p).
    + intros v Hv Hfalse. destruct (Hbv v Hv) as (n & -> & ->).
      destruct v as [|b|s|c|m]; simpl in *; try discriminate;
        try rewrite Hfalse; now split.
Qed.

End Forwarder.

(** On [example_host]: the role listing timed out, and a [getObject] is
    then called through the proxy. *)
Lemma forwarder_relays_failure_witness :
  let w := run (host := example_host) (getMinioClientProxy iam_options)
             [Call_client 5%Z; Fetch_done 0 timed_out] in
  exists p q,
    (client 6%Z w).1 = Some p /\ p < q /\
    promises (step (host := example_host) w
                (Proxy_call 6%Z "getObject" [VString "bucket"; VString "key"]))
      !! q = Some (Rejected (FetchError "network timeout")).
Proof.
  intros w.
  destruct (forwarder_relays_failure (host := example_host) w 6%Z "getObject"
              [VString "bucket"; VString "key"] "bucket" "key" VUndefined [])
    as (p & q & Hp & Hq & _ & Hlt & (Hfail & _ & _) & _).
  - apply reachable_run. constructor.
  - reflexivity.
  - exists p, q. split; [exact Hp|]. split; [exact Hlt|].
    apply Hfail. vm_compute in Hp, Hq. injection Hp as <-. injection Hq as <-.
    reflexivity.
Defined.

(** C9 fails on the code when the resolution gives no client without
    failing: the role listing answers 404, so that the promise of
    [client()] is fulfilled with [false].  The promise of [getObject] is
    then fulfilled with [false], which is no failure, and the method
    called through the proxy fails with the error of calling a method on
    [false], which is no cause of the resolution.  No storage method is
    called. *)
Lemma forwarder_relays_failure_counterexample :
  let w := run (host := example_host) (getMinioClientProxy iam_options)
             [Call_getObject 5%Z "bucket" "key" VUndefined;
              Proxy_call 5%Z "getObject" [VString "bucket"; VString "key"];
              Fetch_done 0 not_found] in
  promises w =
    [Fulfilled (VBool false);
     Fulfilled (VBool false); Fulfilled (VBool false);
     Fulfilled (VBool false);
     Rejected (TypeError "Cannot read property 'apply' of undefined")] /\
  (forall e, promises w !! 1 <> Some (Rejected e)) /\
  (forall e, promises w !! 2 <> Some (Rejected e)) /\
  (forall e, promises w !! 3 <> Some (Rejected e)) /\
  invocations w = [] /\ requests w = [RoleListing].
Proof. vm_compute. repeat split; discriminate. Qed.

(** On [example_host]: the default configuration, after a [getObject] and
    a [client()]. *)
Lemma persistent_client_forever_witness :
  let w := run (host := example_host) (new_MinioClientManager minio_options)
             [Call_getObject 1%Z "bucket" "key" VUndefined; Call_client 2%Z] in
  mode (new_MinioClientManager minio_options) = Persistent /\
  client 3%Z w = (Some 0, w) /\ requests w = [].
Proof.
  intros w. split; [reflexivity|].
  destruct (persistent_client_forever (host := example_host) minio_options
              [Call_getObject 1%Z "bucket" "key" VUndefined; Call_client 2%Z] 3%Z)
    as (H1 & _ & H3 & _).
  - reflexivity.
  - split; assumption.
Defined.

(** ** Requests *)

Section Requests.
Context {host : Host}.

Lemma reaction_getClient q n s :
  settled s = true ->
  reaction q n then_getClient s = (after_role s, creds s, []).
Proof.
  destruct s as [k|src cb|v|e]; simpl; try discriminate; intros _; trivial.
  now destruct (truthy v).
Qed.

Lemma reaction_requests q n cb s :
  settled s = true ->
  (reaction q n cb s).1.2 = [] \/
  (cb = then_getClient /\ (reaction q n cb s).1.2 = creds s).
Proof.
  intros Hs. destruct cb as [|bucket key cb|sKey args|sKey];
    try (left; apply reaction_forward_settled; [discriminate|trivial]).
  right. split; [reflexivity|]. now rewrite reaction_getClient.
Qed.

Lemma fire_requests w j r s :
  sound w -> iamRole (manager w) = Some r ->
  promises w !! r = Some s -> settled s = true ->
  requests (fire w j) = requests w \/
  requests (fire w j) = requests w ++ creds s.
Proof.
  intros Hsound Hr Hrs Hs.
  destruct (fire_cases w j) as [->|(src & cb & s' & Hj & Hsrc & Hs' & ->)];
    [now left|]. simpl.
  destruct (reaction_requests j (length (invocations w)) cb s' Hs')
    as [->|[-> ->]].
  - left. apply app_nil_r.
  - right. apply (sound_getClient w Hsound) in Hj. congruence.
Qed.

Lemma fold_fire_requests l w r s :
  sound w -> iamRole (manager w) = Some r ->
  promises w !! r = Some s -> settled s = true ->
  exists k, requests (fold_left fire l w) =
            requests w ++ concat (replicate k (creds s)).
Proof.
  revert w; induction l as [|j l IH]; intros w Hsound Hr Hrs Hs; simpl.
  - exists 0. simpl. now rewrite app_nil_r.
  - destruct (IH (fire w j)) as [k Hk].
    + now apply fire_sound.
    + now rewrite fire_manager.
    + now apply fire_settled.
    + trivial.
    + rewrite Hk.
      destruct (fire_requests w j r s Hsound Hr Hrs Hs) as [-> | ->].
      * now exists k.
      * exists (S k). simpl. now rewrite <- app_assoc.
Qed.

(** Once the role promise exists, no event makes the code request the role
    listing: before the job queue runs, no request is sent at all. *)
Lemma handle_requests w ev r :
  iamRole (manager w) = Some r ->
  requests (handle w ev) = requests w /\
  iamRole (manager (handle w ev)) = Some r.
Proof.
  intros Hr.
  assert (Hc : forall now, requests (client now w).2 = requests w /\
                           iamRole (manager (client now w).2) = Some r).
  { intros now. destruct (cached now w) eqn:Hc.
    - rewrite client_cached by trivial. now split.
    - rewrite (client_refresh now w r) by trivial. now split. }
  assert (Hop : forall now cb,
            requests (then_ (client now w).1 cb (client now w).2).2 = requests w /\
            iamRole (manager (then_ (client now w).1 cb (client now w).2).2) = Some r).
  { intros now cb. rewrite then_manager. destruct (Hc now) as [H1 H2].
    split; [|trivial]. now destruct (client now w).1. }
  destruct ev as [now|now bucket key cb|now sKey args|now sKey|p out]; simpl.
  - apply Hc.
  - unfold getObject. specialize (Hop now (then_getObject bucket key cb)).
    now destruct (client now w).
  - destruct (isAFunction sKey).
    + unfold proxy_apply. specialize (Hop now (then_apply sKey args)).
      now destruct (client now w).
    + unfold proxy_read. specialize (Hop now (then_get sKey)).
      now destruct (client now w).
  - destruct (isAFunction sKey); [now split|].
    unfold proxy_read. specialize (Hop now (then_get sKey)).
    now destruct (client now w).
  - destruct (deliver_cases p out w)
      as [->|(k & s & e & c & _ & _ & ->)]; now split.
Qed.

Lemma handle_settled w ev q s :
  promises w !! q = Some s -> settled s = true ->
  promises (handle w ev) !! q = Some s.
Proof.
  intros Hq Hs. destruct (handle_evolves w ev) as [He _].
  destruct (He q s Hq) as (p' & Hq' & [->|[[k ->] _]]); [trivial|discriminate].
Qed.

Lemma step_requests w ev r s :
  sound w -> iamRole (manager w) = Some r ->
  promises w !! r = Some s -> settled s = true ->
  exists k, requests (step w ev) = requests w ++ concat (replicate k (creds s)).
Proof.
  intros Hsound Hr Hrs Hs.
  destruct (handle_requests w ev r Hr) as [Hreq Hrole].
  destruct (fold_fire_requests
              (seq 0 (length (promises (handle w ev)))) (handle w ev) r s)
    as [k Hk]; trivial.
  - now apply handle_sound.
  - now apply handle_settled.
  - exists k. unfold step, drain. now rewrite Hk, Hreq.
Qed.

Lemma step_iamRole w ev r :
  iamRole (manager w) = Some r -> iamRole (manager (step w ev)) = Some r.
Proof.
  intros Hr. unfold step, drain. rewrite fold_fire_manager.
  now apply handle_requests.
Qed.

Lemma run_requests w evs r s :
  sound w -> iamRole (manager w) = Some r ->
  promises w !! r = Some s -> settled s = true ->
  iamRole (manager (run w evs)) = Some r /\
  exists k, requests (run w evs) = requests w ++ concat (replicate k (creds s)).
Proof.
  revert w; induction evs as [|ev evs IH]; intros w Hsound Hr Hrs Hs; simpl.
  - split; [trivial|]. exists 0. simpl. now rewrite app_nil_r.
  - destruct (step_requests w ev r s Hsound Hr Hrs Hs) as [k1 Hk1].
    destruct (IH (step w ev)) as [Hrole [k2 Hk2]].
    + now apply step_sound.
    + now apply step_iamRole.
    + now apply (run_settled w [ev]).
    + trivial.
    + split; [trivial|]. exists (k1 + k2).
      rewrite Hk2, Hk1, <- app_assoc. f_equal.
      now rewrite replicate_add, concat_app.
Qed.

Lemma concat_replicate_singleton {A} (x : A) k :
  concat (replicate k [x]) = replicate k x.
Proof. induction k as [|k IH]; simpl; [reflexivity|now rewrite IH]. Qed.

Lemma ready_appended w w1 extra q :
  ordered w -> promises w1 = promises w ++ extra ->
  q < length (promises w) -> ready w1 q = ready w q.
Proof.
  intros Ho Hps Hq. unfold ready. rewrite Hps, lookup_app_l by trivial.
  destruct (promises w !! q) as [[k|src cb|v|e]|] eqn:Hq'; trivial.
  apply Ho in Hq'. now rewrite lookup_app_l by lia.
Qed.

(** A [client()] call that refreshes, in a world where the role promise is
    settled as [s]: the new promise runs its callback at once. *)
Lemma call_refresh w now r s :
  reachable w -> cached now w = false ->
  iamRole (manager w) = Some r ->
  promises w !! r = Some s -> settled s = true ->
  (client now w).1 = Some (length (promises w)) /\
  step w (Call_client now) =
    {| manager := {| options := options (manager w); iamRole := Some r;
                     _client := Some (length (promises w));
                     expiration := expiration (manager w) |};
       promises := promises w ++ [after_role s];
       requests := requests w ++ creds s;
       invocations := invocations w;
       clients := clients w |}.
Proof.
  intros Hreach Hc Hr Hrs Hs.
  pose proof (reachable_sound w Hreach) as Hsound.
  pose proof (reachable_quiescent w Hreach) as Hq.
  unfold step; simpl. rewrite (client_refresh now w r) by trivial.
  split; [reflexivity|]. simpl.
  set (w1 := {| manager := _; promises := promises w ++ _ |}).
  rewrite (drain_youngest w1 (length (promises w))).
  - rewrite (fire_ready w1 _ r then_getClient s); trivial.
    + rewrite reaction_getClient by trivial. unfold react; simpl.
      now rewrite insert_last, app_nil_r.
    + simpl. rewrite lookup_app_r by lia. now rewrite Nat.sub_diag.
    + simpl. now apply lookup_app_l_Some.
  - simpl. rewrite length_app. simpl. lia.
  - intros q Hlt.
    rewrite (ready_appended w w1 [Waiting r then_getClient]); trivial.
    apply (sound_ordered w Hsound).
Qed.

(** C8.  Once the role promise is fulfilled with a role name, it stays the
    manager's role promise with that value whatever happens, and every
    request sent from then on (after failed credentials requests too) is a
    credentials request for that role: the role listing is never requested
    again.  A later [client()] call that refreshes sends exactly one
    request, the credentials request for that role. *)
Theorem role_never_refetched
    (w : World) (r : PromiseId) (role : string) (evs : list Event) :
  reachable w ->
  iamRole (manager w) = Some r ->
  promises w !! r = Some (Fulfilled (VString role)) ->
  role <> "" ->
  let w' := run w evs in
  iamRole (manager w') = Some r /\
  promises w' !! r = Some (Fulfilled (VString role)) /\
  (exists k, requests w' = requests w ++ replicate k (Credentials role)) /\
  (forall now, cached now w' = false ->
     requests (step w' (Call_client now)) = requests w' ++ [Credentials role]).
Proof.
  intros Hreach Hr Hrs Hrole w'.
  destruct (run_requests w evs r _ (reachable_sound w Hreach) Hr Hrs eq_refl)
    as [Hrole' [k Hk]].
  assert (Hrs' : promises w' !! r = Some (Fulfilled (VString role)))
    by now apply run_settled.
  assert (Hcreds : creds (Fulfilled (VString role)) = [Credentials role]).
  { simpl. apply String.eqb_neq in Hrole. now rewrite Hrole. }
  split; [trivial|]. split; [trivial|]. split.
  - exists k. fold w' in Hk. rewrite Hk, Hcreds.
    now rewrite concat_replicate_singleton.
  - intros now Hc.
    destruct (call_refresh w' now r _ (reachable_run w evs Hreach) Hc Hrole'
                Hrs' eq_refl) as [_ ->].
    rewrite <- Hcreds. reflexivity.
Qed.

End Requests.

(** On [example_host]: the role is known and a credentials request has
    failed; the next call asks for credentials only. *)
Lemma role_never_refetched_witness :
  let w := run (host := example_host) (new_MinioClientManager iam_options)
             [Call_client 5%Z; Fetch_done 0 worker_role; Fetch_done 1 timed_out] in
  let w' := run (host := example_host) w [Call_client 6%Z] in
  iamRole (manager w') = Some 0 /\
  promises w' !! 0 = Some (Fulfilled (VString "worker-role")) /\
  (exists k, requests w' = requests w ++ replicate k (Credentials "worker-role")) /\
  (forall now, cached now w' = false ->
     requests (step (host := example_host) w' (Call_client now)) =
     requests w' ++ [Credentials "worker-role"]).
Proof.
  intros w.
  assert (H1 : reachable (host := example_host) w)
    by (apply reachable_run; constructor).
  assert (H2 : iamRole (manager w) = Some 0) by (vm_compute; reflexivity).
  assert (H3 : promises w !! 0 = Some (Fulfilled (VString "worker-role")))
    by (vm_compute; reflexivity).
  assert (H4 : "worker-role" <> "") by discriminate.
  exact (role_never_refetched (host := example_host) w 0 "worker-role"
           [Call_client 6%Z] H1 H2 H3 H4).
Defined.

(** ** The cached client in Dynamic mode *)

Section Dynamic.
Context {host : Host}.

Lemma role_ok_mono w w' :
  role_ok w ->
  iamRole (manager w') = iamRole (manager w) ->
  (forall q s, promises w !! q = Some s -> settled s = true ->
               promises w' !! q = Some s) ->
  role_ok w'.
Proof.
  intros (r & v & Hr & Hrs & Hv) Hm Hps. exists r, v.
  split; [congruence|]. split; [|trivial]. now apply Hps.
Qed.

Lemma client_promise_mono w w' p :
  client_promise w p ->
  promises w' !! p = promises w !! p ->
  (role_ok w -> role_ok w') ->
  client_promise w' p.
Proof.
  unfold client_promise. intros Hc -> Hrole.
  destruct (promises w !! p) as [[k|src cb|v|e]|]; intuition.
Qed.

Lemma fire_dynamic_inv w j :
  sound w -> dynamic_inv w -> dynamic_inv (fire w j).
Proof.
  intros Hsound Hinv p Hp. rewrite fire_manager in Hp.
  specialize (Hinv p Hp).
  assert (Hrole : role_ok w -> role_ok (fire w j)).
  { intros H. apply (role_ok_mono w); trivial.
    - now rewrite fire_manager.
    - intros q s. apply fire_settled. }
  destruct (Nat.eq_dec p j) as [->|Hne];
    [|apply (client_promise_mono w); trivial; now apply fire_other].
  destruct (fire_cases w j) as [Heq|(src & cb & s & Hj & Hsrc & Hs & Heq)].
  { now rewrite Heq. }
  unfold client_promise in Hinv. rewrite Hj in Hinv. subst cb.
  assert (Hnew : promises (fire w j) !! j = Some (after_role s)).
  { rewrite Heq, reaction_getClient by trivial. simpl.
    apply list_lookup_insert_eq. eapply lookup_lt_Some; eauto. }
  unfold client_promise. rewrite Hnew.
  apply (sound_getClient w Hsound) in Hj.
  destruct s as [k|src' cb'|v|e]; simpl in Hs; try discriminate; simpl; trivial.
  destruct (truthy v) eqn:Hv.
  - split; [reflexivity|]. apply Hrole. now exists src, v.
  - congruence.
Qed.

Lemma fold_fire_dynamic_inv l w :
  sound w -> dynamic_inv w -> dynamic_inv (fold_left fire l w).
Proof.
  revert w; induction l as [|j l IH]; intros w Hs Hinv; simpl; [trivial|].
  apply IH; [now apply fire_sound|now apply fire_dynamic_inv].
Qed.

Lemma client_dynamic_inv now w :
  sound w -> dynamic_inv w -> dynamic_inv (client now w).2.
Proof.
  intros Hsound Hinv.
  destruct (cached now w) eqn:Hc.
  { now rewrite client_cached. }
  destruct (iamRole (manager w)) as [r|] eqn:Hr.
  - rewrite (client_refresh now w r) by trivial. intros p [= <-].
    unfold client_promise; simpl.
    rewrite lookup_app_r by lia. now rewrite Nat.sub_diag.
  - rewrite client_first by trivial. intros p [= <-].
    unfold client_promise; simpl.
    rewrite lookup_app_r by lia.
    replace (S (length (promises w)) - length (promises w)) with 1 by lia.
    reflexivity.
Qed.

Lemma then_dynamic_inv (p : option PromiseId) cb w :
  sound w -> dynamic_inv w -> dynamic_inv (then_ p cb w).2.
Proof.
  intros Hsound Hinv. destruct p as [p|]; [|trivial].
  intros c Hc. simpl in Hc. specialize (Hinv c Hc).
  apply (client_promise_mono w); trivial.
  - simpl. apply lookup_app_l. now apply (sound_client w Hsound).
  - intros H. apply (role_ok_mono w); trivial.
    intros q s Hq _. simpl. now apply lookup_app_l_Some.
Qed.

Lemma deliver_dynamic_inv p out w :
  dynamic_inv w -> dynamic_inv (deliver p out w).
Proof.
  intros Hinv c Hc. rewrite deliver__client in Hc. specialize (Hinv c Hc).
  assert (Hrole : role_ok w -> role_ok (deliver p out w)).
  { intros H. apply (role_ok_mono w); trivial.
    - destruct (deliver_cases p out w)
        as [->|(k & s & e & n & _ & _ & ->)]; reflexivity.
    - intros q s. apply (handle_settled w (Fetch_done p out)). }
  destruct (deliver_cases p out w)
    as [Heq|(k & s & e & n & Hp & Hs & Heq)].
  { now rewrite Heq. }
  destruct (Nat.eq_dec c p) as [->|Hne].
  - unfold client_promise in *. rewrite Hp in Hinv. destruct Hinv as [_ Hok].
    assert (Hnew : promises (deliver p out w) !! p = Some s).
    { rewrite Heq. simpl. apply list_lookup_insert_eq.
      eapply lookup_lt_Some; eauto. }
    rewrite Hnew. destruct s; simpl in Hs; try discriminate; auto.
  - apply (client_promise_mono w); trivial.
    rewrite Heq. simpl. now apply list_lookup_insert_ne.
Qed.

Lemma step_dynamic_inv w ev :
  sound w -> dynamic_inv w -> dynamic_inv (step w ev).
Proof.
  intros Hsound Hinv.
  apply fold_fire_dynamic_inv; [now apply handle_sound|].
  assert (Hop : forall now cb,
            dynamic_inv (then_ (client now w).1 cb (client now w).2).2).
  { intros now cb. apply then_dynamic_inv.
    - now apply client_sound.
    - now apply client_dynamic_inv. }
  destruct ev as [now|now bucket key cb|now sKey args|now sKey|p out]; simpl.
  - now apply client_dynamic_inv.
  - unfold getObject. specialize (Hop now (then_getObject bucket key cb)).
    now destruct (client now w).
  - destruct (isAFunction sKey).
    + unfold proxy_apply. specialize (Hop now (then_apply sKey args)).
      now destruct (client now w).
    + unfold proxy_read. specialize (Hop now (then_get sKey)).
      now destruct (client now w).
  - destruct (isAFunction sKey); [trivial|].
    unfold proxy_read. specialize (Hop now (then_get sKey)).
    now destruct (client now w).
  - now apply deliver_dynamic_inv.
Qed.

(** Every world comes from one of the two initializations. *)
Lemma reachable_inv w :
  reachable w -> (exists opts, persistent_inv opts w) \/ dynamic_inv w.
Proof.
  induction 1 as [opts|opts|w ev Hr IH].
  - destruct (new_MinioClientManager_cases opts) as [-> | ->].
    + right. intros p. discriminate.
    + left. exists opts. split; simpl; trivial. repeat constructor.
  - unfold getMinioClientProxy.
    destruct (new_MinioClientManager_cases opts) as [-> | ->].
    + right. intros p. discriminate.
    + left. exists opts. split; simpl; trivial. repeat constructor.
  - destruct IH as [[opts Hp]|Hd].
    + left. exists opts. now apply persistent_step.
    + right. apply step_dynamic_inv; trivial. now apply reachable_sound.
Qed.

Lemma cached_handle_role w p c :
  reachable w -> mode w = Dynamic ->
  _client (manager w) = Some p ->
  promises w !! p = Some (Fulfilled (VClient c)) ->
  role_ok w.
Proof.
  intros Hr Hm Hp Hc.
  destruct (reachable_inv w Hr) as [[opts Hpi]|Hd].
  - unfold mode in Hm. rewrite (pi_manager opts w Hpi) in Hm. discriminate.
  - specialize (Hd p Hp). unfold client_promise in Hd. rewrite Hc in Hd. auto.
Qed.


End Dynamic.



(** ** From the metadata service to the client *)

Section Credentials.
Context {host : Host}.

Lemma deliver_role p resp w :
  promises w !! p = Some (Fetching role_text) ->
  deliver p (Arrived resp) w =
    settle p (Fulfilled (if ok resp then VString (text resp) else VBool false)) w.
Proof. intros Hp. unfold deliver. rewrite Hp. now destruct (ok resp). Qed.

Lemma deliver_failed p k e w :
  promises w !! p = Some (Fetching k) ->
  deliver p (Failed e) w = settle p (Rejected e) w.
Proof. intros Hp. unfold deliver. rewrite Hp. now destruct k. Qed.

Lemma deliver_credentials p resp m w :
  promises w !! p = Some (Fetching json_toClient) ->
  json resp = Some m ->
  deliver p (Arrived resp) w = toClient p m w.
Proof. intros Hp Hm. unfold deliver. now rewrite Hp, Hm. Qed.

(** The end of a request as a step: the promise of its chain is settled as
    [s], and stays so when the job queue has run. *)
Lemma step_settles w p out s :
  promises w !! p = Some (Fetching role_text) \/
  promises w !! p = Some (Fetching json_toClient) ->
  promises (deliver p out w) !! p = Some s -> settled s = true ->
  promises (step w (Fetch_done p out)) !! p = Some s.
Proof.
  intros _ Hp Hs. unfold step, drain; simpl. now apply fold_fire_settled.
Qed.

(** What a promise hung on the role promise [r] becomes in the step that
    settles [r] as [s]. *)
Lemma role_settled w r q out s :
  reachable w ->
  promises w !! q = Some (Waiting r then_getClient) ->
  promises (step w (Fetch_done r out)) !! r = Some s -> settled s = true ->
  promises (step w (Fetch_done r out)) !! q = Some (after_role s).
Proof.
  intros Hr Hq Hrs Hs.
  destruct (step_relay w (Fetch_done r out) q r then_getClient
              (reachable_sound w Hr) Hq)
    as [[Hq1 _]|(s' & n & Hsrc & Hset & Hq1 & _)].
  - pose proof (reachable_quiescent _ (reach_step w (Fetch_done r out) Hr) q)
      as Hnr.
    unfold ready in Hnr. rewrite Hq1, Hrs in Hnr. congruence.
  - rewrite Hrs in Hsrc. injection Hsrc as <-.
    now rewrite reaction_getClient in Hq1.
Qed.


End Credentials.


(** ** Calls made while the role listing is in flight *)

Section Concurrent.
Context {host : Host}.

Lemma dynamic_world opts :
  mode (new_MinioClientManager opts) = Dynamic ->
  new_MinioClientManager opts =
    {| manager := {| options := opts; iamRole := None; _client := None;
                     expiration := Num 0 |};
       promises := []; requests := []; invocations := []; clients := 0 |}.
Proof.
  rewrite init_mode, init_world.
  now destruct (isAmazonEndpoint _ && _).
Qed.

Lemma calls_world_quiescent opts N : quiescent (calls_world opts N).
Proof.
  intros q. unfold ready; simpl. destruct q as [|q]; simpl; [reflexivity|].
  destruct (replicate N (Waiting 0 then_getClient) !! q) as [p|] eqn:Hq;
    [|reflexivity].
  apply lookup_replicate in Hq as [-> _]. reflexivity.
Qed.

Lemma first_call opts now :
  mode (new_MinioClientManager opts) = Dynamic ->
  (client now (new_MinioClientManager opts)).1 = Some 1 /\
  step (new_MinioClientManager opts) (Call_client now) = calls_world opts 1.
Proof.
  intros Hm. rewrite (dynamic_world opts Hm). split; reflexivity.
Qed.

Lemma next_call opts N now :
  (0 <= now)%Z ->
  (client now (calls_world opts (S N))).1 = Some (S (S N)) /\
  step (calls_world opts (S N)) (Call_client now) = calls_world opts (S (S N)).
Proof.
  intros Hnow.
  assert (Hc : cached now (calls_world opts (S N)) = false).
  { unfold cached, num_gt; simpl. apply Z.ltb_ge. lia. }
  unfold step; simpl handle.
  rewrite (client_refresh now _ 0 Hc eq_refl).
  cbn [fst snd calls_world promises manager options expiration requests
       invocations clients length].
  rewrite length_replicate.
  split; [reflexivity|].
  rewrite drain_quiescent_id.
  - unfold calls_world. f_equal.
    rewrite (replicate_S_end (S N)). reflexivity.
  - intros q. pose proof (calls_world_quiescent opts (S (S N)) q) as Hq.
    unfold ready in *. cbn [promises calls_world] in Hq.
    rewrite (replicate_S_end (S N)) in Hq. exact Hq.
Qed.

Lemma later_calls opts nows N :
  Forall (fun t => (0 <= t)%Z) nows ->
  run (calls_world opts (S N)) (map Call_client nows) =
  calls_world opts (S N + length nows).
Proof.
  revert N; induction nows as [|now nows IH]; intros N Hall; simpl.
  - now rewrite Nat.add_0_r.
  - apply Forall_cons in Hall as [Hnow Hall].
    destruct (next_call opts N now Hnow) as [_ ->].
    rewrite IH by trivial. f_equal. lia.
Qed.

(** All the callbacks hung on one settled promise run, one after the
    other. *)
Lemma fold_fire_waiters n :
  forall w pre s,
    promises w = pre ++ replicate n (Waiting 0 then_getClient) ->
    pre !! 0 = Some s -> settled s = true ->
    fold_left fire (seq (length pre) n) w =
      {| manager := manager w;
         promises := pre ++ replicate n (after_role s);
         requests := requests w ++ concat (replicate n (creds s));
         invocations := invocations w;
         clients := clients w |}.
Proof.
  induction n as [|n IH]; intros w pre s Hps H0 Hs.
  - simpl in *. rewrite !app_nil_r in *. rewrite <- Hps. now destruct w.
  - simpl seq. simpl fold_left.
    assert (Hq : promises w !! length pre = Some (Waiting 0 then_getClient)).
    { rewrite Hps, lookup_app_r by lia. now rewrite Nat.sub_diag. }
    assert (Hsrc : promises w !! 0 = Some s).
    { rewrite Hps. now apply lookup_app_l_Some. }
    rewrite (fire_ready w _ 0 then_getClient s Hq Hsrc Hs).
    rewrite reaction_getClient by trivial.
    replace (S (length pre)) with (length (pre ++ [after_role s]))
      by (rewrite length_app; simpl; lia).
    rewrite (IH _ (pre ++ [after_role s]) s).
    + unfold react; simpl. rewrite app_nil_r, <- !app_assoc. reflexivity.
    + unfold react; simpl. rewrite Hps.
      rewrite insert_app_r_alt by lia. rewrite Nat.sub_diag. simpl.
      now rewrite <- app_assoc.
    + now apply lookup_app_l_Some.
    + trivial.
Qed.

Lemma role_outcome_settled out : settled (role_outcome out) = true.
Proof. now destruct out. Qed.

Lemma listing_ends opts N out :
  step (calls_world opts N) (Fetch_done 0 out) =
    {| manager := manager (calls_world opts N);
       promises := role_outcome out ::
                   replicate N (after_role (role_outcome out));
       requests := RoleListing :: concat (replicate N (creds (role_outcome out)));
       invocations := [];
       clients := 0 |}.
Proof.
  unfold step; simpl handle.
  assert (Hd : deliver 0 out (calls_world opts N) =
               settle 0 (role_outcome out) (calls_world opts N)).
  { destruct out as [resp|e]; [|reflexivity].
    unfold deliver; simpl. now destruct (ok resp). }
  rewrite Hd. unfold drain, settle, set_promises, calls_world. simpl.
  rewrite length_replicate.
  rewrite fire_not_ready.
  2:{ unfold ready; simpl. now destruct out. }
  rewrite (fold_fire_waiters N _ [role_outcome out] (role_outcome out));
    try reflexivity.
  apply role_outcome_settled.
Qed.

Lemma concat_replicate_nil {A} k : concat (replicate k (@nil A)) = [].
Proof. induction k as [|k IH]; simpl; trivial. Qed.

Lemma no_waiting_quiescent w :
  Forall (fun p => waiting p = false) (promises w) -> quiescent w.
Proof.
  intros Hall q. unfold ready.
  destruct (promises w !! q) as [p|] eqn:Hq; [|reflexivity].
  eapply Forall_lookup_1 in Hall; eauto.
  destruct p; simpl in Hall; congruence.
Qed.

(** The calls made so far, one after the other, from the initialization. *)
Lemma calls_run opts now nows :
  mode (new_MinioClientManager opts) = Dynamic ->
  Forall (fun t => (0 <= t)%Z) nows ->
  run (new_MinioClientManager opts) (map Call_client (now :: nows)) =
  calls_world opts (S (length nows)).
Proof.
  intros Hm Hall. simpl.
  destruct (first_call opts now Hm) as [_ ->].
  now rewrite later_calls.
Qed.

(** C1, as the code has it.  [N] calls of [client()] arrive on a manager in
    Dynamic mode before the role listing ends.  One role listing was
    requested, and the call of rank [k] holds the promise [k], which waits
    on the role promise.  When the listing gives a role name, one
    credentials request is sent for each call, [N] in all, and each call
    is settled by the answer to its own request: a failure of one leaves
    the others pending.  When the listing fails or gives no role, no
    credentials request is sent and the [N] promises are settled alike. *)
Theorem concurrent_calls
    (opts : ClientOptions) (now : Z) (nows : list Z) (out : FetchOutcome) :
  mode (new_MinioClientManager opts) = Dynamic ->
  Forall (fun t => (0 <= t)%Z) nows ->
  let N := S (length nows) in
  let w := run (new_MinioClientManager opts) (map Call_client (now :: nows)) in
  let w1 := step w (Fetch_done 0 out) in
  requests w = [RoleListing] /\
  promises w = Fetching role_text :: replicate N (Waiting 0 then_getClient) /\
  (forall k t,
     (now :: nows) !! k = Some t ->
     (client t (run (new_MinioClientManager opts)
                  (map Call_client (take k (now :: nows))))).1 = Some (S k)) /\
  match out with
  | Arrived resp =>
      if ok resp && negb (String.eqb (text resp) "")
      then
        requests w1 = RoleListing :: replicate N (Credentials (text resp)) /\
        promises w1 =
          Fulfilled (VString (text resp)) :: replicate N (Fetching json_toClient) /\
        (forall k e,
           1 <= k <= N ->
           promises (step w1 (Fetch_done k (Failed e))) =
             <[k := Rejected e]> (promises w1))
      else
        requests w1 = [RoleListing] /\
        promises w1 =
          replicate (S N)
            (Fulfilled (if ok resp then VString (text resp) else VBool false))
  | Failed e =>
      requests w1 = [RoleListing] /\
      promises w1 = replicate (S N) (Rejected e)
  end.
Proof.
  intros Hm Hall N w w1.
  assert (Hw : w = calls_world opts N) by now apply calls_run.
  split; [now rewrite Hw|]. split; [now rewrite Hw|]. split.
  { intros k t Hk. destruct k as [|k]; simpl in Hk.
    - simpl. now apply first_call.
    - assert (Hlt : k < length nows) by (eapply lookup_lt_Some; eauto).
      change (take (S k) (now :: nows)) with (now :: take k nows).
      rewrite calls_run; trivial; [|now apply Forall_take].
      rewrite length_take, Nat.min_l by lia.
      apply next_call. eapply Forall_lookup_1 in Hall; eauto. }
  assert (Hw1 : w1 = step (calls_world opts N) (Fetch_done 0 out))
    by (unfold w1; now rewrite Hw).
  rewrite listing_ends in Hw1. clearbody w1 w N.
  destruct out as [resp|e];
    [|rewrite Hw1; simpl; now rewrite concat_replicate_nil].
  unfold role_outcome in Hw1.
  destruct (ok resp) eqn:Hok; simpl in Hw1 |- *.
  2:{ rewrite Hw1; simpl. now rewrite concat_replicate_nil. }
  destruct (String.eqb (text resp) "") eqn:Htext; simpl in Hw1 |- *.
  { rewrite Hw1; simpl. now rewrite concat_replicate_nil. }
  assert (Hreq : requests w1 = RoleListing :: replicate N (Credentials (text resp))).
  { rewrite Hw1; simpl. now rewrite concat_replicate_singleton. }
  assert (Hps : promises w1 =
                Fulfilled (VString (text resp)) ::
                replicate N (Fetching json_toClient)) by now rewrite Hw1.
  split; [trivial|]. split; [trivial|].
  intros k e Hk. unfold step; simpl handle.
  assert (Hentry : promises w1 !! k = Some (Fetching json_toClient)).
  { rewrite Hps. destruct k as [|k]; [lia|]. simpl.
    apply lookup_replicate_2. lia. }
  rewrite (deliver_failed k _ e w1 Hentry).
  rewrite drain_quiescent_id; [reflexivity|].
  apply no_waiting_quiescent. simpl. apply Forall_insert; [|reflexivity].
  rewrite Hps. constructor; [reflexivity|].
  apply Forall_replicate. reflexivity.
Qed.

End Concurrent.

(** On [example_host]: three calls, then the role name arrives. *)
Lemma concurrent_calls_witness :
  let w := run (host := example_host) (new_MinioClientManager iam_options)
             (map Call_client [5%Z; 5%Z; 6%Z]) in
  let w1 := step (host := example_host) w (Fetch_done 0 worker_role) in
  requests w = [RoleListing] /\
  requests w1 = RoleListing :: replicate 3 (Credentials "worker-role") /\
  promises w1 =
    Fulfilled (VString "worker-role") :: replicate 3 (Fetching json_toClient).
Proof.
  intros w w1.
  assert (H1 : mode (new_MinioClientManager iam_options) = Dynamic)
    by reflexivity.
  assert (H2 : Forall (fun t => (0 <= t)%Z) [5%Z; 6%Z])
    by (repeat constructor; lia).
  destruct (concurrent_calls (host := example_host) iam_options 5%Z [5%Z; 6%Z]
              worker_role H1 H2) as (Hreq & _ & _ & Hreq1 & Hps1 & _).
  split; [exact Hreq|]. split; [exact Hreq1|exact Hps1].
Defined.

(** C1 fails on the code: two calls arrive before the role listing ends,
    and two credentials requests are sent; the two calls need not end
    alike, here the first obtains a client and the second fails. *)
Lemma concurrent_calls_counterexample :
  let w := run (host := example_host) (new_MinioClientManager iam_options)
             [Call_client 5%Z; Call_client 5%Z; Fetch_done 0 worker_role] in
  let w' := run (host := example_host) w
              [Fetch_done 1 credentials_body; Fetch_done 2 timed_out] in
  requests w =
    [RoleListing; Credentials "worker-role"; Credentials "worker-role"] /\
  promises w' !! 1 =
    Some (Fulfilled (VClient
      {| instance := 0;
         client_options :=
           {| endPoint := "s3.amazonaws.com"; accessKey := Some "AK1";
              secretKey := Some "SK1"; useSSL := None; port := None;
              region := None; sessionToken := Some "TK1" |} |})) /\
  promises w' !! 2 = Some (Rejected (FetchError "network timeout")).
Proof. vm_compute. repeat split. Qed.

(** ** A role listing that gives no role *)

Section Absent.
Context {host : Host}.

Lemma listing_failed_outcome out :
  listing_failed out = true ->
  after_role (role_outcome out) = role_outcome out /\
  creds (role_outcome out) = [].
Proof.
  destruct out as [resp|e]; simpl; [|now split].
  destruct (ok resp); [discriminate|now split].
Qed.

Lemma deliver_listing r out w :
  promises w !! r = Some (Fetching role_text) ->
  deliver r out w = settle r (role_outcome out) w.
Proof.
  intros Hr. destruct out as [resp|e].
  - now apply deliver_role.
  - now apply (deliver_failed r role_text).
Qed.

Lemma listing_step w r out :
  reachable w ->
  iamRole (manager w) = Some r ->
  promises w !! r = Some (Fetching role_text) ->
  let w1 := step w (Fetch_done r out) in
  reachable w1 /\ iamRole (manager w1) = Some r /\
  promises w1 !! r = Some (role_outcome out) /\
  exists k, requests w1 = requests w ++ concat (replicate k (creds (role_outcome out))).
Proof.
  intros Hr Hrole Hrs w1.
  assert (Hlt : r < length (promises w)) by (eapply lookup_lt_Some; eauto).
  split; [now constructor|]. split; [now apply step_iamRole|].
  assert (Hd : promises (deliver r out w) !! r = Some (role_outcome out)).
  { rewrite deliver_listing by trivial. simpl. now apply list_lookup_insert_eq. }
  split.
  - apply step_settles; [now left|exact Hd|apply role_outcome_settled].
  - destruct (fold_fire_requests
                (seq 0 (length (promises (deliver r out w))))
                (deliver r out w) r (role_outcome out)) as [k Hk].
    + apply (handle_sound w (Fetch_done r out)), reachable_sound, Hr.
    + apply (handle_requests w (Fetch_done r out) r Hrole).
    + exact Hd.
    + apply role_outcome_settled.
    + exists k. unfold w1, step, drain. simpl handle. rewrite Hk.
      f_equal. apply (handle_requests w (Fetch_done r out) r Hrole).
Qed.

(** C2, as the code has it.  The role listing, in flight, fails, times out
    or answers without success.  The calls that wait on it are rejected
    with the error of [fetch], or fulfilled with [false] when there was an
    answer.  The role promise keeps that outcome: at any later moment it
    is still the manager's role promise, no request whatever has been
    sent since, and a call that refreshes sends no request and is settled
    with the same outcome at once. *)
Theorem failed_listing_is_kept
    (w : World) (r : PromiseId) (out : FetchOutcome)
    (evs : list Event) (now : Z) :
  reachable w ->
  iamRole (manager w) = Some r ->
  promises w !! r = Some (Fetching role_text) ->
  listing_failed out = true ->
  let s := match out with
           | Failed e => Rejected e
           | Arrived _ => Fulfilled (VBool false)
           end in
  let w1 := step w (Fetch_done r out) in
  let w2 := run w1 evs in
  (forall q, promises w !! q = Some (Waiting r then_getClient) ->
             promises w1 !! q = Some s) /\
  iamRole (manager w2) = Some r /\
  promises w2 !! r = Some s /\
  requests w2 = requests w /\
  (cached now w2 = false ->
   (client now w2).1 = Some (length (promises w2)) /\
   promises (step w2 (Call_client now)) = promises w2 ++ [s] /\
   requests (step w2 (Call_client now)) = requests w).
Proof.
  intros Hr Hrole Hrs Hfail s w1 w2.
  assert (Hs : s = role_outcome out).
  { unfold s. destruct out as [resp|e]; simpl in *; [|reflexivity].
    now destruct (ok resp). }
  rewrite Hs. clear Hs s. subst w2 w1.
  set (w1 := step w (Fetch_done r out)).
  destruct (listing_failed_outcome out Hfail) as [Hafter Hcreds].
  destruct (listing_step w r out Hr Hrole Hrs) as (Hr1 & Hrole1 & Hrs1 & k1 & Hreq1).
  fold w1 in Hr1, Hrole1, Hreq1.
  rewrite Hcreds, concat_replicate_nil, app_nil_r in Hreq1.
  assert (Hrs1' : promises w1 !! r = Some (role_outcome out)) by exact Hrs1.
  destruct (run_requests w1 evs r _ (reachable_sound w1 Hr1) Hrole1 Hrs1'
              (role_outcome_settled out)) as [Hrole2 [k2 Hreq2]].
  set (w2 := run w1 evs) in *.
  rewrite Hcreds, concat_replicate_nil, app_nil_r, Hreq1 in Hreq2.
  assert (Hrs2 : promises w2 !! r = Some (role_outcome out))
    by (apply run_settled; [trivial|apply role_outcome_settled]).
  split.
  { intros q Hq. unfold w1.
    rewrite (role_settled w r q out _ Hr Hq Hrs1 (role_outcome_settled out)).
    now rewrite Hafter. }
  split; [trivial|]. split; [trivial|]. split; [trivial|].
  intros Hc.
  destruct (call_refresh w2 now r _ (reachable_run w1 evs Hr1) Hc Hrole2 Hrs2
              (role_outcome_settled out)) as [H1 ->].
  split; [exact H1|]. simpl. rewrite Hafter, Hcreds, app_nil_r.
  now split.
Qed.

Lemma client_refreshing now w :
  cached now w = false ->
  exists r p,
    iamRole (manager (client now w).2) = Some r /\
    (client now w).1 = Some p /\
    promises (client now w).2 !! p = Some (Waiting r then_getClient).
Proof.
  intros Hc. destruct (iamRole (manager w)) as [r|] eqn:Hr.
  - rewrite (client_refresh now w r) by trivial. simpl.
    exists r, (length (promises w)). split; [reflexivity|]. split; [reflexivity|].
    rewrite lookup_app_r by lia. now rewrite Nat.sub_diag.
  - rewrite client_first by trivial. simpl.
    exists (length (promises w)), (S (length (promises w))).
    split; [reflexivity|]. split; [reflexivity|].
    rewrite lookup_app_r by lia.
    replace (S (length (promises w)) - length (promises w)) with 1 by lia.
    reflexivity.
Qed.

Lemma reaction_getObject_falsy q n bucket key cb v :
  truthy v = false ->
  reaction q n (then_getObject bucket key cb) (Fulfilled v) = (Fulfilled v, [], []).
Proof.
  destruct v as [|b|s|c|m]; simpl; try discriminate; trivial.
  - now intros ->.
  - now intros ->.
Qed.

(** C3, as the code has it.  A [getObject] makes [client()] refresh: [r]
    is the role promise, [p] the promise of [client()] and [q] the promise
    given to the caller.  At any later moment, if the role listing gave no
    role ([r] is fulfilled with [false] or with the empty string), then
    [p] and [q] are fulfilled with that same value; neither is rejected,
    and no storage method was called for [q]. *)
Theorem absent_role_resolves
    (w : World) (now : Z) (bucket key : string) (cb : Value)
    (evs : list Event) :
  reachable w ->
  cached now w = false ->
  exists r p q,
    iamRole (manager (client now w).2) = Some r /\
    (client now w).1 = Some p /\
    (getObject now bucket key cb w).1 = Some q /\
    let w' := run (step w (Call_getObject now bucket key cb)) evs in
    forall v,
      promises w' !! r = Some (Fulfilled v) -> truthy v = false ->
      promises w' !! p = Some (Fulfilled v) /\
      promises w' !! q = Some (Fulfilled v) /\
      relayed q w' = [].
Proof.
  intros Hr Hc.
  destruct (client_refreshing now w Hc) as (r & p & Hrole & Hp & Hpw).
  exists r, p, (length (promises (client now w).2)).
  split; [exact Hrole|]. split; [exact Hp|].
  split; [unfold getObject; destruct (client now w); simpl in *; now subst|].
  set (ev := Call_getObject now bucket key cb).
  assert (Hh : handle w ev =
               (then_ (client now w).1 (then_getObject bucket key cb)
                  (client now w).2).2).
  { simpl. unfold getObject. now destruct (client now w). }
  assert (Hp0 : promises (handle w ev) !! p = Some (Waiting r then_getClient)).
  { rewrite Hh, Hp. simpl. now apply lookup_app_l_Some. }
  intros w' v Hv Hfalsy.
  assert (Hpv : promises w' !! p = Some (Fulfilled v)).
  { destruct (relay_from_handle w ev evs p r then_getClient Hr Hp0)
      as [(_ & _ & Hpend)|(s & n & p1 & Hsrc & Hset & Hq1 & Hp1 & _)].
    - apply Hpend in Hv. discriminate.
    - fold w' in Hsrc, Hq1. rewrite Hv in Hsrc. injection Hsrc as <-.
      rewrite reaction_getClient in Hp1 by trivial. simpl in Hp1.
      rewrite Hfalsy in Hp1.
      now rewrite (progress_settled _ _ Hp1 eq_refl) in Hq1. }
  split; [exact Hpv|].
  destruct (forwarded w ev now (then_getObject bucket key cb) p evs Hr
              ltac:(discriminate) Hp Hh)
    as [_ [(_ & _ & Hpend)|(s & n & Hsrc & Hset & Hq1 & Hr1)]].
  - apply Hpend in Hpv. discriminate.
  - fold w' in Hsrc, Hq1, Hr1. rewrite Hpv in Hsrc. injection Hsrc as <-.
    rewrite reaction_getObject_falsy in Hq1, Hr1 by trivial.
    now split.
Qed.

End Absent.

(** On [example_host]: the role listing of the first call times out. *)
Lemma failed_listing_is_kept_witness :
  let w := step (host := example_host) (new_MinioClientManager iam_options)
             (Call_client 5%Z) in
  let s := Rejected (FetchError "network timeout") in
  let w1 := step (host := example_host) w (Fetch_done 0 timed_out) in
  let w2 := run (host := example_host) w1 [Call_client 6%Z] in
  (forall q, promises w !! q = Some (Waiting 0 then_getClient) ->
             promises w1 !! q = Some s) /\
  iamRole (manager w2) = Some 0 /\
  promises w2 !! 0 = Some s /\
  requests w2 = requests w /\
  (cached 7%Z w2 = false ->
   (client 7%Z w2).1 = Some (length (promises w2)) /\
   promises (step (host := example_host) w2 (Call_client 7%Z)) =
     promises w2 ++ [s] /\
   requests (step (host := example_host) w2 (Call_client 7%Z)) = requests w).
Proof.
  intros w.
  assert (H1 : reachable (host := example_host) w) by (repeat constructor).
  assert (H2 : iamRole (manager w) = Some 0) by (vm_compute; reflexivity).
  assert (H3 : promises w !! 0 = Some (Fetching role_text))
    by (vm_compute; reflexivity).
  exact (failed_listing_is_kept (host := example_host) w 0 timed_out
           [Call_client 6%Z] 7%Z H1 H2 H3 eq_refl).
Defined.

(** C2 fails on the code: after the role listing has timed out, the next
    calls request nothing, and fail with the error of the first listing;
    and a listing answered without success makes the call end with the
    value [false], without failure. *)
Lemma failed_listing_counterexample :
  let w := run (host := example_host) (new_MinioClientManager iam_options)
             [Call_client 5%Z; Fetch_done 0 timed_out;
              Call_client 6%Z; Call_client 7%Z] in
  let w' := run (host := example_host) (new_MinioClientManager iam_options)
              [Call_client 5%Z; Fetch_done 0 not_found] in
  requests w = [RoleListing] /\
  promises w = replicate 4 (Rejected (FetchError "network timeout")) /\
  promises w' !! 1 = Some (Fulfilled (VBool false)).
Proof. vm_compute. repeat split. Qed.

(** On [example_host]: a [getObject] on a fresh manager, the role listing
    answering 404. *)
Lemma absent_role_resolves_witness :
  let w := new_MinioClientManager iam_options in
  let w' := run (host := example_host)
              (step (host := example_host) w
                 (Call_getObject 5%Z "bucket" "key" VUndefined))
              [Fetch_done 0 not_found] in
  promises w' !! 1 = Some (Fulfilled (VBool false)) /\
  promises w' !! 2 = Some (Fulfilled (VBool false)) /\
  relayed 2 w' = [].
Proof.
  intros w w'.
  assert (H1 : reachable (host := example_host) w) by constructor.
  assert (H2 : cached 5%Z w = false) by reflexivity.
  destruct (absent_role_resolves (host := example_host) w 5%Z "bucket" "key"
              VUndefined [Fetch_done 0 not_found] H1 H2)
    as (r & p & q & Hr & Hp & Hq & H).
  vm_compute in Hr, Hp, Hq.
  injection Hr as <-. injection Hp as <-. injection Hq as <-.
  apply (H (VBool false)); reflexivity.
Defined.

(** C3 fails on the code: the role listing answers 404, and neither the
    promise of [client()] nor the promise of [getObject] is rejected: both
    are fulfilled with [false]. *)
Lemma absent_role_counterexample :
  let w := run (host := example_host) (new_MinioClientManager iam_options)
             [Call_getObject 5%Z "bucket" "key" VUndefined;
              Fetch_done 0 not_found] in
  promises w =
    [Fulfilled (VBool false); Fulfilled (VBool false); Fulfilled (VBool false)] /\
  (forall e, promises w !! 1 <> Some (Rejected e)) /\
  (forall e, promises w !! 2 <> Some (Rejected e)).
Proof. vm_compute. repeat split; discriminate. Qed.

(** * The configuration read from the environment *)

Lemma toLowerCase_one (v : string) : toLowerCase v = "1" <-> v = "1".
Proof.
  rewrite <- (spelling_toLowerCase "1" v) by reflexivity.
  destruct v as [|c [|c' v]]; simpl; split; try tauto; try discriminate.
  - intros [[->| ->] _]; reflexivity.
  - intros [= ->]. tauto.
Qed.

Lemma asBool_spec (v : string) :
  asBool (Some v) = true <-> spelling "true" v \/ v = "1".
Proof.
  rewrite (spelling_toLowerCase "true" v) by reflexivity.
  rewrite <- toLowerCase_one.
  unfold asBool. simpl truthy.
  destruct v as [|c v]; [simpl; intuition discriminate|].
  change (negb (String.eqb (String c v) "")) with true. cbv iota.
  generalize (toLowerCase (String c v)). intros l. unfold indexOf.
  destruct (String.eqb_spec "true" l) as [<-|Hn1].
  { simpl. intuition. }
  destruct (String.eqb_spec "1" l) as [<-|Hn2].
  { simpl. intuition. }
  simpl. split; [intros H; vm_compute in H; discriminate|].
  intros [H|H]; congruence.
Qed.

(** X1.  [useSSL] is true exactly when MINIO_SECURE is set to "true" in any
    mix of cases or to "1"; unset, empty or anything else, it is false. *)
Theorem useSSL_spec (env : IMinioEnv) :
  conf_useSSL (confFromEnv env) = true <->
  exists v, MINIO_SECURE env = Some v /\ (spelling "true" v \/ v = "1").
Proof.
  unfold confFromEnv. cbn [conf_useSSL].
  destruct (MINIO_SECURE env) as [v|]; unfold default.
  - rewrite asBool_spec. split; [eauto|]. now intros (v' & [= <-] & H).
  - split; [intros H; vm_compute in H; discriminate|].
    now intros (v' & [=] & _).
Qed.

Lemma empty_key_Some_default (d : string) (k : option string) :
  d <> "" -> (empty_key (Some (default d k)) = true <-> k = Some "").
Proof.
  intros Hd. destruct k as [s|]; simpl.
  - rewrite String.eqb_eq. split; [now intros ->|now intros [= ->]].
  - rewrite String.eqb_eq. split; [contradiction|discriminate].
Qed.

(** X2.  The manager built from the environment is in Dynamic mode exactly
    when MINIO_END_POINT is set to one of the two Amazon host names, in any
    mix of cases, and MINIO_ACCESS_KEY or MINIO_SECRET_KEY is set to the
    empty string, whatever the port is ([NaN] included).  With the keys
    left unset the defaults apply and the mode is Persistent, on an Amazon
    endpoint too. *)
Theorem env_selects_mode (env : IMinioEnv) :
  mode (new_MinioClientManager (as_ClientOptions (confFromEnv env))) = Dynamic <->
  (exists e, MINIO_END_POINT env = Some e /\
             (spelling "s3.amazonaws.com" e \/
              spelling "s3.cn-north-1.amazonaws.com.cn" e)) /\
  (MINIO_ACCESS_KEY env = Some "" \/ MINIO_SECRET_KEY env = Some "").
Proof.
  rewrite init_mode. simpl.
  rewrite <- (empty_key_Some_default "minio" (MINIO_ACCESS_KEY env))
    by discriminate.
  rewrite <- (empty_key_Some_default "minio123" (MINIO_SECRET_KEY env))
    by discriminate.
  rewrite <- orb_true_iff.
  assert (He : isAmazonEndpoint
                 (toLowerCase (default "minio-service.kubeflow"
                                 (MINIO_END_POINT env))) = true <->
               exists e, MINIO_END_POINT env = Some e /\
                 (spelling "s3.amazonaws.com" e \/
                  spelling "s3.cn-north-1.amazonaws.com.cn" e)).
  { destruct (MINIO_END_POINT env) as [e|]; simpl default.
    - rewrite isAmazonEndpoint_spec.
      rewrite <- !spelling_toLowerCase by reflexivity.
      split; [eauto|]. now intros (e' & [= <-] & H).
    - split; [discriminate|]. now intros (e' & [=] & _). }
  rewrite <- He.
  destruct (isAmazonEndpoint _); destruct (_ || _); simpl;
    intuition congruence.
Qed.

Lemma digits_no_digit (acc : option Z) (s : string) :
  starts_with_digit s = false -> digits acc s = acc.
Proof.
  destruct s as [|c s]; simpl; [reflexivity|].
  now destruct (digit c).
Qed.



Lemma uint_digits (d : uint) :
  forall (acc : option Z) (a : nat) (rest : string),
    default 0%Z acc = Z.of_nat a ->
    starts_with_digit rest = false ->
    d <> Nil ->
    digits acc (NilEmpty.string_of_uint d ++ rest) =
    Some (Z.of_nat (Nat.of_uint_acc d a)).
Proof.
  induction d as [|d IH|d IH|d IH|d IH|d IH|d IH|d IH|d IH|d IH|d IH];
    intros acc a rest Ha Hrest Hd; [contradiction|..];
    simpl NilEmpty.string_of_uint; simpl String.append;
    cbn [digits]; simpl digit; cbv iota; rewrite Ha;
    simpl Nat.of_uint_acc; rewrite Nat.tail_mul_spec;
    (destruct (uint_eq_dec d Nil) as [->|Hne];
     [ simpl; rewrite digits_no_digit by trivial; f_equal; lia
     | apply IH; [simpl; lia|trivial|trivial] ]).
Qed.

Lemma to_uint_nonnil (n : nat) : Nat.to_uint n <> Nil.
Proof.
  rewrite <- (Unsigned.of_to n) at 1. rewrite Unsigned.to_of.
  apply DecimalFacts.unorm_nonnil.
Qed.

Lemma numeral_digits (n : nat) (rest : string) :
  starts_with_digit rest = false ->
  digits None (numeral n ++ rest) = Some (Z.of_nat n).
Proof.
  intros Hrest. unfold numeral.
  pose proof (to_uint_nonnil n) as Hn.
  assert (Hs : NilZero.string_of_uint (Nat.to_uint n) =
               NilEmpty.string_of_uint (Nat.to_uint n))
    by (destruct (Nat.to_uint n); [contradiction|reflexivity..]).
  rewrite Hs, (uint_digits _ None 0 rest eq_refl Hrest Hn).
  change (Nat.of_uint_acc (Nat.to_uint n) 0) with (Nat.of_uint (Nat.to_uint n)).
  now rewrite Unsigned.of_to.
Qed.

(** A numeral begins with a digit. *)
Lemma numeral_head (n : nat) (rest : string) :
  exists c r d, (numeral n ++ rest)%string = String c r /\ digit c = Some d.
Proof.
  unfold numeral. pose proof (to_uint_nonnil n) as Hn.
  destruct (Nat.to_uint n); [contradiction|..]; simpl; eauto.
Qed.


(** X3.  MINIO_PORT set to the decimal numeral of [n], for [n] up to
    2^53, followed by anything that does not begin with a digit, gives the
    port [n]. *)
Theorem port_of_numeral (env : IMinioEnv) (n : nat) (rest : string) :
  (Z.of_nat n <= 2 ^ 53)%Z ->
  MINIO_PORT env = Some (numeral n ++ rest)%string ->
  starts_with_digit rest = false ->
  conf_port (confFromEnv env) = Num (Z.of_nat n).
Proof.
  intros _ Hp Hrest. unfold confFromEnv. cbn [conf_port]. rewrite Hp.
  change (default "9000" (Some (numeral n ++ rest)%string))
    with (numeral n ++ rest)%string.
  destruct (numeral_head n rest) as (c & r & d & Hs & Hd).
  pose proof (numeral_digits n rest Hrest) as Hdig. rewrite Hs in *.
  unfold parseInt.
  destruct c as [[] [] [] [] [] [] [] []]; vm_compute in Hd; try discriminate;
    match goal with
    | |- context [skip_space (String ?c r)] =>
        change (skip_space (String c r)) with (String c r)
    end; cbv beta iota zeta; rewrite Hdig; reflexivity.
Qed.

Lemma port_of_numeral_witness :
  conf_port (confFromEnv
               {| MINIO_END_POINT := None;
                  MINIO_PORT := Some "443/tcp";
                  MINIO_ACCESS_KEY := None; MINIO_SECRET_KEY := None;
                  MINIO_SECURE := None; MINIO_REGION := None |}) = Num 443.
Proof.
  apply (port_of_numeral _ 443 "/tcp"); [vm_compute; discriminate| |];
    reflexivity.
Defined.

(** The no-break space and the byte order mark are skipped as the space
    is. *)
Example parseInt_skips_unicode_space :
  parseInt (String (ascii_of_nat 194) (String (ascii_of_nat 160) " 8080")) =
    Num 8080 /\
  parseInt (String (ascii_of_nat 239) (String (ascii_of_nat 187)
             (String (ascii_of_nat 191) "+80/tcp"))) = Num 80.
Proof. split; reflexivity. Qed.


(** * The log of requests *)

Section Log.
Context {host : Host}.

Lemma fire_requests_role w j r s :
  sound w -> iamRole (manager w) = Some r ->
  promises w !! r = Some s ->
  requests (fire w j) = requests w \/
  requests (fire w j) = requests w ++ creds s.
Proof.
  intros Hsound Hr Hrs.
  destruct (fire_cases w j) as [->|(src & cb & s' & Hj & Hsrc & Hs' & ->)];
    [now left|]. simpl.
  destruct (reaction_requests j (length (invocations w)) cb s' Hs')
    as [->|[-> ->]].
  - left. apply app_nil_r.
  - right. apply (sound_getClient w Hsound) in Hj. congruence.
Qed.

Lemma fire_keeps_role w j r s :
  promises w !! r = Some s -> waiting s = false ->
  promises (fire w j) !! r = Some s.
Proof.
  intros Hrs Hw. destruct (Nat.eq_dec r j) as [->|Hne].
  - rewrite fire_not_ready; [trivial|].
    unfold ready. rewrite Hrs. now destruct s.
  - now rewrite fire_other.
Qed.

Lemma fold_fire_requests_role l w r s :
  sound w -> iamRole (manager w) = Some r ->
  promises w !! r = Some s -> waiting s = false ->
  promises (fold_left fire l w) !! r = Some s /\
  exists k, requests (fold_left fire l w) =
            requests w ++ concat (replicate k (creds s)).
Proof.
  revert w; induction l as [|j l IH]; intros w Hsound Hr Hrs Hw; simpl.
  - split; [trivial|]. exists 0. simpl. now rewrite app_nil_r.
  - destruct (IH (fire w j)) as [Hrs' [k Hk]].
    + now apply fire_sound.
    + now rewrite fire_manager.
    + now apply fire_keeps_role.
    + trivial.
    + split; [trivial|]. rewrite Hk.
      destruct (fire_requests_role w j r s Hsound Hr Hrs) as [-> | ->].
      * now exists k.
      * exists (S k). simpl. now rewrite <- app_assoc.
Qed.

Lemma fold_fire_requests_none l w :
  sound w -> iamRole (manager w) = None ->
  requests (fold_left fire l w) = requests w.
Proof.
  revert w; induction l as [|j l IH]; intros w Hsound Hr; simpl; [trivial|].
  rewrite IH; [|now apply fire_sound|now rewrite fire_manager].
  destruct (fire_cases w j) as [->|(src & cb & s' & Hj & Hsrc & Hs' & ->)];
    [reflexivity|]. simpl.
  destruct (reaction_requests j (length (invocations w)) cb s' Hs')
    as [->|[-> _]]; [apply app_nil_r|].
  apply (sound_getClient w Hsound) in Hj. congruence.
Qed.

(** An event on a manager that has no role promise: it leaves it so and
    requests nothing, or it is the first refresh. *)
Lemma handle_first_refresh w ev :
  iamRole (manager w) = None ->
  (iamRole (manager (handle w ev)) = None /\
   requests (handle w ev) = requests w) \/
  (exists r, iamRole (manager (handle w ev)) = Some r /\
             promises (handle w ev) !! r = Some (Fetching role_text) /\
             requests (handle w ev) = requests w ++ [RoleListing]).
Proof.
  intros Hr.
  assert (Hc : forall now,
            (iamRole (manager (client now w).2) = None /\
             requests (client now w).2 = requests w) \/
            (exists r, iamRole (manager (client now w).2) = Some r /\
               promises (client now w).2 !! r = Some (Fetching role_text) /\
               requests (client now w).2 = requests w ++ [RoleListing])).
  { intros now. destruct (cached now w) eqn:Hc.
    - rewrite client_cached by trivial. now left.
    - rewrite client_first by trivial. right. simpl.
      exists (length (promises w)). split; [reflexivity|]. split; [|reflexivity].
      rewrite lookup_app_r by lia. now rewrite Nat.sub_diag. }
  assert (Hop : forall now cb,
            let w1 := (then_ (client now w).1 cb (client now w).2).2 in
            (iamRole (manager w1) = None /\ requests w1 = requests w) \/
            (exists r, iamRole (manager w1) = Some r /\
               promises w1 !! r = Some (Fetching role_text) /\
               requests w1 = requests w ++ [RoleListing])).
  { intros now cb w1. unfold w1. rewrite then_manager.
    destruct (Hc now) as [[H1 H2]|(r & H1 & H2 & H3)].
    - left. split; [trivial|]. now destruct (client now w).1.
    - right. exists r. split; [trivial|].
      destruct (client now w).1; simpl; [|now split].
      split; [now apply lookup_app_l_Some|trivial]. }
  destruct ev as [now|now bucket key cb|now sKey args|now sKey|p out]; simpl.
  - apply Hc.
  - unfold getObject. specialize (Hop now (then_getObject bucket key cb)).
    now destruct (client now w).
  - destruct (isAFunction sKey).
    + unfold proxy_apply. specialize (Hop now (then_apply sKey args)).
      now destruct (client now w).
    + unfold proxy_read. specialize (Hop now (then_get sKey)).
      now destruct (client now w).
  - destruct (isAFunction sKey); [now left|].
    unfold proxy_read. specialize (Hop now (then_get sKey)).
    now destruct (client now w).
  - left. destruct (deliver_cases p out w)
      as [->|(k & s & e & c & _ & _ & ->)]; now split.
Qed.

Lemma step_requests_inv w ev :
  sound w -> requests_inv w -> requests_inv (step w ev).
Proof.
  intros Hsound Hinv. unfold requests_inv in *.
  pose proof (handle_sound w ev Hsound) as Hs0.
  unfold step, drain. rewrite fold_fire_manager.
  destruct (iamRole (manager w)) as [r|] eqn:Hr.
  - destruct Hinv as (s & k & Hrs & Hw & Hreq).
    destruct (handle_requests w ev r Hr) as [Hreq0 Hr0]. rewrite Hr0.
    destruct (handle_evolves w ev) as [He _].
    destruct (He r s Hrs) as (s0 & Hrs0 & Hs0').
    assert (Hs0k : waiting s0 = false /\
              exists k0, requests w = RoleListing :: concat (replicate k0 (creds s0))).
    { destruct Hs0' as [->|[[c ->] Hset]]; [eauto|].
      split; [now destruct s0|]. exists 0. simpl in Hreq.
      now rewrite concat_replicate_nil in Hreq. }
    destruct Hs0k as [Hw0 [k0 Hreq']].
    destruct (fold_fire_requests_role
                (seq 0 (length (promises (handle w ev)))) (handle w ev) r s0
                Hs0 Hr0 Hrs0 Hw0) as [Hrs1 [k1 Hk1]].
    exists s0, (k0 + k1). split; [trivial|]. split; [trivial|].
    rewrite Hk1, Hreq0, Hreq', replicate_add, concat_app. reflexivity.
  - destruct (handle_first_refresh w ev Hr) as [[Hr0 Hreq0]|(r & Hr0 & Hrs0 & Hreq0)].
    + rewrite Hr0. rewrite fold_fire_requests_none by trivial. congruence.
    + rewrite Hr0.
      destruct (fold_fire_requests_role
                  (seq 0 (length (promises (handle w ev)))) (handle w ev) r
                  (Fetching role_text) Hs0 Hr0 Hrs0 eq_refl) as [Hrs1 [k1 Hk1]].
      exists (Fetching role_text), 0. split; [trivial|]. split; [reflexivity|].
      rewrite Hk1, Hreq0, Hinv. simpl. now rewrite concat_replicate_nil.
Qed.

Lemma reachable_requests_inv w : reachable w -> requests_inv w.
Proof.
  induction 1 as [opts|opts|w ev Hr IH].
  - unfold requests_inv.
    destruct (new_MinioClientManager_cases opts) as [-> | ->]; reflexivity.
  - unfold requests_inv, getMinioClientProxy.
    destruct (new_MinioClientManager_cases opts) as [-> | ->]; reflexivity.
  - apply step_requests_inv; [now apply reachable_sound|trivial].
Qed.

(** X5.  Whatever the calls and the answers were, the requests sent are:
    none as long as no refresh took place; then one role listing, followed
    by credentials requests only if the listing has answered with a role
    name, all of them for that role.  The role listing is requested at
    most once, and no credentials request is sent before it gave a role. *)
Theorem requests_shape (w : World) :
  reachable w ->
  match iamRole (manager w) with
  | None => requests w = []
  | Some r =>
      match promises w !! r with
      | Some (Fulfilled v) =>
          if truthy v
          then exists k,
                 requests w = RoleListing :: replicate k (Credentials (String_of v))
          else requests w = [RoleListing]
      | Some (Fetching _) | Some (Rejected _) => requests w = [RoleListing]
      | Some (Waiting _ _) | None => False
      end
  end.
Proof.
  intros Hr. pose proof (reachable_requests_inv w Hr) as Hinv.
  unfold requests_inv in Hinv.
  destruct (iamRole (manager w)) as [r|]; [|trivial].
  destruct Hinv as (s & k & -> & Hw & Hreq).
  destruct s as [c|src cb|v|e]; simpl in *; try discriminate;
    try (now rewrite concat_replicate_nil in Hreq).
  destruct (truthy v).
  - exists k. now rewrite concat_replicate_singleton in Hreq.
  - now rewrite concat_replicate_nil in Hreq.
Qed.

End Log.

(** On [example_host]: two calls, the role, one answer, a call after the
    credentials have expired. *)
Lemma requests_shape_witness :
  let w := run (host := example_host) (getMinioClientProxy iam_options)
             [Call_client 5%Z; Call_getObject 5%Z "bucket" "key" VUndefined;
              Fetch_done 0 worker_role; Fetch_done 1 credentials_body;
              Call_client 4070908800001%Z] in
  exists k, requests w = RoleListing :: replicate k (Credentials "worker-role").
Proof.
  intros w.
  assert (Hr : reachable (host := example_host) w)
    by (apply reachable_run; constructor).
  pose proof (requests_shape (host := example_host) w Hr) as H.
  assert (H1 : iamRole (manager w) = Some 0) by (vm_compute; reflexivity).
  assert (H2 : promises w !! 0 = Some (Fulfilled (VString "worker-role")))
    by (vm_compute; reflexivity).
  rewrite H1, H2 in H. exact H.
Defined.

(** * Calls served from the cached promise *)

Section Cached.
Context {host : Host}.

(** A forwarder called while the cached promise is returned, that promise
    being settled: the callback runs in the same turn of the job queue. *)
Lemma forward_on_cached w now cb p s :
  reachable w -> cached now w = true ->
  _client (manager w) = Some p ->
  promises w !! p = Some s -> settled s = true ->
  cb <> then_getClient ->
  let r := reaction (length (promises w)) (length (invocations w)) cb s in
  drain (then_ (client now w).1 cb (client now w).2).2 =
    answered w r.1.1 r.2.
Proof.
  intros Hr Hc Hp Hs Hset Hcb r. rewrite client_cached by trivial.
  rewrite Hp. simpl.
  set (w1 := set_promises (promises w ++ [Waiting p cb]) w).
  assert (Hlen : length (promises w1) = S (length (promises w))).
  { simpl. rewrite length_app. simpl. lia. }
  assert (Hlt : p < length (promises w)).
  { apply lookup_lt_is_Some. eauto. }
  rewrite (drain_youngest w1 (length (promises w)) Hlen).
  - rewrite (fire_ready w1 (length (promises w)) p cb s); trivial.
    + unfold react, answered. simpl. fold r.
      rewrite insert_last.
      destruct (reaction_forward_settled (length (promises w))
                  (length (invocations w)) cb s Hcb Hset) as [_ Hreq].
      fold r in Hreq. rewrite Hreq, app_nil_r. reflexivity.
    + simpl. rewrite lookup_app_r by lia. now rewrite Nat.sub_diag.
    + simpl. now rewrite lookup_app_l.
  - intros q Hq.
    rewrite (ready_appended w w1 [Waiting p cb] q); trivial.
    + now apply reachable_quiescent.
    + now apply reachable_sound.
Qed.

Lemma step_getObject w now bucket key cb :
  step w (Call_getObject now bucket key cb) =
  drain (then_ (client now w).1 (then_getObject bucket key cb)
           (client now w).2).2.
Proof. unfold step, handle, getObject. now destruct (client now w). Qed.

Lemma step_proxy_call w now sKey args :
  isAFunction sKey = true ->
  step w (Proxy_call now sKey args) =
  drain (then_ (client now w).1 (then_apply sKey args) (client now w).2).2.
Proof.
  intros Hf. unfold step, handle, proxy_apply. rewrite Hf.
  now destruct (client now w).
Qed.

Lemma step_proxy_get w now sKey :
  isAFunction sKey = false ->
  step w (Proxy_get now sKey) =
  drain (then_ (client now w).1 (then_get sKey) (client now w).2).2.
Proof.
  intros Hf. unfold step, handle, proxy_read. rewrite Hf.
  now destruct (client now w).
Qed.

(** X6.  While [createClient] returns the promise it holds and that
    promise is fulfilled with a client, a method called through the proxy,
    and [getObject] of the manager, are called on that client at once, with
    the arguments of the call ([getObject] with the bucket, the key and the
    callback); the promise returned is settled with what the method
    returned or threw; the manager is unchanged and nothing is
    requested. *)
Theorem cached_client_is_called (w : World) (now : Z) (p : PromiseId)
    (c : Client) :
  reachable w -> cached now w = true ->
  _client (manager w) = Some p ->
  promises w !! p = Some (Fulfilled (VClient c)) ->
  (forall sKey args, isAFunction sKey = true ->
     step w (Proxy_call now sKey args) =
       answered w
         (of_outcome (Client_apply (length (invocations w)) c sKey args))
         [{| receiver := c; method := sKey; arguments := args;
             relayed_to := length (promises w) |}]) /\
  (forall bucket key cb,
     step w (Call_getObject now bucket key cb) =
       answered w
         (of_outcome (Client_apply (length (invocations w)) c "getObject"
                        [VString bucket; VString key; cb]))
         [{| receiver := c; method := "getObject";
             arguments := [VString bucket; VString key; cb];
             relayed_to := length (promises w) |}]).
Proof.
  intros Hr Hc Hp Hs. split.
  - intros sKey args Hf. rewrite step_proxy_call by trivial.
    now rewrite (forward_on_cached w now (then_apply sKey args) p
                   (Fulfilled (VClient c))).
  - intros bucket key cb. rewrite step_getObject.
    now rewrite (forward_on_cached w now (then_getObject bucket key cb) p
                   (Fulfilled (VClient c))).
Qed.

(** X7.  Under the same conditions, reading through the proxy a property
    that is not a function gives a promise settled with the value of that
    property of the cached client, or with the error of reading it: no
    storage method is called and nothing is requested. *)
Theorem cached_property_is_read (w : World) (now : Z) (p : PromiseId)
    (c : Client) (sKey : string) :
  reachable w -> cached now w = true ->
  _client (manager w) = Some p ->
  promises w !! p = Some (Fulfilled (VClient c)) ->
  isAFunction sKey = false ->
  step w (Proxy_get now sKey) =
    answered w (of_outcome (Value_get (VClient c) sKey)) [].
Proof.
  intros Hr Hc Hp Hs Hf. rewrite step_proxy_get by trivial.
  now rewrite (forward_on_cached w now (then_get sKey) p
                 (Fulfilled (VClient c))).
Qed.

(** X8.  While [createClient] returns the promise it holds and that
    promise is rejected, every call through the manager or the proxy fails
    at once with the same error: no storage method is called, nothing is
    requested, and the rejected promise stays in the manager. *)
Theorem cached_failure_is_served (w : World) (now : Z) (p : PromiseId)
    (e : Error) :
  reachable w -> cached now w = true ->
  _client (manager w) = Some p ->
  promises w !! p = Some (Rejected e) ->
  (forall bucket key cb,
     step w (Call_getObject now bucket key cb) = answered w (Rejected e) []) /\
  (forall sKey args, isAFunction sKey = true ->
     step w (Proxy_call now sKey args) = answered w (Rejected e) []) /\
  (forall sKey, isAFunction sKey = false ->
     step w (Proxy_get now sKey) = answered w (Rejected e) []).
Proof.
  intros Hr Hc Hp Hs. repeat split.
  - intros bucket key cb. rewrite step_getObject.
    now rewrite (forward_on_cached w now (then_getObject bucket key cb) p
                   (Rejected e)).
  - intros sKey args Hf. rewrite step_proxy_call by trivial.
    now rewrite (forward_on_cached w now (then_apply sKey args) p
                   (Rejected e)).
  - intros sKey Hf. rewrite step_proxy_get by trivial.
    now rewrite (forward_on_cached w now (then_get sKey) p (Rejected e)).
Qed.

End Cached.

Lemma cached_client_is_called_witness :
  let w := run (host := example_host) (getMinioClientProxy iam_options)
             with_credentials in
  (forall sKey args, isAFunction (Host := example_host) sKey = true ->
     step (host := example_host) w (Proxy_call 6%Z sKey args) =
       answered w
         (of_outcome (Client_apply (Host := example_host)
                        (length (invocations w)) worker_client sKey args))
         [{| receiver := worker_client; method := sKey; arguments := args;
             relayed_to := length (promises w) |}]) /\
  (forall bucket key cb,
     step (host := example_host) w (Call_getObject 6%Z bucket key cb) =
       answered w
         (of_outcome (Client_apply (Host := example_host)
                        (length (invocations w)) worker_client "getObject"
                        [VString bucket; VString key; cb]))
         [{| receiver := worker_client; method := "getObject";
             arguments := [VString bucket; VString key; cb];
             relayed_to := length (promises w) |}]).
Proof.
  intros w.
  assert (Hr : reachable (host := example_host) w)
    by (apply reachable_run; constructor).
  assert (Hc : cached 6%Z w = true) by (vm_compute; reflexivity).
  assert (Hp : _client (manager w) = Some 1) by (vm_compute; reflexivity).
  assert (Hs : promises w !! 1 = Some (Fulfilled (VClient worker_client)))
    by (vm_compute; reflexivity).
  exact (cached_client_is_called (host := example_host) w 6%Z 1 worker_client
           Hr Hc Hp Hs).
Defined.

Lemma cached_property_is_read_witness :
  let w := run (host := example_host) (getMinioClientProxy iam_options)
             with_credentials in
  step (host := example_host) w (Proxy_get 6%Z "region") =
    answered w
      (of_outcome (Value_get (Host := example_host) (VClient worker_client)
                     "region")) [].
Proof.
  intros w.
  assert (Hr : reachable (host := example_host) w)
    by (apply reachable_run; constructor).
  assert (Hc : cached 6%Z w = true) by (vm_compute; reflexivity).
  assert (Hp : _client (manager w) = Some 1) by (vm_compute; reflexivity).
  assert (Hs : promises w !! 1 = Some (Fulfilled (VClient worker_client)))
    by (vm_compute; reflexivity).
  assert (Hf : isAFunction (Host := example_host) "region" = false)
    by (vm_compute; reflexivity).
  exact (cached_property_is_read (host := example_host) w 6%Z 1 worker_client
           "region" Hr Hc Hp Hs Hf).
Defined.

Lemma cached_failure_is_served_witness :
  let w := run (host := example_host) (getMinioClientProxy iam_options)
             second_request_failed in
  let e := FetchError "network timeout" in
  (forall bucket key cb,
     step (host := example_host) w (Call_getObject 6%Z bucket key cb) =
       answered w (Rejected e) []) /\
  (forall sKey args, isAFunction (Host := example_host) sKey = true ->
     step (host := example_host) w (Proxy_call 6%Z sKey args) =
       answered w (Rejected e) []) /\
  (forall sKey, isAFunction (Host := example_host) sKey = false ->
     step (host := example_host) w (Proxy_get 6%Z sKey) =
       answered w (Rejected e) []).
Proof.
  intros w e.
  assert (Hr : reachable (host := example_host) w)
    by (apply reachable_run; constructor).
  assert (Hc : cached 6%Z w = true) by (vm_compute; reflexivity).
  assert (Hp : _client (manager w) = Some 2) by (vm_compute; reflexivity).
  assert (Hs : promises w !! 2 = Some (Rejected e))
    by (vm_compute; reflexivity).
  exact (cached_failure_is_served (host := example_host) w 6%Z 2 e
           Hr Hc Hp Hs).
Defined.

(** * Calls that wait for the client *)

Section Deferred.
Context {host : Host}.

(** X9.  A method called through the proxy is called on the client that
    the promise of [client()] resolves to, whenever that happens: as long
    as that promise is pending the call waits and no storage method is
    called for it; once it is fulfilled with a client, and for ever after,
    the method has been called exactly once, on that client, with the
    arguments of the call, and the promise returned holds what it returned
    or threw. *)
Theorem deferred_call_runs_once (w : World) (now : Z) (sKey : string)
    (args : list Value) (evs : list Event) :
  reachable w -> isAFunction sKey = true ->
  exists p q,
    (client now w).1 = Some p /\
    (proxy_apply now sKey args w).1 = Some q /\
    let w' := run (step w (Proxy_call now sKey args)) evs in
    (forall s, promises w' !! p = Some s -> settled s = false ->
       promises w' !! q = Some (Waiting p (then_apply sKey args)) /\
       relayed q w' = []) /\
    (forall c, promises w' !! p = Some (Fulfilled (VClient c)) ->
       relayed q w' = [{| receiver := c; method := sKey; arguments := args;
                          relayed_to := q |}] /\
       exists n, promises w' !! q =
                 Some (of_outcome (Client_apply n c sKey args))).
Proof.
  intros Hr Hf. destruct (reachable_client w now Hr) as [p Hp].
  exists p, (length (promises (client now w).2)).
  split; [trivial|]. split.
  { unfold proxy_apply. destruct (client now w) as [c w1]. simpl in *.
    now subst c. }
  assert (Hh : handle w (Proxy_call now sKey args) =
               (then_ (client now w).1 (then_apply sKey args)
                  (client now w).2).2).
  { unfold handle, proxy_apply. rewrite Hf. now destruct (client now w). }
  destruct (forwarded w (Proxy_call now sKey args) now (then_apply sKey args)
              p evs Hr ltac:(discriminate) Hp Hh) as [_ Hcases].
  cbv zeta in *.
  destruct Hcases as [(Hq & Hrel & Hpend)|(s & n & Hs & Hset & Hq & Hrel)].
  - split; [now intros|].
    intros c Hc. apply Hpend in Hc. discriminate.
  - split.
    + intros s' Hs' Hset'. congruence.
    + intros c Hc. rewrite Hc in Hs. injection Hs as <-. simpl in *.
      split; [trivial|]. now exists n.
Qed.

End Deferred.

Lemma deferred_call_runs_once_witness :
  let w := getMinioClientProxy iam_options in
  exists p q,
    (client 5%Z w).1 = Some p /\
    (proxy_apply 5%Z "getObject" [] w).1 = Some q /\
    let w' := run (host := example_host)
                (step (host := example_host) w (Proxy_call 5%Z "getObject" []))
                [Fetch_done 0 worker_role; Fetch_done 1 credentials_body] in
    (forall s, promises w' !! p = Some s -> settled s = false ->
       promises w' !! q = Some (Waiting p (then_apply "getObject" [])) /\
       relayed q w' = []) /\
    (forall c, promises w' !! p = Some (Fulfilled (VClient c)) ->
       relayed q w' = [{| receiver := c; method := "getObject";
                          arguments := []; relayed_to := q |}] /\
       exists n, promises w' !! q =
                 Some (of_outcome (Client_apply (Host := example_host) n c
                                     "getObject" []))).
Proof.
  intros w.
  assert (Hr : reachable (host := example_host) w) by constructor.
  assert (Hf : isAFunction (Host := example_host) "getObject" = true)
    by (vm_compute; reflexivity).
  exact (deferred_call_runs_once (host := example_host) w 5%Z "getObject" []
           [Fetch_done 0 worker_role; Fetch_done 1 credentials_body] Hr Hf).
Defined.

(** * The proxy of a persistent client *)

Section PersistentProxy.
Context {host : Host}.

Lemma persistent_proxy_init opts :
  mode (new_MinioClientManager opts) = Persistent ->
  persistent_inv opts (getMinioClientProxy opts) /\
  invocations (getMinioClientProxy opts) = [] /\
  clients (getMinioClientProxy opts) = 2.
Proof.
  unfold getMinioClientProxy. rewrite init_mode, init_world.
  destruct (isAmazonEndpoint _ && _); [discriminate|]. intros _.
  split; [|now split]. split; simpl; trivial. repeat constructor.
Qed.

(** An event in a world that holds the persistent client changes nothing,
    or is a forwarder that runs at once on that client. *)
Lemma persistent_step_cases opts w ev :
  persistent_inv opts w -> reachable w ->
  step w ev = w \/
  exists cb,
    cb <> then_getClient /\
    let r := reaction (length (promises w)) (length (invocations w)) cb
               (Fulfilled (VClient {| instance := 0; client_options := opts |})) in
    step w ev = answered w r.1.1 r.2.
Proof.
  intros Hinv Hr.
  assert (Hc : forall now, cached now w = true).
  { intros now. unfold cached. now rewrite (pi_manager opts w Hinv). }
  assert (Hp : _client (manager w) = Some 0).
  { now rewrite (pi_manager opts w Hinv). }
  pose proof (pi_client opts w Hinv) as H0.
  pose proof (reachable_quiescent w Hr) as Hq.
  destruct ev as [now|now bucket key cb|now sKey args|now sKey|p out].
  - left. unfold step, handle. rewrite client_cached by trivial. simpl.
    now apply drain_quiescent_id.
  - right. exists (then_getObject bucket key cb). split; [discriminate|].
    rewrite step_getObject. now apply forward_on_cached with (p := 0).
  - right. destruct (isAFunction sKey) eqn:Hf.
    + exists (then_apply sKey args). split; [discriminate|].
      rewrite step_proxy_call by trivial.
      now apply forward_on_cached with (p := 0).
    + exists (then_get sKey). split; [discriminate|].
      unfold step, handle, proxy_read. rewrite Hf.
      replace (drain _) with
        (drain (then_ (client now w).1 (then_get sKey) (client now w).2).2)
        by now destruct (client now w).
      now apply forward_on_cached with (p := 0).
  - destruct (isAFunction sKey) eqn:Hf.
    + left. unfold step, handle. rewrite Hf. now apply drain_quiescent_id.
    + right. exists (then_get sKey). split; [discriminate|].
      rewrite step_proxy_get by trivial.
      now apply forward_on_cached with (p := 0).
  - left. unfold step, handle, deliver.
    destruct (promises w !! p) as [s|] eqn:Hs; [|now apply drain_quiescent_id].
    pose proof (pi_settled opts w Hinv) as Hall.
    eapply Forall_lookup_1 in Hall; eauto.
    destruct s; simpl in Hall; try discriminate; now apply drain_quiescent_id.
Qed.

Lemma persistent_receivers opts w evs :
  persistent_inv opts w -> reachable w ->
  Forall (fun i => receiver i = {| instance := 0; client_options := opts |})
         (invocations w) ->
  Forall (fun i => receiver i = {| instance := 0; client_options := opts |})
         (invocations (run w evs)) /\
  clients (run w evs) = clients w.
Proof.
  revert w; induction evs as [|ev evs IH]; intros w Hinv Hr Hall; simpl;
    [now split|].
  destruct (IH (step w ev)) as [H1 H2].
  - now apply persistent_step.
  - now constructor.
  - destruct (persistent_step_cases opts w ev Hinv Hr) as [->|(cb & _ & ->)];
      [trivial|]. unfold answered. cbn [invocations].
    apply Forall_app. split; [trivial|].
    apply Forall_forall. intros i Hi. apply list_elem_of_In in Hi.
    apply reaction_invokes in Hi. now injection Hi as <-.
  - split; [trivial|]. rewrite H2.
    now destruct (persistent_step_cases opts w ev Hinv Hr) as [->|(cb & _ & ->)].
Qed.

(** X10.  The proxy of a manager in Persistent mode: whatever calls were
    made, every storage method called so far was called on the client that
    [init] constructed (not on the client that is the target of the
    proxy), nothing was requested, no other client was constructed, and
    the next method called through the proxy is called on that client at
    once. *)
Theorem persistent_proxy_calls (opts : ClientOptions) (evs : list Event) :
  mode (new_MinioClientManager opts) = Persistent ->
  let c0 := {| instance := 0; client_options := opts |} in
  let w := run (getMinioClientProxy opts) evs in
  Forall (fun i => receiver i = c0) (invocations w) /\
  requests w = [] /\ clients w = 2 /\
  forall now sKey args, isAFunction sKey = true ->
    step w (Proxy_call now sKey args) =
      answered w
        (of_outcome (Client_apply (length (invocations w)) c0 sKey args))
        [{| receiver := c0; method := sKey; arguments := args;
            relayed_to := length (promises w) |}].
Proof.
  intros Hm c0 w.
  destruct (persistent_proxy_init opts Hm) as (Hinv & Hnil & Hcl).
  assert (Hr : reachable w) by (apply reachable_run; constructor).
  assert (Hw : persistent_inv opts w) by now apply persistent_run.
  destruct (persistent_receivers opts (getMinioClientProxy opts) evs)
    as [Hrec Hclients]; trivial.
  { constructor. }
  { rewrite Hnil. constructor. }
  split; [trivial|]. split; [apply (pi_requests opts w Hw)|].
  split; [unfold w; congruence|].
  intros now sKey args Hf. rewrite step_proxy_call by trivial.
  rewrite (forward_on_cached w now (then_apply sKey args) 0
             (Fulfilled (VClient c0))); trivial.
  - unfold cached. now rewrite (pi_manager opts w Hw).
  - now rewrite (pi_manager opts w Hw).
  - apply (pi_client opts w Hw).
  - discriminate.
Qed.

End PersistentProxy.

Lemma persistent_proxy_calls_witness :
  let c0 := {| instance := 0; client_options := minio_options |} in
  let w := run (host := example_host) (getMinioClientProxy minio_options)
             [Proxy_call 5%Z "listObjects" [VString "bucket"];
              Call_client 6%Z; Proxy_get 7%Z "region"] in
  Forall (fun i => receiver i = c0) (invocations w) /\
  requests w = [] /\ clients w = 2 /\
  forall now sKey args, isAFunction (Host := example_host) sKey = true ->
    step (host := example_host) w (Proxy_call now sKey args) =
      answered w
        (of_outcome (Client_apply (Host := example_host)
                       (length (invocations w)) c0 sKey args))
        [{| receiver := c0; method := sKey; arguments := args;
            relayed_to := length (promises w) |}].
Proof.
  assert (Hm : mode (new_MinioClientManager minio_options) = Persistent)
    by (vm_compute; reflexivity).
  exact (persistent_proxy_calls (host := example_host) minio_options
           [Proxy_call 5%Z "listObjects" [VString "bucket"];
            Call_client 6%Z; Proxy_get 7%Z "region"] Hm).
Defined.

(** * A request that fails *)

Section Failure.
Context {host : Host}.

Lemma only_rejects_settle e w p k :
  promises w !! p = Some (Fetching k) ->
  only_rejects e w (settle p (Rejected e) w).
Proof.
  intros Hp. repeat split. intros q. simpl.
  destruct (Nat.eq_dec q p) as [->|Hne].
  - right. split.
    + apply list_lookup_insert_eq. apply lookup_lt_is_Some. eauto.
    + now exists (Fetching k).
  - left. now apply list_lookup_insert_ne.
Qed.

Lemma fire_only_rejects e w w1 j :
  quiescent w -> only_rejects e w w1 -> only_rejects e w (fire w1 j).
Proof.
  intros Hq (Hm & Hreq & Hinv & Hcl & Hps).
  destruct (fire_cases w1 j) as [->|(src & cb & s & Hj & Hsrc & Hs & ->)];
    [repeat split; trivial|].
  assert (Hj0 : promises w !! j = Some (Waiting src cb)).
  { destruct (Hps j) as [<-|[H _]]; [trivial|congruence]. }
  assert (He : s = Rejected e).
  { destruct (Hps src) as [H|[H _]]; [|congruence].
    specialize (Hq j). unfold ready in Hq.
    rewrite Hj0, <- H, Hsrc in Hq. congruence. }
  subst s. unfold react. simpl.
  repeat split; simpl; trivial; try (now rewrite app_nil_r).
  intros q. destruct (Nat.eq_dec q j) as [->|Hne].
  - right. split.
    + apply list_lookup_insert_eq. apply lookup_lt_is_Some. eauto.
    + now exists (Waiting src cb).
  - rewrite list_lookup_insert_ne by congruence. apply Hps.
Qed.

Lemma fold_fire_only_rejects e w l w1 :
  quiescent w -> only_rejects e w w1 ->
  only_rejects e w (fold_left fire l w1).
Proof.
  intros Hq. revert w1; induction l as [|j l IH]; intros w1 H; simpl;
    [trivial|].
  apply IH. now apply fire_only_rejects.
Qed.

(** X11.  When a request of the manager fails (the role listing or a
    credentials request), the promise of its chain is rejected with the
    error and so is every promise that was waiting on it; a promise that
    changes at all was pending and is now rejected with that error.  The
    manager is left as it was: the promise it holds and the expiration
    time are kept, nothing is requested again, no storage method is
    called. *)
Theorem failed_request_rejects (w : World) (p : PromiseId) (k : Chain)
    (e : Error) :
  reachable w ->
  promises w !! p = Some (Fetching k) ->
  let w' := step w (Fetch_done p (Failed e)) in
  only_rejects e w w' /\
  promises w' !! p = Some (Rejected e) /\
  forall q cb, promises w !! q = Some (Waiting p cb) ->
               promises w' !! q = Some (Rejected e).
Proof.
  intros Hr Hp w'.
  assert (H : only_rejects e w w').
  { unfold w', step, handle, drain. rewrite (deliver_failed p k e w Hp).
    apply fold_fire_only_rejects; [now apply reachable_quiescent|].
    now apply (only_rejects_settle e w p k). }
  split; [trivial|].
  assert (Hp' : promises w' !! p = Some (Rejected e)).
  { unfold w', step, handle, drain. rewrite (deliver_failed p k e w Hp).
    apply fold_fire_settled; [|reflexivity]. simpl.
    apply list_lookup_insert_eq. apply lookup_lt_is_Some. eauto. }
  split; [trivial|].
  intros q cb Hq.
  destruct H as (_ & _ & _ & _ & Hps).
  destruct (Hps q) as [H|[H _]]; [|trivial].
  assert (Hq' : quiescent w').
  { apply reachable_quiescent. now constructor. }
  specialize (Hq' q). unfold ready in Hq'.
  rewrite H, Hq, Hp' in Hq'. discriminate.
Qed.

End Failure.

(** On [example_host]: two callers wait for the credentials, and the
    request fails. *)
Lemma failed_request_rejects_witness :
  let w := run (host := example_host) (getMinioClientProxy iam_options)
             [Proxy_call 5%Z "getObject" []; Fetch_done 0 worker_role;
              Call_getObject 6%Z "bucket" "key" VUndefined] in
  let e := FetchError "network timeout" in
  let w' := step (host := example_host) w (Fetch_done 1 (Failed e)) in
  only_rejects e w w' /\
  promises w' !! 1 = Some (Rejected e) /\
  forall q cb, promises w !! q = Some (Waiting 1 cb) ->
               promises w' !! q = Some (Rejected e).
Proof.
  intros w e.
  assert (Hr : reachable (host := example_host) w)
    by (apply reachable_run; constructor).
  assert (Hp : promises w !! 1 = Some (Fetching json_toClient))
    by (vm_compute; reflexivity).
  exact (failed_request_rejects (host := example_host) w 1 json_toClient e
           Hr Hp).
Defined.

(** * Calls after the credentials have expired *)

Section Expired.
Context {host : Host}.

Lemma drain_two_youngest w n :
  length (promises w) = S (S n) ->
  (forall q, q < n -> ready w q = false) ->
  drain w = fire (fire w n) (S n).
Proof.
  intros Hlen Hq. unfold drain. rewrite Hlen, !seq_S, !fold_left_app. simpl.
  rewrite fold_fire_not_ready; [reflexivity|].
  intros q Hin. apply in_seq in Hin. apply Hq. lia.
Qed.

(** A forwarder called when [createClient] refreshes, the role being
    known: credentials are requested and the callback waits for them. *)
Lemma forward_on_expired w now cb p c :
  reachable w -> cached now w = false ->
  _client (manager w) = Some p ->
  promises w !! p = Some (Fulfilled (VClient c)) ->
  cb <> then_getClient ->
  exists r v,
    iamRole (manager w) = Some r /\
    promises w !! r = Some (Fulfilled v) /\ truthy v = true /\
    drain (then_ (client now w).1 cb (client now w).2).2 =
      refreshing w r (String_of v) cb.
Proof.
  intros Hr Hc Hp Hs Hcb.
  assert (Hm : mode w = Dynamic).
  { unfold mode. unfold cached in Hc. apply orb_false_iff in Hc.
    destruct Hc as [-> _]. reflexivity. }
  destruct (cached_handle_role w p c Hr Hm Hp Hs) as (r & v & Hrole & Hrv & Hv).
  exists r, v. repeat split; trivial.
  pose proof (reachable_sound w Hr) as Hsound.
  pose proof (reachable_quiescent w Hr) as Hq.
  rewrite (client_refresh now w r) by trivial. simpl.
  set (n := length (promises w)).
  match goal with |- drain ?x = _ => set (w2 := x) end.
  assert (Hps : promises w2 =
                promises w ++ [Waiting r then_getClient; Waiting n cb]).
  { unfold w2, set_promises. simpl. rewrite <- app_assoc. reflexivity. }
  assert (Hlen : length (promises w2) = S (S n)).
  { rewrite Hps, length_app. simpl. fold n. lia. }
  rewrite (drain_two_youngest w2 n Hlen).
  2:{ intros q Hlt.
      rewrite (ready_appended w w2 [Waiting r then_getClient; Waiting n cb]);
        trivial. apply (sound_ordered w Hsound). }
  assert (Hn : promises w2 !! n = Some (Waiting r then_getClient)).
  { rewrite Hps, lookup_app_r by (unfold n; lia). unfold n.
    now rewrite Nat.sub_diag. }
  assert (Hr2 : promises w2 !! r = Some (Fulfilled v)).
  { rewrite Hps. now apply lookup_app_l_Some. }
  rewrite (fire_ready w2 n r then_getClient (Fulfilled v) Hn Hr2 eq_refl).
  simpl reaction. rewrite Hv.
  set (w3 := react w2 n _).
  assert (Hps3 : promises w3 =
                 promises w ++ [Fetching json_toClient; Waiting n cb]).
  { unfold w3, react. cbn [promises fst snd]. rewrite Hps.
    rewrite insert_app_r_alt by (unfold n; lia). unfold n.
    now rewrite Nat.sub_diag. }
  rewrite fire_not_ready.
  - unfold refreshing. fold n. rewrite <- Hps3. unfold w3, react, w2.
    simpl. now rewrite app_nil_r.
  - unfold ready. rewrite Hps3.
    rewrite lookup_app_r by (unfold n; lia).
    replace (S n - length (promises w)) with 1 by (unfold n; lia). simpl.
    rewrite lookup_app_r by (unfold n; lia). unfold n.
    now rewrite Nat.sub_diag.
Qed.

Lemma expired_mode w now : cached now w = false -> mode w = Dynamic.
Proof.
  unfold mode, cached. intros Hc. apply orb_false_iff in Hc.
  now destruct Hc as [-> _].
Qed.

(** X12.  When the credentials have expired, the client that the manager
    holds is not called any more, although its promise is fulfilled: a
    method called through the proxy, or [getObject] of the manager, makes
    one credentials request for the role that the listing gave, and waits
    for its answer; no storage method is called in that step, [expiration]
    is not changed, and the manager holds the promise of the new
    request. *)
Theorem expired_call_is_deferred (w : World) (now : Z) (p : PromiseId)
    (c : Client) :
  reachable w -> cached now w = false ->
  _client (manager w) = Some p ->
  promises w !! p = Some (Fulfilled (VClient c)) ->
  exists r v,
    iamRole (manager w) = Some r /\
    promises w !! r = Some (Fulfilled v) /\ truthy v = true /\
    (forall sKey args, isAFunction sKey = true ->
       step w (Proxy_call now sKey args) =
         refreshing w r (String_of v) (then_apply sKey args)) /\
    (forall bucket key cb,
       step w (Call_getObject now bucket key cb) =
         refreshing w r (String_of v) (then_getObject bucket key cb)).
Proof.
  intros Hr Hc Hp Hs.
  destruct (cached_handle_role w p c Hr (expired_mode w now Hc) Hp Hs)
    as (r & v & Hrole & Hrv & Hv).
  exists r, v. repeat split; trivial.
  - intros sKey args Hf. rewrite step_proxy_call by trivial.
    destruct (forward_on_expired w now (then_apply sKey args) p c)
      as (r' & v' & Hrole' & Hrv' & _ & ->); trivial; [discriminate|].
    congruence.
  - intros bucket key cb. rewrite step_getObject.
    destruct (forward_on_expired w now (then_getObject bucket key cb) p c)
      as (r' & v' & Hrole' & Hrv' & _ & ->); trivial; [discriminate|].
    congruence.
Qed.

End Expired.

(** On [example_host]: a call in 2099, after the credentials have
    expired. *)
Lemma expired_call_is_deferred_witness :
  let w := run (host := example_host) (getMinioClientProxy iam_options)
             with_credentials in
  exists r v,
    iamRole (manager w) = Some r /\
    promises w !! r = Some (Fulfilled v) /\ truthy v = true /\
    (forall sKey args, isAFunction (Host := example_host) sKey = true ->
       step (host := example_host) w (Proxy_call 4070908800000%Z sKey args) =
         refreshing w r (String_of v) (then_apply sKey args)) /\
    (forall bucket key cb,
       step (host := example_host) w
         (Call_getObject 4070908800000%Z bucket key cb) =
         refreshing w r (String_of v) (then_getObject bucket key cb)).
Proof.
  intros w.
  assert (Hr : reachable (host := example_host) w)
    by (apply reachable_run; constructor).
  assert (Hc : cached 4070908800000%Z w = false) by (vm_compute; reflexivity).
  assert (Hp : _client (manager w) = Some 1) by (vm_compute; reflexivity).
  assert (Hs : promises w !! 1 = Some (Fulfilled (VClient worker_client)))
    by (vm_compute; reflexivity).
  exact (expired_call_is_deferred (host := example_host) w 4070908800000%Z 1
           worker_client Hr Hc Hp Hs).
Defined.

(** * From the first call to the storage *)

Section EndToEnd.
Context {host : Host}.

Lemma dynamic_proxy opts :
  mode (new_MinioClientManager opts) = Dynamic ->
  getMinioClientProxy opts =
    {| manager := {| options := opts; iamRole := None; _client := None;
                     expiration := Num 0 |};
       promises := []; requests := []; invocations := []; clients := 1 |}.
Proof.
  unfold getMinioClientProxy. rewrite init_mode, init_world.
  destruct (isAmazonEndpoint _ && _); [reflexivity|discriminate].
Qed.

(** X13.  The first method called through a proxy in Dynamic mode, to the
    end: the call requests the role listing and waits; when the listing
    answers with a role name, credentials are requested for that role and
    the call still waits; when the credentials arrive, a client is
    constructed from them for the endpoint [s3.amazonaws.com], with the
    session token, [expiration] is set from them, and the method is
    called once on that client with the arguments of the call.  Two
    requests were made, and the client that is the target of the proxy was
    not called. *)
Theorem first_call_end_to_end (opts : ClientOptions) (now : Z)
    (sKey : string) (args : list Value) (listing answer : Response)
    (m : MetaDataResult) :
  mode (new_MinioClientManager opts) = Dynamic ->
  isAFunction sKey = true ->
  ok listing = true -> text listing <> "" ->
  json answer = Some m ->
  let c := {| instance := 1;
              client_options :=
                {| endPoint := "s3.amazonaws.com";
                   accessKey := Some (AccessKeyId m);
                   secretKey := Some (SecretAccessKey m);
                   useSSL := None; port := None; region := None;
                   sessionToken := Some (Token m) |} |} in
  let w1 := step (getMinioClientProxy opts) (Proxy_call now sKey args) in
  let w2 := step w1 (Fetch_done 0 (Arrived listing)) in
  let w3 := step w2 (Fetch_done 1 (Arrived answer)) in
  w1 = {| manager := {| options := opts; iamRole := Some 0; _client := Some 1;
                        expiration := Num 0 |};
          promises := [Fetching role_text; Waiting 0 then_getClient;
                       Waiting 1 (then_apply sKey args)];
          requests := [RoleListing]; invocations := []; clients := 1 |} /\
  w2 = {| manager := manager w1;
          promises := [Fulfilled (VString (text listing));
                       Fetching json_toClient;
                       Waiting 1 (then_apply sKey args)];
          requests := [RoleListing; Credentials (text listing)];
          invocations := []; clients := 1 |} /\
  w3 = {| manager := {| options := opts; iamRole := Some 0; _client := Some 1;
                        expiration := Date_parse (Expiration m) |};
          promises := [Fulfilled (VString (text listing));
                       Fulfilled (VClient c);
                       of_outcome (Client_apply 0 c sKey args)];
          requests := [RoleListing; Credentials (text listing)];
          invocations := [{| receiver := c; method := sKey; arguments := args;
                             relayed_to := 2 |}];
          clients := 2 |}.
Proof.
  intros Hm Hf Hok Htext Hjson c w1 w2 w3.
  assert (Ht : negb (String.eqb (text listing) "") = true).
  { apply negb_true_iff. now apply String.eqb_neq. }
  assert (H1 : w1 = {| manager := {| options := opts; iamRole := Some 0;
                                     _client := Some 1; expiration := Num 0 |};
          promises := [Fetching role_text; Waiting 0 then_getClient;
                       Waiting 1 (then_apply sKey args)];
          requests := [RoleListing]; invocations := []; clients := 1 |}).
  { unfold w1. rewrite (dynamic_proxy opts Hm).
    unfold step, handle. rewrite Hf. reflexivity. }
  split; [exact H1|].
  assert (H2 : w2 = {| manager := manager w1;
          promises := [Fulfilled (VString (text listing));
                       Fetching json_toClient;
                       Waiting 1 (then_apply sKey args)];
          requests := [RoleListing; Credentials (text listing)];
          invocations := []; clients := 1 |}).
  { unfold w2. rewrite H1. unfold step, handle, deliver. simpl.
    rewrite Hok. unfold drain. simpl. unfold fire. simpl.
    unfold getClientFromEc2MetaData. simpl. rewrite Ht. reflexivity. }
  split; [exact H2|].
  unfold w3. rewrite H2, H1. unfold step, handle, deliver. simpl.
  rewrite Hjson. unfold drain. simpl. unfold fire. simpl. reflexivity.
Qed.

Lemma client_expiration now w :
  expiration (manager (client now w).2) = expiration (manager w).
Proof.
  unfold client, createClient.
  destruct (num_lt (expiration (manager w)) (Num 0)); [reflexivity|].
  destruct (defined (_client (manager w)) &&
            num_gt (expiration (manager w)) (Num now)); [reflexivity|].
  destruct (iamRole (manager w)); reflexivity.
Qed.

(** [expiration] changes only when credentials arrive. *)
Lemma step_expiration w ev :
  brings_credentials ev = false ->
  expiration (manager (step w ev)) = expiration (manager w).
Proof.
  intros Hev. unfold step, drain. rewrite fold_fire_manager.
  destruct ev as [now|now bucket key cb|now sKey args|now sKey|p out]; simpl.
  - apply client_expiration.
  - unfold getObject. rewrite <- (client_expiration now w).
    destruct (client now w). apply f_equal, then_manager.
  - unfold proxy_apply, proxy_read. rewrite <- (client_expiration now w).
    destruct (isAFunction sKey); destruct (client now w);
      apply f_equal, then_manager.
  - unfold proxy_read. destruct (isAFunction sKey); [reflexivity|].
    rewrite <- (client_expiration now w).
    destruct (client now w). apply f_equal, then_manager.
  - unfold deliver.
    destruct (promises w !! p) as [[[]|src cb|v|e]|]; try reflexivity;
      destruct out as [resp|err]; try reflexivity; simpl in Hev.
    + now destruct (ok resp).
    + destruct (json resp); [discriminate|reflexivity].
Qed.

Lemma run_expiration w evs :
  forallb (fun ev => negb (brings_credentials ev)) evs = true ->
  expiration (manager (run w evs)) = expiration (manager w).
Proof.
  revert w; induction evs as [|ev evs IH]; intros w H; simpl in *;
    [reflexivity|].
  apply andb_true_iff in H. destruct H as [Hev Hevs].
  rewrite IH by trivial. apply step_expiration.
  now apply negb_true_iff.
Qed.

Lemma run_iamRole w evs r :
  iamRole (manager w) = Some r -> iamRole (manager (run w evs)) = Some r.
Proof.
  revert w; induction evs as [|ev evs IH]; intros w H; simpl; [trivial|].
  apply IH. now apply step_iamRole.
Qed.

(** X14.  Credentials whose [Expiration] the host cannot parse make
    [expiration] not a number.  The client constructed from them is given
    to the calls that waited for it.  From then on, and until the answer
    to another credentials request arrives, whatever calls are made and
    whatever requests fail in between: [expiration] stays not a number,
    no call is served from the promise that the manager holds, and every
    [client()] requests credentials anew. *)
Theorem unparsed_expiration_refreshes (w : World) (q r : PromiseId)
    (answer : Response) (m : MetaDataResult) (role : string)
    (evs : list Event) (now : Z) :
  reachable w ->
  promises w !! q = Some (Fetching json_toClient) ->
  json answer = Some m -> Date_parse (Expiration m) = NaN ->
  iamRole (manager w) = Some r ->
  promises w !! r = Some (Fulfilled (VString role)) -> role <> "" ->
  forallb (fun ev => negb (brings_credentials ev)) evs = true ->
  let w' := run (step w (Fetch_done q (Arrived answer))) evs in
  (exists c, promises w' !! q = Some (Fulfilled (VClient c))) /\
  expiration (manager w') = NaN /\
  cached now w' = false /\
  (client now w').1 = Some (length (promises w')) /\
  requests (step w' (Call_client now)) = requests w' ++ [Credentials role].
Proof.
  intros Hr Hq Hjson Hnan Hrole Hrv Hne Hevs w'.
  set (w1 := step w (Fetch_done q (Arrived answer))) in *.
  assert (Hr' : reachable w') by (apply reachable_run; now constructor).
  assert (He1 : expiration (manager w1) = NaN).
  { unfold w1, step, drain. rewrite fold_fire_manager. simpl.
    rewrite (deliver_credentials q answer m w Hq Hjson).
    unfold toClient. simpl. exact Hnan. }
  assert (He : expiration (manager w') = NaN).
  { unfold w'. now rewrite run_expiration. }
  assert (Hc : cached now w' = false).
  { unfold cached. rewrite He. simpl. apply andb_false_r. }
  assert (Hrv' : promises w' !! r = Some (Fulfilled (VString role))).
  { now apply (run_settled w (Fetch_done q (Arrived answer) :: evs)). }
  assert (Hrole' : iamRole (manager w') = Some r).
  { apply run_iamRole. now apply step_iamRole. }
  destruct (call_refresh w' now r (Fulfilled (VString role)) Hr' Hc Hrole' Hrv'
              eq_refl) as [Hcl Hstep].
  split.
  { eexists. apply run_settled; [|reflexivity].
    apply step_settles; [now right| |reflexivity].
    rewrite (deliver_credentials q answer m w Hq Hjson).
    unfold toClient. simpl. apply list_lookup_insert_eq.
    apply lookup_lt_is_Some. eauto. }
  split; [trivial|]. split; [trivial|]. split; [trivial|].
  rewrite Hstep. simpl.
  now replace (negb (role =? "")%string) with true
    by (symmetry; apply negb_true_iff; now apply String.eqb_neq).
Qed.

End EndToEnd.

Lemma first_call_end_to_end_witness :
  let c := {| instance := 1;
              client_options :=
                {| endPoint := "s3.amazonaws.com";
                   accessKey := Some (AccessKeyId worker_credentials);
                   secretKey := Some (SecretAccessKey worker_credentials);
                   useSSL := None; port := None; region := None;
                   sessionToken := Some (Token worker_credentials) |} |} in
  let listing := {| ok := true; text := "worker-role"; json := None |} in
  let answer := {| ok := true; text := "{...}";
                   json := Some worker_credentials |} in
  let w1 := step (host := example_host) (getMinioClientProxy iam_options)
              (Proxy_call 5%Z "getObject" [VString "bucket"; VString "key"]) in
  let w2 := step (host := example_host) w1 (Fetch_done 0 (Arrived listing)) in
  let w3 := step (host := example_host) w2 (Fetch_done 1 (Arrived answer)) in
  w1 = {| manager := {| options := iam_options; iamRole := Some 0;
                        _client := Some 1; expiration := Num 0 |};
          promises := [Fetching role_text; Waiting 0 then_getClient;
                       Waiting 1 (then_apply "getObject"
                                    [VString "bucket"; VString "key"])];
          requests := [RoleListing]; invocations := []; clients := 1 |} /\
  w2 = {| manager := manager w1;
          promises := [Fulfilled (VString (text listing));
                       Fetching json_toClient;
                       Waiting 1 (then_apply "getObject"
                                    [VString "bucket"; VString "key"])];
          requests := [RoleListing; Credentials (text listing)];
          invocations := []; clients := 1 |} /\
  w3 = {| manager := {| options := iam_options; iamRole := Some 0;
                        _client := Some 1;
                        expiration := Date_parse (Host := example_host)
                                        (Expiration worker_credentials) |};
          promises := [Fulfilled (VString (text listing));
                       Fulfilled (VClient c);
                       of_outcome (Client_apply (Host := example_host) 0 c
                                     "getObject"
                                     [VString "bucket"; VString "key"])];
          requests := [RoleListing; Credentials (text listing)];
          invocations := [{| receiver := c; method := "getObject";
                             arguments := [VString "bucket"; VString "key"];
                             relayed_to := 2 |}];
          clients := 2 |}.
Proof.
  assert (Hm : mode (new_MinioClientManager iam_options) = Dynamic)
    by (vm_compute; reflexivity).
  assert (Hf : isAFunction (Host := example_host) "getObject" = true)
    by (vm_compute; reflexivity).
  assert (Ht : "worker-role" <> "") by discriminate.
  exact (first_call_end_to_end (host := example_host) iam_options 5%Z
           "getObject" [VString "bucket"; VString "key"]
           {| ok := true; text := "worker-role"; json := None |}
           {| ok := true; text := "{...}"; json := Some worker_credentials |}
           worker_credentials Hm Hf eq_refl Ht eq_refl).
Defined.

Lemma unparsed_expiration_refreshes_witness :
  let w := run (host := example_host) (getMinioClientProxy iam_options)
             [Call_client 5%Z; Call_client 5%Z; Fetch_done 0 worker_role] in
  let w' := run (host := example_host)
              (step (host := example_host) w
                 (Fetch_done 1 (Arrived undated_body)))
              [Proxy_call 6%Z "getObject" []; Fetch_done 2 timed_out] in
  (exists c, promises w' !! 1 = Some (Fulfilled (VClient c))) /\
  expiration (manager w') = NaN /\
  cached 7%Z w' = false /\
  (client 7%Z w').1 = Some (length (promises w')) /\
  requests (step (host := example_host) w' (Call_client 7%Z)) =
    requests w' ++ [Credentials "worker-role"].
Proof.
  intros w.
  assert (Hr : reachable (host := example_host) w)
    by (apply reachable_run; constructor).
  assert (Hq : promises w !! 1 = Some (Fetching json_toClient))
    by (vm_compute; reflexivity).
  assert (Hnan : Date_parse (Host := example_host)
                   (Expiration undated_credentials) = NaN)
    by (vm_compute; reflexivity).
  assert (Hrole : iamRole (manager w) = Some 0) by (vm_compute; reflexivity).
  assert (Hrv : promises w !! 0 = Some (Fulfilled (VString "worker-role")))
    by (vm_compute; reflexivity).
  assert (Ht : "worker-role" <> "") by discriminate.
  exact (unparsed_expiration_refreshes (host := example_host) w 1 0
           undated_body undated_credentials "worker-role"
           [Proxy_call 6%Z "getObject" []; Fetch_done 2 timed_out] 7%Z
           Hr Hq eq_refl Hnan Hrole Hrv Ht eq_refl).
Defined.

(** * The clients that are called in Dynamic mode *)

Section Receivers.
Context {host : Host}.

(** One promise changes state, and keeps its kind. *)
Lemma update_credentials_inv w j s s' w' :
  credentials_inv w ->
  promises w !! j = Some s -> waiting s' = false ->
  (role_kind s -> role_kind s') -> (client_kind s -> client_kind s') ->
  iamRole (manager w') = iamRole (manager w) ->
  _client (manager w') = _client (manager w) ->
  promises w' = <[j := s']> (promises w) ->
  Forall (fun i => from_credentials (receiver i)) (invocations w') ->
  0 < clients w' ->
  credentials_inv w'.
Proof.
  intros [Hrole Hsrc Hcl Hrec Hn] Hj Hw Hrk Hck Hir Hc Hps Hinv Hn'.
  assert (Hlt : j < length (promises w)) by (apply lookup_lt_is_Some; eauto).
  assert (Hk : forall (K : Promise -> Prop) x,
             (K s -> K s') ->
             (exists s0, promises w !! x = Some s0 /\ K s0) ->
             exists s0, promises w' !! x = Some s0 /\ K s0).
  { intros K x HK (s0 & Hx & Hs0). rewrite Hps.
    destruct (Nat.eq_dec x j) as [->|Hne].
    - exists s'. split; [now apply list_lookup_insert_eq|].
      apply HK. congruence.
    - exists s0. split; [|trivial]. now rewrite list_lookup_insert_ne. }
  split; trivial.
  - intros r Hr. rewrite Hir in Hr. apply Hk; auto.
  - intros q src cb Hq Hcb. rewrite Hps in Hq.
    destruct (Nat.eq_dec q j) as [->|Hne].
    + rewrite list_lookup_insert_eq in Hq by trivial.
      injection Hq as ->. discriminate.
    + rewrite list_lookup_insert_ne in Hq by congruence.
      apply Hk; eauto.
  - intros p Hp. rewrite Hc in Hp. apply Hk; auto.
Qed.

(** One promise is added. *)
Lemma append_credentials_inv w x w' :
  credentials_inv w ->
  promises w' = promises w ++ [x] ->
  invocations w' = invocations w ->
  (iamRole (manager w') = iamRole (manager w) \/
   iamRole (manager w') = Some (length (promises w)) /\ role_kind x) ->
  (_client (manager w') = _client (manager w) \/
   _client (manager w') = Some (length (promises w)) /\ client_kind x) ->
  (forall src cb, x = Waiting src cb -> cb <> then_getClient ->
                  exists s, promises w' !! src = Some s /\ client_kind s) ->
  clients w' = clients w ->
  credentials_inv w'.
Proof.
  intros [Hrole Hsrc Hcl Hrec Hn] Hps Hinv Hir Hc Hx Hn'.
  assert (Hold : forall (K : Promise -> Prop) y,
             (exists s0, promises w !! y = Some s0 /\ K s0) ->
             exists s0, promises w' !! y = Some s0 /\ K s0).
  { intros K y (s0 & Hy & Hs0). exists s0. split; [|trivial].
    rewrite Hps. now apply lookup_app_l_Some. }
  assert (Hnew : promises w' !! length (promises w) = Some x).
  { rewrite Hps, lookup_app_r by lia. now rewrite Nat.sub_diag. }
  split.
  - intros r Hr. destruct Hir as [Hir|[Hir Hk]].
    + apply Hold, Hrole. congruence.
    + rewrite Hir in Hr. injection Hr as <-. eauto.
  - intros q src cb Hq Hcb. rewrite Hps in Hq.
    apply lookup_app_Some in Hq. destruct Hq as [Hq|[Hge Hq]].
    + apply Hold. eauto.
    + destruct (q - length (promises w)) as [|n]; [|discriminate].
      injection Hq as ->. eauto.
  - intros p Hp. destruct Hc as [Hc|[Hc Hk]].
    + apply Hold, Hcl. congruence.
    + rewrite Hc in Hp. injection Hp as <-. eauto.
  - now rewrite Hinv.
  - now rewrite Hn'.
Qed.

Lemma client_held now w :
  (client now w).1 = _client (manager (client now w).2).
Proof.
  unfold client, createClient.
  destruct (num_lt (expiration (manager w)) (Num 0)); [reflexivity|].
  destruct (defined (_client (manager w)) &&
            num_gt (expiration (manager w)) (Num now)); [reflexivity|].
  destruct (iamRole (manager w)); reflexivity.
Qed.

Lemma client_credentials_inv now w :
  credentials_inv w -> credentials_inv (client now w).2.
Proof.
  intros Hinv. destruct (cached now w) eqn:Hc.
  - now rewrite client_cached.
  - destruct (iamRole (manager w)) as [r|] eqn:Hr.
    + rewrite (client_refresh now w r) by trivial. simpl.
      eapply (append_credentials_inv w (Waiting r then_getClient));
        trivial; simpl.
      * left. congruence.
      * right. now split.
      * intros src cb [= _ <-]. congruence.
    + rewrite client_first by trivial. simpl.
      set (w1 := {| manager := {| options := options (manager w);
                                  iamRole := Some (length (promises w));
                                  _client := _client (manager w);
                                  expiration := expiration (manager w) |};
                    promises := promises w ++ [Fetching role_text];
                    requests := requests w; invocations := invocations w;
                    clients := clients w |}).
      assert (H1 : credentials_inv w1).
      { eapply (append_credentials_inv w (Fetching role_text));
          trivial; simpl.
        - right. now split.
        - now left.
        - intros src cb [=]. }
      eapply (append_credentials_inv w1
                (Waiting (length (promises w)) then_getClient));
        trivial; simpl.
      * now rewrite <- app_assoc.
      * now left.
      * right. rewrite length_app. simpl. split; [f_equal; lia|trivial].
      * intros src cb [= _ <-]. congruence.
Qed.

Lemma then_credentials_inv now cb w :
  credentials_inv w -> cb <> then_getClient ->
  credentials_inv (then_ (client now w).1 cb (client now w).2).2.
Proof.
  intros Hinv Hcb. apply (client_credentials_inv now) in Hinv.
  rewrite client_held.
  destruct (_client (manager (client now w).2)) as [p|] eqn:Hp; [|trivial].
  simpl.
  eapply (append_credentials_inv (client now w).2 (Waiting p cb));
    trivial; simpl.
  - now left.
  - now left.
  - intros src cb' [= <- <-] _.
    destruct (ci_client _ Hinv p Hp) as (s & Hs & Hk).
    exists s. split; [|trivial]. now apply lookup_app_l_Some.
Qed.

Lemma deliver_credentials_inv p out w :
  credentials_inv w -> credentials_inv (deliver p out w).
Proof.
  intros Hinv. unfold deliver.
  destruct (promises w !! p) as [[k|src cb|v|e]|] eqn:Hp; trivial.
  destruct k, out as [resp|err];
    try destruct (ok resp); try destruct (json resp) as [m|];
    (eapply (update_credentials_inv w p);
     [eassumption|eassumption| | | |reflexivity|reflexivity|reflexivity
     |apply (ci_receiver w Hinv)|];
     simpl; trivial; try discriminate;
     try (pose proof (ci_clients w Hinv); lia)).
  all: intros _; split; [apply (ci_clients w Hinv)|reflexivity].
Qed.

Lemma handle_credentials_inv w ev :
  credentials_inv w -> credentials_inv (handle w ev).
Proof.
  intros Hinv.
  destruct ev as [now|now bucket key cb|now sKey args|now sKey|p out]; simpl.
  - now apply client_credentials_inv.
  - apply (then_credentials_inv now (then_getObject bucket key cb)) in Hinv;
      [|discriminate].
    unfold getObject. now destruct (client now w).
  - destruct (isAFunction sKey).
    + apply (then_credentials_inv now (then_apply sKey args)) in Hinv;
        [|discriminate].
      unfold proxy_apply. now destruct (client now w).
    + apply (then_credentials_inv now (then_get sKey)) in Hinv;
        [|discriminate].
      unfold proxy_read. now destruct (client now w).
  - destruct (isAFunction sKey); [trivial|].
    apply (then_credentials_inv now (then_get sKey)) in Hinv;
      [|discriminate].
    unfold proxy_read. now destruct (client now w).
  - now apply deliver_credentials_inv.
Qed.

Lemma reaction_waiting_false q n cb s :
  settled s = true -> waiting (reaction q n cb s).1.1 = false.
Proof.
  intros Hs. pose proof (reaction_not_waiting q n cb s Hs) as H.
  destruct (reaction q n cb s).1.1 as [k|src' cb'|v|e]; trivial.
  now destruct (H src' cb').
Qed.

Lemma fire_credentials_inv w j :
  sound w -> credentials_inv w -> credentials_inv (fire w j).
Proof.
  intros Hsound Hinv.
  destruct (fire_cases w j) as [->|(src & cb & s & Hj & Hsrc & Hs & ->)];
    [trivial|].
  eapply (update_credentials_inv w j (Waiting src cb)
            (reaction j (length (invocations w)) cb s).1.1);
    trivial.
  - now apply reaction_waiting_false.
  - intros [].
  - simpl. intros ->. rewrite reaction_getClient by trivial. simpl.
    apply (sound_getClient w Hsound) in Hj.
    destruct (ci_role w Hinv src Hj) as (s0 & Hs0 & Hk).
    rewrite Hsrc in Hs0. injection Hs0 as <-.
    destruct s as [k|src0 cb0|v|e]; simpl in *; try discriminate; trivial.
    destruct v; simpl in *; trivial; try contradiction.
    + now destruct b.
    + now destruct (negb _).
  - simpl. apply Forall_app. split; [apply (ci_receiver w Hinv)|].
    apply Forall_forall. intros i Hi. apply list_elem_of_In in Hi.
    destruct (Callback_eq_getClient cb) as [->|Hcb].
    + rewrite reaction_getClient in Hi by trivial. destruct Hi.
    + apply reaction_invokes in Hi. subst s.
      destruct (ci_source w Hinv j src cb Hj Hcb) as (s0 & Hs0 & Hk).
      rewrite Hsrc in Hs0. injection Hs0 as <-. exact Hk.
  - simpl. apply (ci_clients w Hinv).
Qed.

Lemma run_credentials_inv w evs :
  sound w -> credentials_inv w -> credentials_inv (run w evs).
Proof.
  revert w; induction evs as [|ev evs IH]; intros w Hsound Hinv; simpl;
    [trivial|].
  apply IH; [now apply step_sound|].
  unfold step, drain.
  pose proof (handle_sound w ev Hsound) as Hs0.
  pose proof (handle_credentials_inv w ev Hinv) as Hi0.
  generalize (seq 0 (length (promises (handle w ev)))).
  intros l. revert Hs0 Hi0. generalize (handle w ev).
  induction l as [|j l IHl]; intros w0 Hs0 Hi0; simpl; [trivial|].
  apply IHl; [now apply fire_sound|now apply fire_credentials_inv].
Qed.

(** X15.  Behind a proxy in Dynamic mode, the client that is the target
    of the proxy is the first client constructed, from the options given.
    Whatever calls and answers follow, it is never called: every storage
    method is called on a client constructed after it, which is one that
    [toClient] constructed for the endpoint [s3.amazonaws.com]. *)
Theorem dynamic_calls_use_credentials (opts : ClientOptions)
    (evs : list Event) :
  mode (new_MinioClientManager opts) = Dynamic ->
  let target := fst (new_Client opts (new_MinioClientManager opts)) in
  target = {| instance := 0; client_options := opts |} /\
  Forall (fun i =>
            receiver i <> target /\
            0 < instance (receiver i) /\
            endPoint (client_options (receiver i)) = "s3.amazonaws.com")
         (invocations (run (getMinioClientProxy opts) evs)).
Proof.
  intros Hm target.
  assert (Ht : target = {| instance := 0; client_options := opts |}).
  { unfold target. rewrite init_world. rewrite init_mode in Hm.
    now destruct (isAmazonEndpoint _ && _). }
  split; [exact Ht|].
  assert (Hinv : credentials_inv (run (getMinioClientProxy opts) evs)).
  { apply run_credentials_inv.
    - apply reachable_sound. constructor.
    - rewrite (dynamic_proxy opts Hm). split; simpl; try discriminate;
        [constructor|lia]. }
  eapply Forall_impl; [apply (ci_receiver _ Hinv)|].
  intros i [Hpos Hend]. split; [|now split].
  rewrite Ht. intros Heq. rewrite Heq in Hpos. simpl in Hpos. lia.
Qed.

End Receivers.

Lemma dynamic_calls_use_credentials_witness :
  let target :=
    fst (new_Client iam_options (new_MinioClientManager iam_options)) in
  target = {| instance := 0; client_options := iam_options |} /\
  Forall (fun i =>
            receiver i <> target /\
            0 < instance (receiver i) /\
            endPoint (client_options (receiver i)) = "s3.amazonaws.com")
         (invocations
            (run (host := example_host) (getMinioClientProxy iam_options)
               [Proxy_call 5%Z "getObject" []; Fetch_done 0 worker_role;
                Fetch_done 1 credentials_body;
                Call_getObject 6%Z "bucket" "key" VUndefined])).
Proof.
  assert (Hm : mode (new_MinioClientManager iam_options) = Dynamic)
    by (vm_compute; reflexivity).
  exact (dynamic_calls_use_credentials (host := example_host) iam_options
           [Proxy_call 5%Z "getObject" []; Fetch_done 0 worker_role;
            Fetch_done 1 credentials_body;
            Call_getObject 6%Z "bucket" "key" VUndefined] Hm).
Defined.
